(** * GraceQ/MPS2: two-site DMRG core, MPS container and MPO coefficient algebra

    A shallow embedding of
    - [include/gqmps2/detail/mpogen/coef_op_alg.h]   (module [CoefOpAlg]),
    - [include/gqmps2/one_dim_tn/mps/mps.h]          (module [Mps]),
    - [include/gqmps2/algorithm/lanczos_dmrg_solver_impl.h]
                                            (modules [Lanczos], [Dmrg], [Sweep]),
    together with the properties of these functions that the design
    document states, and further properties read off the code.

    Conventions.  [GQTEN_Double] is IEEE binary64 and is embedded as Rocq's
    primitive [float].  Tensors and the tensor primitives ([Contract], [SVD],
    [Dag], [LinearCombine], [Normalize], [Div]) belong to the external tensor
    library and are section variables.  A [std::vector] or [DuoVector] is a
    list; reading or writing it out of range is undefined behaviour in C++
    and is a fault ([None], or an explicit fault value) in the embedding. *)

From Stdlib Require Import ZArith Lia Floats Ascii.
From stdpp Require Import base option list sorting strings pretty gmap.
From Equations Require Import Equations.
From Equations.Prop Require Import Logic.

Set Default Proof Using "Type".
Local Open Scope Z_scope.

(* ===================================================================== *)
(** * coef_op_alg.h : representation of MPO coefficients                   *)
(* ===================================================================== *)

Module CoefOpAlg.

(** [using CoefLabel = long;] *)
Definition CoefLabel := Z.

Definition kIdCoefLabel : CoefLabel := 0.

Section Helpers.
Context {T : Type} (eqb : T -> T -> bool).

(** The loop of [ElemInVec]: scan [v] from position [i]; on the first
    element equal to [e] set [pos] to its position and return [true];
    after the loop set [pos = -1] and return [false]. *)
Fixpoint ElemInVec_from (e : T) (v : list T) (i : Z) : bool * Z :=
  match v with
  | [] => (false, -1)
  | x :: v' => if eqb e x then (true, i) else ElemInVec_from e v' (i + 1)
  end.

(** [bool ElemInVec(const T &e, const std::vector<T> &v, long &pos)]:
    the result and the final value of [pos]. *)
Definition ElemInVec (e : T) (v : list T) : bool * Z := ElemInVec_from e v 0.

(** [ConcatenateTwoVec(va, vb)]: [va]'s elements, then [vb]'s. *)
Definition ConcatenateTwoVec (va vb : list T) : list T := va ++ vb.
End Helpers.

(** [class CoefRepr]: its only member is [coef_label_list_]. *)
Record CoefRepr := MkCoefRepr { coef_label_list_ : list CoefLabel }.

Definition kNullCoefRepr : CoefRepr := MkCoefRepr [].
Definition kIdCoefRepr : CoefRepr := MkCoefRepr [kIdCoefLabel].

(** The [for (auto &l_elem : lhs)] loop of [operator==], run on the remaining
    left labels and the working copy [rhs]; the last line is the test
    [if (!rhs.empty()) return false; return true] after the loop. *)
Fixpoint CoefRepr_eq_loop (lhs rhs : list CoefLabel) : bool :=
  match lhs with
  | [] => match rhs with [] => true | _ :: _ => false end
  | l_elem :: lhs' =>
      match ElemInVec Z.eqb l_elem rhs with
      | (false, _) => false
      | (true, pos_in_rhs) =>
          CoefRepr_eq_loop lhs' (delete (Z.to_nat pos_in_rhs) rhs)
      end
  end.

(** [bool CoefRepr::operator==(const CoefRepr &rhs) const] *)
Definition CoefRepr_eq (lhs rhs : CoefRepr) : bool :=
  if negb (Nat.eqb (length (coef_label_list_ lhs)) (length (coef_label_list_ rhs)))
  then false
  else CoefRepr_eq_loop (coef_label_list_ lhs) (coef_label_list_ rhs).

(** [CoefRepr CoefRepr::operator+(const CoefRepr &rhs) const] *)
Definition CoefRepr_add (lhs rhs : CoefRepr) : CoefRepr :=
  MkCoefRepr (ConcatenateTwoVec (coef_label_list_ lhs) (coef_label_list_ rhs)).


(** [bool CoefRepr::operator!=(const CoefRepr &rhs) const] *)
Definition CoefRepr_ne (lhs rhs : CoefRepr) : bool := negb (CoefRepr_eq lhs rhs).

(** [using OpLabel = long;] *)
Definition OpLabel := Z.

Definition kIdOpLabel : OpLabel := 0.

(** [class OpRepr]: a list of coefficients and a list of operator labels,
    read side by side. *)
Record OpRepr := MkOpRepr {
  coef_repr_list_ : list CoefRepr;
  op_label_list_ : list OpLabel
}.

(** [OpRepr(void)] *)
Definition kNullOpRepr : OpRepr := MkOpRepr [] [].

(** [OpRepr(const OpLabel op_label)] *)
Definition OpRepr_of_label (op_label : OpLabel) : OpRepr :=
  MkOpRepr [kIdCoefRepr] [op_label].

(** [OpRepr(const CoefRepr &coef_repr, const OpLabel op_label)] *)
Definition OpRepr_of_term (coef_repr : CoefRepr) (op_label : OpLabel) : OpRepr :=
  MkOpRepr [coef_repr] [op_label].

Definition kIdOpRepr : OpRepr := OpRepr_of_label kIdOpLabel.

(** [std::find(v.cbegin(), v.cend(), x)] as the offset of the iterator it
    returns; [None] stands for [v.cend()]. *)
Fixpoint std_find (x : OpLabel) (v : list OpLabel) : option nat :=
  match v with
  | [] => None
  | y :: v' => if Z.eqb y x then Some 0%nat else S <$> std_find x v'
  end.

(** The body of the loop of the list constructor, which is also the body
    of the loop of [operator+]: a label that is new is appended with its
    coefficient, the coefficient of a label that is present is added to the
    one stored at the position of the label.  Reading the coefficient list
    past its end is undefined: [None]. *)
Definition OpRepr_absorb (acc : OpRepr) (c : CoefRepr) (l : OpLabel)
  : option OpRepr :=
  match std_find l (op_label_list_ acc) with
  | None =>
      Some (MkOpRepr (coef_repr_list_ acc ++ [c]) (op_label_list_ acc ++ [l]))
  | Some idx =>
      cur ← coef_repr_list_ acc !! idx;
      Some (MkOpRepr (<[idx := CoefRepr_add cur c]> (coef_repr_list_ acc))
                     (op_label_list_ acc))
  end.

(** [for (size_t i = 0; i < op_labels.size(); ++i)] of the list
    constructor, on what is left of the two arguments from [i] on;
    [coef_reprs[i]] past the end is undefined. *)
Fixpoint OpRepr_ctor_loop (coef_reprs : list CoefRepr) (op_labels : list OpLabel)
    (acc : OpRepr) {struct op_labels} : option OpRepr :=
  match op_labels with
  | [] => Some acc
  | l :: op_labels' =>
      match coef_reprs with
      | [] => None
      | c :: coef_reprs' =>
          acc' ← OpRepr_absorb acc c l;
          OpRepr_ctor_loop coef_reprs' op_labels' acc'
      end
  end.

(** [OpRepr(const std::vector<CoefRepr> &coef_reprs,
            const std::vector<OpLabel> &op_labels)], with its closing
    [assert]. *)
Definition OpRepr_of_lists (coef_reprs : list CoefRepr) (op_labels : list OpLabel)
  : option OpRepr :=
  o ← OpRepr_ctor_loop coef_reprs op_labels (MkOpRepr [] []);
  if Nat.eqb (length (coef_repr_list_ o)) (length (op_label_list_ o))
  then Some o else None.

(** [OpRepr(const std::vector<OpLabel> &op_labels)] *)
Definition OpRepr_of_labels (op_labels : list OpLabel) : option OpRepr :=
  OpRepr_of_lists (replicate (length op_labels) kIdCoefRepr) op_labels.

(** The loop of [OpRepr::operator==] on what is left of the two lists of
    the left operand from [i] on, with the working copies of the lists of
    the right operand; the last line is the test after the loop. *)
Fixpoint OpRepr_eq_loop (lhs_labels : list OpLabel) (lhs_coefs : list CoefRepr)
    (rhs_coefs : list CoefRepr) (rhs_labels : list OpLabel) : option bool :=
  match lhs_labels with
  | [] => Some (match rhs_labels with [] => true | _ :: _ => false end)
  | l :: lhs_labels' =>
      match ElemInVec Z.eqb l rhs_labels with
      | (false, _) => Some false
      | (true, pos_in_rhs) =>
          match lhs_coefs with
          | [] => None
          | c :: lhs_coefs' =>
              c' ← rhs_coefs !! Z.to_nat pos_in_rhs;
              if CoefRepr_ne c c' then Some false
              else OpRepr_eq_loop lhs_labels' lhs_coefs'
                     (delete (Z.to_nat pos_in_rhs) rhs_coefs)
                     (delete (Z.to_nat pos_in_rhs) rhs_labels)
          end
      end
  end.

(** [bool OpRepr::operator==(const OpRepr &rhs) const] *)
Definition OpRepr_eq (lhs rhs : OpRepr) : option bool :=
  if negb (Nat.eqb (length (op_label_list_ lhs)) (length (op_label_list_ rhs)))
  then Some false
  else OpRepr_eq_loop (op_label_list_ lhs) (coef_repr_list_ lhs)
                      (coef_repr_list_ rhs) (op_label_list_ rhs).

(** [bool OpRepr::operator!=(const OpRepr &rhs) const] *)
Definition OpRepr_ne (lhs rhs : OpRepr) : option bool := negb <$> OpRepr_eq lhs rhs.

(** [for (size_t i = 0; i < rhs_size; ++i)] of [operator+], on what is left
    of the two lists of [rhs] from [i] on; the bound is the size of the
    coefficient list. *)
Fixpoint OpRepr_add_loop (rhs_coefs : list CoefRepr) (rhs_labels : list OpLabel)
    (acc : OpRepr) : option OpRepr :=
  match rhs_coefs with
  | [] => Some acc
  | c :: rhs_coefs' =>
      match rhs_labels with
      | [] => None
      | l :: rhs_labels' =>
          acc' ← OpRepr_absorb acc c l;
          OpRepr_add_loop rhs_coefs' rhs_labels' acc'
      end
  end.

(** [OpRepr OpRepr::operator+(const OpRepr &rhs) const] *)
Definition OpRepr_add (lhs rhs : OpRepr) : option OpRepr :=
  acc ← OpRepr_add_loop (coef_repr_list_ rhs) (op_label_list_ rhs)
         (MkOpRepr (coef_repr_list_ lhs) (op_label_list_ lhs));
  OpRepr_of_lists (coef_repr_list_ acc) (op_label_list_ acc).

(** The loop [for (i = 1; i < term_num; ++i) if (coef1 != coef) return ..]
    of [SeparateCoefAndBase]: whether it leaves by its [return]. *)
Fixpoint coef_differs (coef : CoefRepr) (rest : list CoefRepr) : bool :=
  match rest with
  | [] => false
  | coef1 :: rest' => if CoefRepr_ne coef1 coef then true else coef_differs coef rest'
  end.

(** [std::pair<CoefRepr, OpRepr> SeparateCoefAndBase(const OpRepr &op_repr)] *)
Definition SeparateCoefAndBase (op_repr : OpRepr) : option (CoefRepr * OpRepr) :=
  let term_num := length (coef_repr_list_ op_repr) in
  if Nat.eqb term_num 0 then Some (kNullCoefRepr, kNullOpRepr)
  else if Nat.eqb term_num 1 then
    c ← coef_repr_list_ op_repr !! 0%nat;
    l ← op_label_list_ op_repr !! 0%nat;
    Some (c, OpRepr_of_label l)
  else
    coef ← coef_repr_list_ op_repr !! 0%nat;
    if coef_differs coef (drop 1 (coef_repr_list_ op_repr))
    then Some (kIdCoefRepr, op_repr)
    else base ← OpRepr_of_labels (op_label_list_ op_repr); Some (coef, base).

(** [CoefRepr GetOpReprCoef(const OpRepr &op_repr)] *)
Definition GetOpReprCoef (op_repr : OpRepr) : option CoefRepr :=
  fst <$> SeparateCoefAndBase op_repr.

(** How a call ends: with a value, by [exit(code)], or in undefined
    behaviour. *)
Inductive Outcome (A : Type) :=
| Value (a : A)
| Exit (code : Z)
| Undefined.
Arguments Value {A} a.
Arguments Exit {A} code.
Arguments Undefined {A}.

(** The loop [for (auto &c : op.coef_repr_list_) if (c != kIdCoefRepr)
    exit(1)] of [CoefReprOpReprIncompleteMulti]: whether it exits. *)
Fixpoint has_non_id (coefs : list CoefRepr) : bool :=
  match coefs with
  | [] => false
  | c :: coefs' => if CoefRepr_ne c kIdCoefRepr then true else has_non_id coefs'
  end.

(** [OpRepr CoefReprOpReprIncompleteMulti(const CoefRepr &coef,
                                          const OpRepr &op)] *)
Definition CoefReprOpReprIncompleteMulti (coef : CoefRepr) (op : OpRepr)
  : Outcome OpRepr :=
  match OpRepr_eq op kNullOpRepr with
  | None => Undefined
  | Some true => Value kNullOpRepr
  | Some false =>
      if CoefRepr_eq coef kIdCoefRepr then Value op
      else if has_non_id (coef_repr_list_ op) then Exit 1
      else
        let new_coefs := replicate (length (coef_repr_list_ op)) coef in
        match OpRepr_of_lists new_coefs (op_label_list_ op) with
        | Some o => Value o
        | None => Undefined
        end
  end.

(** The class invariant of [OpRepr]: one coefficient per label, and no
    label twice. *)
Definition OpRepr_wf (o : OpRepr) : Prop :=
  length (coef_repr_list_ o) = length (op_label_list_ o) /\
  NoDup (op_label_list_ o).

(** An operator representation read as a finite map from its labels to
    their coefficients. *)
Definition OpRepr_terms (o : OpRepr) : gmap OpLabel CoefRepr :=
  list_to_map (zip (op_label_list_ o) (coef_repr_list_ o)).

(** Two coefficients, if any, are equal by [CoefRepr::operator==]. *)
Definition coef_agree (x y : option CoefRepr) : Prop :=
  match x, y with
  | Some c, Some c' => CoefRepr_eq c c' = true
  | None, None => True
  | _, _ => False
  end.

(** Label by label, the two representations carry equal coefficients. *)
Definition OpRepr_equiv (a b : OpRepr) : Prop :=
  forall l, coef_agree (OpRepr_terms a !! l) (OpRepr_terms b !! l).

(** What the list constructor is to store for the label [l], in words: the
    labels of the coefficients given for [l], in the order given. *)
Definition gather (l : OpLabel) (op_labels : list OpLabel)
    (coef_reprs : list CoefRepr) : list CoefLabel :=
  concat ((fun p : OpLabel * CoefRepr => coef_label_list_ p.2)
            <$> filter (fun p : OpLabel * CoefRepr => p.1 = l)
                       (zip op_labels coef_reprs)).

End CoefOpAlg.

(* ===================================================================== *)
(** * The external collaborators                                           *)
(* ===================================================================== *)

(** The tensor primitive library (gqten), the tridiagonal solver and the
    block-operator growers are consumed behind fixed interfaces; none of
    them is defined in the files embedded here.  [Ten] is
    [GQTensor<TenElemT, QNT>], [DTen] is [GQTensor<GQTEN_Double, QNT>]. *)
Inductive Jobz := JobN | JobV.      (* 'N': eigenvalue only, 'V': with vector *)

(** Modelled from the spec: [SparMat] (sparse_mat.h) is not part of the
    embedded sources.  It is the sparse 2D grid of the design document;
    coef_op_alg.h shows its members [rows], [cols], [data] and [indexes]
    and that entry [(x, y)] is null exactly when
    [indexes[CalcOffset(x, y)] == -1]; otherwise [indexes] holds the
    position of the entry in [data].  The grid is stored row by row. *)
Record SparMat (E : Type) := MkSparMat {
  rows : nat;
  cols : nat;
  data : list E;
  indexes : list Z
}.
Arguments MkSparMat {E} _ _ _ _.
Arguments rows {E} _.
Arguments cols {E} _.
Arguments data {E} _.
Arguments indexes {E} _.

Definition CalcOffset {E} (W : SparMat E) (x y : nat) : nat := (x * cols W + y)%nat.

(** Null entries, as a total predicate for stating properties. *)
Definition is_null {E} (W : SparMat E) (x y : nat) : bool :=
  bool_decide (indexes W !! CalcOffset W x y = Some (-1)).

Class TensorLib := {
  Ten : Type;
  DTen : Type;
  QN : Type;
  Blob : Type;                                  (* serialised tensor *)
  default_ten : Ten;                            (* [TenT()] *)
  ten_size : Ten -> nat;                        (* [t.size()] *)
  Rank : Ten -> nat;                            (* [t.Rank()] *)
  zero_like : Ten -> Ten;                       (* [TenT(t.GetIndexes())] *)
  Div : Ten -> QN;
  qn_sub : QN -> QN -> QN;
  Dag : Ten -> Ten;
  Normalize : Ten -> Ten * float;               (* normalised tensor, old norm *)
  RealScalar : Ten -> float;                    (* [Real(t())] *)
  Contract : Ten -> Ten -> list (list nat) -> Ten;
  ContractDT : DTen -> Ten -> list (list nat) -> Ten;
  ContractTD : Ten -> DTen -> list (list nat) -> Ten;
  Contract1 : Ten -> Ten -> nat -> nat -> nat -> Ten;
  (* [SVD(t, ldims, div, &u, &s, &vt)] *)
  SVD : Ten -> nat -> QN -> Ten * DTen * Ten;
  (* [SVD(t, ldims, div, trunc_err, Dmin, Dmax, &u, &s, &vt, &err, &D)] *)
  SVDTrunc : Ten -> nat -> QN -> float -> nat -> nat ->
             Ten * DTen * Ten * float * nat;
  (* [LinearCombine(coefs, vecs, beta, out)] : out = beta*out + sum c_i v_i *)
  LinearCombine : list float -> list Ten -> float -> Ten -> Ten;
  (* [LinearCombine(n, coefs, vecs, beta, out)] on raw arrays *)
  LinearCombineN : nat -> list float -> list Ten -> float -> Ten -> Ten;
  (* [TridiagGsSolver(a, b, n, eigval, eigvec, jobz)] *)
  TridiagGsSolver : list float -> list float -> nat -> Jobz -> float * list float;
  MeasureEE : DTen -> nat -> float;
  UpdateLeftBlockOps : list Ten -> Ten -> SparMat Ten -> list Ten;
  UpdateRightBlockOps : list Ten -> Ten -> SparMat Ten -> list Ten;
  ten_write : Ten -> Blob;                      (* [ofs << t] *)
  ten_read : Blob -> Ten                        (* [ifs >> t] *)
}.

(** The string constants of [gqmps2/consts.h]. *)
Class Consts := {
  kMpsPath : string;
  kMpsTenBaseName : string;
  kGQTenFileSuffix : string
}.

(** The file system seen by the program: the directories that exist and
    the content of each file. *)
Record Disk `{TensorLib} := MkDisk {
  dirs : list string;
  files : gmap string Blob
}.
Arguments MkDisk {_} _ _.

(* ===================================================================== *)
(** * mps.h : the matrix product state class                               *)
(* ===================================================================== *)

Module Mps.

Definition kUncentralizedCenterIdx : Z := -1.

(** [size_t] arithmetic is modulo [2^64]. *)
Definition wrap64 (z : Z) : Z := z mod 2 ^ 64.

(** [enum MPSTenCanoType] *)
Inductive MPSTenCanoType := NONE | LEFT | RIGHT.

#[global] Instance MPSTenCanoType_eq_dec : EqDecision MPSTenCanoType.
Proof. solve_decision. Defined.

Section Monad.
Context `{TL : TensorLib}.

(** [class MPS : public TenVec<LocalTenT>].  [raw_data_] is the storage of
    the [DuoVector] base: one owning pointer per site, [None] for
    [nullptr].  The member [site_vec_] is written by the constructor only
    and read by [GetSitesInfo] only; it is left out. *)
Record MPS := MkMPS {
  raw_data_ : list (option Ten);
  center_ : Z;
  tens_cano_type_ : list MPSTenCanoType
}.

(** What the two lines [tens_cano_type_[idx] = NONE; center_ = -1] leave. *)
Definition touch (idx : nat) (m : MPS) : MPS :=
  MkMPS (raw_data_ m) kUncentralizedCenterIdx (<[idx:=NONE]> (tens_cano_type_ m)).

(** Field updates. *)
Definition with_raw (i : nat) (p : option Ten) (m : MPS) : MPS :=
  MkMPS (<[i:=p]> (raw_data_ m)) (center_ m) (tens_cano_type_ m).
Definition with_cano (i : nat) (c : MPSTenCanoType) (m : MPS) : MPS :=
  MkMPS (raw_data_ m) (center_ m) (<[i:=c]> (tens_cano_type_ m)).
Definition with_center (c : Z) (m : MPS) : MPS :=
  MkMPS (raw_data_ m) c (tens_cano_type_ m).

(** Every site holds a tensor. *)
Definition resident (m : MPS) : Prop :=
  forall i, (i < length (raw_data_ m))%nat -> exists t, raw_data_ m !! i = Some (Some t).

(** [MPS(const SiteVec &site_vec)], from [site_vec.size]. *)
Definition MPS_new (n : nat) : MPS :=
  MkMPS (replicate n None) kUncentralizedCenterIdx (replicate n NONE).

Definition size (m : MPS) : nat := length (raw_data_ m).

(** The class invariant set up by the constructor and kept by every member:
    one canonical type per site. *)
Definition wf (m : MPS) : Prop :=
  length (tens_cano_type_ m) = length (raw_data_ m) /\
  Z.of_nat (length (raw_data_ m)) < 2 ^ 64.

(** What the canonical types stand for.  [PL] is the property of a
    left-canonical tensor and [PR] that of a right-canonical one; all that
    is known of them is that the library's [SVD] returns a [u] with [PL] and
    a [vt] with [PR]. *)
Definition SVD_gives (PL PR : Ten -> Prop) : Prop :=
  forall t ldims qn, PL (SVD t ldims qn).1.1 /\ PR (SVD t ldims qn).2.

(** The canonical types tell the truth: a tensor marked [LEFT] has [PL],
    one marked [RIGHT] has [PR]. *)
Definition cano_sound (PL PR : Ten -> Prop) (m : MPS) : Prop :=
  forall i t, raw_data_ m !! i = Some (Some t) ->
    (tens_cano_type_ m !! i = Some LEFT -> PL t) /\
    (tens_cano_type_ m !! i = Some RIGHT -> PR t).

(** Member functions run on the object and the disk; a fault is [None]. *)
Definition World : Type := MPS * Disk.
Definition M (A : Type) : Type := World -> option (A * World).

Definition ret {A} (a : A) : M A := fun w => Some (a, w).
Definition bind {A B} (c : M A) (k : A -> M B) : M B :=
  fun w => match c w with Some (a, w') => k a w' | None => None end.
Definition fault {A} : M A := fun _ => None.
Definition get_mps : M MPS := fun w => Some (fst w, w).
Definition put_mps (m : MPS) : M unit := fun w => Some (tt, (m, snd w)).
Definition get_disk : M Disk := fun w => Some (snd w, w).
Definition put_disk (d : Disk) : M unit := fun w => Some (tt, (fst w, d)).
(** [assert(b)]: aborts when it fails. *)
Definition assert_ (b : bool) : M unit := if b then ret tt else fault.
End Monad.

Declare Scope mps_scope.
Delimit Scope mps_scope with mps.
Notation "x <- c ;; k" := (bind c (fun x => k))
  (at level 100, c at next level, right associativity) : mps_scope.
Notation "c ;;; k" := (bind c (fun _ => k))
  (at level 100, right associativity) : mps_scope.

Section Members.
Context `{TL : TensorLib} `{CS : Consts}.
Local Open Scope mps_scope.

(** A reference or pointer into the storage names its slot. *)
Definition Ref := nat.

Definition set_raw (i : nat) (p : option Ten) : M unit :=
  m <- get_mps;;
  if decide (i < length (raw_data_ m))%nat
  then put_mps (MkMPS (<[i:=p]> (raw_data_ m)) (center_ m) (tens_cano_type_ m))
  else fault.

(** [tens_cano_type_[i] = c] *)
Definition set_cano (i : nat) (c : MPSTenCanoType) : M unit :=
  m <- get_mps;;
  if decide (i < length (tens_cano_type_ m))%nat
  then put_mps (MkMPS (raw_data_ m) (center_ m) (<[i:=c]> (tens_cano_type_ m)))
  else fault.

(** [tens_cano_type_[i]] *)
Definition get_cano (i : nat) : M MPSTenCanoType :=
  m <- get_mps;;
  match tens_cano_type_ m !! i with Some c => ret c | None => fault end.

(** [center_ = c] *)
Definition set_center (c : Z) : M unit :=
  m <- get_mps;; put_mps (MkMPS (raw_data_ m) c (tens_cano_type_ m)).

(** Modelled from the spec: the base class [DuoVector] (duovector.h) is not
    part of the embedded sources.  Its element access hands out the slot;
    the unit test [TestTenVec] assigns through [tenvec[i]] on a freshly
    sized vector, so the non-const [operator[]] first allocates an empty
    tensor when the slot holds no tensor.  [operator()] hands out the
    pointer itself. *)
Definition DuoVector_bracket (idx : nat) : M Ref :=
  m <- get_mps;;
  match raw_data_ m !! idx with
  | None => fault
  | Some (Some _) => ret idx
  | Some None => set_raw idx (Some default_ten);;; ret idx
  end.

Definition DuoVector_bracket_const (idx : nat) : M Ref :=
  m <- get_mps;;
  match raw_data_ m !! idx with None => fault | Some _ => ret idx end.

Definition DuoVector_paren (idx : nat) : M Ref :=
  m <- get_mps;;
  match raw_data_ m !! idx with None => fault | Some _ => ret idx end.

(** Reading the tensor behind a reference or pointer; a null pointer
    faults. *)
Definition deref (r : Ref) : M Ten :=
  m <- get_mps;;
  match raw_data_ m !! r with Some (Some t) => ret t | _ => fault end.

(** Assigning to the tensor behind a reference: [ref = std::move(t)]. *)
Definition ref_assign (r : Ref) (t : Ten) : M unit :=
  deref r;;; set_raw r (Some t).

(** Assigning the pointer itself: [ptr = p]. *)
Definition ptr_assign (r : Ref) (p : option Ten) : M unit := set_raw r p.

(** [LocalTenT &operator[](const size_t idx)] *)
Definition op_bracket (idx : nat) : M Ref :=
  set_cano idx NONE;;;
  set_center kUncentralizedCenterIdx;;;
  DuoVector_bracket idx.

(** [const LocalTenT &operator[](const size_t idx) const] *)
Definition op_bracket_const (idx : nat) : M Ref :=
  DuoVector_bracket_const idx.

(** [LocalTenT * &operator()(const size_t idx)] *)
Definition op_paren (idx : nat) : M Ref :=
  set_cano idx NONE;;;
  set_center kUncentralizedCenterIdx;;;
  DuoVector_paren idx.

(** [const LocalTenT *operator()(const size_t idx) const] *)
Definition op_paren_const (idx : nat) : M Ref :=
  DuoVector_paren idx.

(** The metadata after a non-const access to [idx]: position [idx] is
    [NONE], the center is the uncentralized sentinel, every other position
    keeps its canonical type. *)
Definition nonconst_access_post (idx : nat) (m m' : MPS) : Prop :=
  center_ m' = kUncentralizedCenterIdx /\
  tens_cano_type_ m' !! idx = Some NONE /\
  (forall j, j <> idx -> tens_cano_type_ m' !! j = tens_cano_type_ m !! j).

(** [int GetCenter(void) const] *)
Definition GetCenter : M Z := m <- get_mps;; ret (center_ m).

(** [MPSTenCanoType GetTenCanoType(const size_t idx) const] *)
Definition GetTenCanoType (idx : nat) : M MPSTenCanoType := get_cano idx.

(** [void LeftCanonicalizeTen_(const size_t site_idx)] *)
Definition LeftCanonicalizeTen_ (site_idx : nat) : M unit :=
  m <- get_mps;;
  assert_ (Z.of_nat site_idx <? wrap64 (Z.of_nat (size m) - 1));;;
  let ldims := if Nat.eqb site_idx 0 then 1%nat else 2%nat in
  p <- op_paren site_idx;;
  r <- op_bracket site_idx;;
  t_div <- deref r;;
  t <- deref p;;
  let '(pu, s, vt) := SVD t ldims (Div t_div) in
  op_paren site_idx;;;                               (* delete the old tensor at site_idx *)
  p <- op_paren site_idx;;
  ptr_assign p (Some pu);;;
  let temp_ten := ContractDT s vt [[1%nat]; [0%nat]] in
  pn <- op_paren (site_idx + 1);;
  next <- deref pn;;
  let pnext_ten := Contract temp_ten next [[1%nat]; [0%nat]] in
  op_paren (site_idx + 1);;;                         (* delete the old tensor at site_idx + 1 *)
  pn <- op_paren (site_idx + 1);;
  ptr_assign pn (Some pnext_ten);;;
  set_cano site_idx LEFT;;;
  set_cano (site_idx + 1) NONE.

(** [void RightCanonicalizeTen_(const size_t site_idx)] *)
Definition RightCanonicalizeTen_ (site_idx : nat) : M unit :=
  assert_ (0 <? site_idx)%nat;;;
  let ldims := 1%nat in
  r <- op_bracket site_idx;;
  t_div <- deref r;;
  let qndiv := Div t_div in
  p <- op_paren site_idx;;
  t <- deref p;;
  let '(u, s, pvt) := SVD t ldims (qn_sub qndiv qndiv) in
  op_paren site_idx;;;                               (* delete the old tensor at site_idx *)
  p <- op_paren site_idx;;
  ptr_assign p (Some pvt);;;
  let temp_ten := ContractTD u s [[1%nat]; [0%nat]] in
  let ta_ctrct_axes := if Nat.eqb (site_idx - 1) 0 then [1%nat] else [2%nat] in
  let ctrct_axes := [ta_ctrct_axes; [0%nat]] in
  pp <- op_paren (site_idx - 1);;
  prev <- deref pp;;
  let pprev_ten := Contract prev temp_ten ctrct_axes in
  op_paren (site_idx - 1);;;                         (* delete the old tensor at site_idx - 1 *)
  pp <- op_paren (site_idx - 1);;
  ptr_assign pp (Some pprev_ten);;;
  set_cano site_idx RIGHT;;;
  set_cano (site_idx - 1) NONE.

(** The outcome of the first loop of a canonicalisation pass: it leaves by
    [return] (nothing to do) or by [break] with [start_idx] set. *)
Inductive Scan := AllCanonical | StartAt (start_idx : nat).

(** First loop of [LeftCanonicalize_], at index [i] with [n = stop_idx - i]
    indices still ahead. *)
Fixpoint left_scan (i n : nat) : M Scan :=
  c <- get_cano i;;
  if decide (c <> LEFT) then ret (StartAt i)
  else match n with
       | O => ret AllCanonical                    (* i == stop_idx *)
       | S n' => left_scan (S i) n'
       end.

(** [for (i = start; count iterations; ++i) body(i)] *)
Fixpoint for_up (i count : nat) (body : nat -> M unit) : M unit :=
  match count with
  | O => ret tt
  | S c => body i;;; for_up (S i) c body
  end.

(** [for (i = start; count iterations; --i) body(i)] *)
Fixpoint for_down (i count : nat) (body : nat -> M unit) : M unit :=
  match count with
  | O => ret tt
  | S c => body i;;; for_down (i - 1) c body
  end.

(** [void LeftCanonicalize_(const size_t stop_idx)] *)
Definition LeftCanonicalize_ (stop_idx : nat) : M unit :=
  sc <- left_scan 0 stop_idx;;
  match sc with
  | AllCanonical => ret tt
  | StartAt start_idx =>
      for_up start_idx (stop_idx + 1 - start_idx) LeftCanonicalizeTen_
  end.

(** First loop of [RightCanonicalize_], at index [i] with [n = i - stop_idx]
    indices still ahead. *)
Fixpoint right_scan (i n : nat) : M Scan :=
  c <- get_cano i;;
  if decide (c <> RIGHT) then ret (StartAt i)
  else match n with
       | O => ret AllCanonical                    (* i == stop_idx *)
       | S n' => right_scan (i - 1) n'
       end.

(** [void RightCanonicalize_(const size_t stop_idx)].  When the first loop
    is not entered, [start_idx] is read uninitialised: a fault. *)
Definition RightCanonicalize_ (stop_idx : nat) : M unit :=
  m <- get_mps;;
  let mps_tail_idx := Z.to_nat (wrap64 (Z.of_nat (size m) - 1)) in
  if decide (mps_tail_idx < stop_idx)%nat then fault
  else
    sc <- right_scan mps_tail_idx (mps_tail_idx - stop_idx);;
    match sc with
    | AllCanonical => ret tt
    | StartAt start_idx =>
        for_down start_idx (start_idx + 1 - stop_idx) RightCanonicalizeTen_
    end.

(** [int] arithmetic: a result outside of 32 bits is undefined, a fault. *)
Definition int_range (z : Z) : bool := (- 2 ^ 31 <=? z) && (z <? 2 ^ 31).
Definition int_val (z : Z) : M Z := assert_ (int_range z);;; ret z.

(** [void Centralize(const int target_center)].  The [int] is converted to
    [size_t] where it is compared with [mps_tail_idx] and where it is
    passed on. *)
Definition Centralize (target_center : Z) : M unit :=
  assert_ (0 <=? target_center);;;
  m <- get_mps;;
  let mps_tail_idx := wrap64 (Z.of_nat (size m) - 1) in
  (if decide (target_center <> 0)
   then stop_idx <- int_val (target_center - 1);;
        LeftCanonicalize_ (Z.to_nat (wrap64 stop_idx))
   else ret tt);;;
  (if decide (wrap64 target_center <> mps_tail_idx)
   then stop_idx <- int_val (target_center + 1);;
        RightCanonicalize_ (Z.to_nat (wrap64 stop_idx))
   else ret tt);;;
  set_center target_center.

(** [std::string GenMPSTenName(const std::string &mps_path, const size_t idx)];
    [std::to_string] of a [size_t] is its decimal numeral. *)
Definition GenMPSTenName (mps_path : string) (idx : nat) : string :=
  ((((mps_path +:+ "/") +:+ kMpsTenBaseName) +:+ pretty idx) +:+ ".")
    +:+ kGQTenFileSuffix.

(** Modelled from the spec: [IsPathExist] and [CreatPath] (utilities.h) are
    not part of the embedded sources; the directory is created on demand. *)
Definition IsPathExist (path : string) : M bool :=
  d <- get_disk;; ret (bool_decide (path ∈ dirs d)).
Definition CreatPath (path : string) : M unit :=
  d <- get_disk;; put_disk (MkDisk (path :: dirs d) (files d)).

(** Modelled from the spec: [TenVec::DumpTen] and [TenVec::LoadTen]
    (ten_vec.h) are not part of the embedded sources.  The container pages
    one site tensor per file: [DumpTen(i, file, release)] writes site [i] to
    [file] and, when asked to, releases the tensor; [LoadTen(i, file)]
    allocates site [i] and reads it from [file]; a missing file is fatal.
    The unit test [TestTenVec.TestIO] dumps three tensors and loads them
    back. *)
Definition dealloc (idx : nat) : M unit := set_raw idx None.
Definition alloc (idx : nat) : M unit := set_raw idx (Some default_ten).

Definition DumpTen (idx : nat) (file : string) (release_mem : bool) : M unit :=
  r <- DuoVector_bracket_const idx;;
  t <- deref r;;
  d <- get_disk;;
  put_disk (MkDisk (dirs d) (<[file := ten_write t]> (files d)));;;
  if release_mem then dealloc idx else ret tt.

Definition LoadTen (idx : nat) (file : string) : M unit :=
  alloc idx;;;
  d <- get_disk;;
  match files d !! file with
  | None => fault
  | Some blob => ref_assign idx (ten_read blob)
  end.

(** [void Dump(const std::string &mps_path = kMpsPath) const] *)
Definition Dump_const (mps_path : string) : M unit :=
  e <- IsPathExist mps_path;;
  (if negb e then CreatPath mps_path else ret tt);;;
  m <- get_mps;;
  for_up 0 (size m) (fun i =>
    let file := GenMPSTenName mps_path i in
    DumpTen i file false).

(** [void Dump(const std::string &mps_path = kMpsPath,
               const bool release_mem = false)] *)
Definition Dump (mps_path : string) (release_mem : bool) : M unit :=
  e <- IsPathExist mps_path;;
  (if negb e then CreatPath mps_path else ret tt);;;
  m <- get_mps;;
  for_up 0 (size m) (fun i =>
    let file := GenMPSTenName mps_path i in
    DumpTen i file release_mem).

(** [void Load(const std::string &mps_path = kMpsPath)] *)
Definition Load (mps_path : string) : M unit :=
  m <- get_mps;;
  for_up 0 (size m) (fun i =>
    let file := GenMPSTenName mps_path i in
    LoadTen i file).

End Members.

(** [s.Normalize()] on the singular values, a [GQTensor<GQTEN_Double, QNT>]:
    the normalised tensor and the norm it had. *)
Class DTenOps `{TensorLib} := {
  NormalizeD : DTen -> DTen * float
}.

(** The line that [TruncateMPS] prints for a bond. *)
Record TruncLine := MkTruncLine {
  tl_bond : nat;
  tl_TruncErr : float;
  tl_D : nat
}.

Section Truncate.
Context `{TL : TensorLib} `{DO : !DTenOps} `{CS : Consts}.
Local Open Scope mps_scope.

(** The body of the loop of [TruncateMPS] at the bond [i]; the value is the
    line printed. *)
Definition truncate_bond (trunc_err : float) (Dmin Dmax : nat) (i : nat)
  : M TruncLine :=
  let ldims := if Nat.eqb i 0 then 1%nat else 2%nat in
  p <- op_paren i;;
  r <- op_bracket i;;
  t_div <- deref r;;
  t <- deref p;;
  let '(pu, s, vt, actual_trunc_err, D) :=
    SVDTrunc t ldims (Div t_div) trunc_err Dmin Dmax in
  let s := (NormalizeD s).1 in
  op_paren i;;;                                      (* delete mps(i) *)
  p <- op_paren i;;
  ptr_assign p (Some pu);;;
  let temp_ten := ContractDT s vt [[1%nat]; [0%nat]] in
  pn <- op_paren (i + 1);;
  next <- deref pn;;
  let pnext_ten := Contract temp_ten next [[1%nat]; [0%nat]] in
  op_paren (i + 1);;;                                (* delete mps(i + 1) *)
  pn <- op_paren (i + 1);;
  ptr_assign pn (Some pnext_ten);;;
  ret (MkTruncLine i actual_trunc_err D).

(** [for (size_t i = 0; i < mps_size - 1; ++i)], at [i] with [count] passes
    to go; the value is what was printed. *)
Fixpoint truncate_loop (trunc_err : float) (Dmin Dmax : nat) (i count : nat)
  : M (list TruncLine) :=
  match count with
  | O => ret []
  | S c =>
      ln <- truncate_bond trunc_err Dmin Dmax i;;
      lns <- truncate_loop trunc_err Dmin Dmax (S i) c;;
      ret (ln :: lns)
  end.

(** [void TruncateMPS(MPS &mps, const GQTEN_Double trunc_err,
                      const size_t Dmin, const size_t Dmax)] *)
Definition TruncateMPS (trunc_err : float) (Dmin Dmax : nat) : M (list TruncLine) :=
  m <- get_mps;;
  let mps_size := size m in
  assert_ (2 <=? mps_size)%nat;;;
  Centralize 0;;;
  r <- op_bracket 0;;
  t <- deref r;;
  ref_assign r (Normalize t).1;;;                    (* mps[0].Normalize() *)
  truncate_loop trunc_err Dmin Dmax 0 (mps_size - 1).

End Truncate.
End Mps.

(* ===================================================================== *)
(** * lanczos_dmrg_solver_impl.h : the Lanczos solver                      *)
(* ===================================================================== *)

Module Lanczos.

(** Reading or writing a [std::vector] past its end, or dereferencing a
    null basis pointer, is undefined behaviour: the run stops with a fault
    that records where. *)
Inductive Fault :=
| OutOfRange (index size : nat)
| NullPointer (index : nat).

Inductive Run (A : Type) :=
| Returned (a : A)
| Faulted (f : Fault).
Arguments Returned {A} a.
Arguments Faulted {A} f.

Definition rbind {A B} (c : Run A) (k : A -> Run B) : Run B :=
  match c with Returned a => k a | Faulted f => Faulted f end.

Declare Scope run_scope.
Delimit Scope run_scope with run.
Notation "x <- c ;; k" := (rbind c (fun x => k))
  (at level 100, c at next level, right associativity) : run_scope.

(** [v[i]] as an rvalue and [v[i] = x]. *)
Definition vec_get {A} (v : list A) (i : nat) : Run A :=
  match v !! i with Some x => Returned x | None => Faulted (OutOfRange i (length v)) end.

Definition vec_set {A} (v : list A) (i : nat) (x : A) : Run (list A) :=
  if decide (i < length v)%nat then Returned (<[i:=x]> v)
  else Faulted (OutOfRange i (length v)).

Section WithLib.
Context `{TL : TensorLib}.
Local Open Scope run_scope.

(** [struct LanczosParams] (lanczos_solver.h) *)
Record LanczosParams := MkLanczosParams {
  error : float;
  max_iterations : nat
}.

(** [struct LanczosRes<TenT>] *)
Record LanczosRes := MkLanczosRes {
  iters : nat;
  gs_eng : float;
  gs_vec : Ten
}.

(** [*bases[i]] *)
Definition basis (bases : list (option Ten)) (i : nat) : Run Ten :=
  p <- vec_get bases i;;
  match p with Some t => Returned t | None => Faulted (NullPointer i) end.

(** The first [n] basis vectors, as the counted [LinearCombine] reads
    them. *)
Fixpoint first_bases_from (i n : nat) (bases : list (option Ten)) : Run (list Ten) :=
  match n with
  | O => Returned []
  | S n' => t <- basis bases i;;
            ts <- first_bases_from (S i) n' bases;;
            Returned (t :: ts)
  end.
Definition first_bases (n : nat) (bases : list (option Ten)) : Run (list Ten) :=
  first_bases_from 0 n bases.

(** The local variables of [LanczosSolver] that live across iterations. *)
Record Krylov := MkKrylov {
  k_m : nat;                            (* m *)
  k_bases : list (option Ten);          (* bases *)
  k_a : list float;                     (* a *)
  k_b : list float;                     (* b *)
  k_N : list float;                     (* N *)
  k_last : Ten;                         (* *last_mat_mul_vec_res *)
  k_energy0 : float                     (* energy0 *)
}.

(** [energy_measu_ctrct_axes], chosen from the rank of the initial state. *)
Definition energy_measu_ctrct_axes (pinit_state : Ten) : list (list nat) :=
  if Nat.eqb (Rank pinit_state) 3 then [[0; 1; 2]; [0; 1; 2]]%nat
  else if Nat.eqb (Rank pinit_state) 4 then [[0; 1; 2; 3]; [0; 1; 2; 3]]%nat
  else [].

Section Solver.
Context {Ham : Type}.
Variables (eff_ham : Ham) (pinit_state : Ten)
          (eff_ham_mul_state : Ham -> Ten -> Ten)
          (params : LanczosParams).

Definition eff_ham_eff_dim : nat := ten_size pinit_state.

(** The normalised initial state [b_0], [w_0 = H b_0] and
    [alpha_0 = <b_0 | w_0>]. *)
Definition v0 : Ten := (Normalize pinit_state).1.
Definition w0 : Ten := eff_ham_mul_state eff_ham v0.
Definition alpha0 : float :=
  RealScalar (Contract w0 (Dag v0) (energy_measu_ctrct_axes pinit_state)).
(** The first residual [w_0 - alpha_0 b_0]. *)
Definition gamma1 : Ten := LinearCombine [(- alpha0)%float] [v0] 1%float w0.

(** The statements before the [while (true)]. *)
Definition lanczos_init : Run Krylov :=
  let bases := replicate (max_iterations params) None in
  let a := replicate (max_iterations params) 0%float in
  let b := replicate (max_iterations params) 0%float in
  let N := replicate (max_iterations params) 0%float in
  let '(v0, _) := Normalize pinit_state in
  bases <- vec_set bases 0 (Some v0);;
  b0 <- basis bases 0;;
  let last_mat_mul_vec_res := eff_ham_mul_state eff_ham b0 in
  b0 <- basis bases 0;;
  let base_dag := Dag b0 in
  let temp_scalar_ten :=
    Contract last_mat_mul_vec_res base_dag (energy_measu_ctrct_axes pinit_state) in
  a <- vec_set a 0 (RealScalar temp_scalar_ten);;
  N <- vec_set N 0 0%float;;
  a0 <- vec_get a 0;;
  Returned (MkKrylov 0 bases a b N last_mat_mul_vec_res a0).

(** From [m += 1] to [gamma->Normalize()]: the residual, normalised, and
    its norm. *)
Definition lanczos_residual (k : Krylov) : Run (Ten * float) :=
  let m := (k_m k + 1)%nat in
  let gamma := k_last k in
  gamma <-
    (if Nat.eqb m 1 then
       am1 <- vec_get (k_a k) (m - 1);;
       bm1 <- basis (k_bases k) (m - 1);;
       Returned (LinearCombine [(- am1)%float] [bm1] 1%float gamma)
     else
       am1 <- vec_get (k_a k) (m - 1);;
       Nm1 <- vec_get (k_N k) (m - 1);;
       bm1 <- basis (k_bases k) (m - 1);;
       bm2 <- basis (k_bases k) (m - 2);;
       Returned (LinearCombine [(- am1)%float; (- PrimFloat.sqrt Nm1)%float]
                               [bm1; bm2] 1%float gamma));;
  Returned (Normalize gamma).

(** What an iteration does after the residual is known. *)
Inductive Extend :=
| Breakdown (r : LanczosRes)            (* the [norm_gamma == 0.0] branch *)
| Extended (k : Krylov).                (* [a[m]] has been stored *)

(** From [if (norm_gamma == 0.0)] to [a[m] = Real(temp_scalar_ten())]. *)
Definition lanczos_extend (k : Krylov) : Run Extend :=
  let m := (k_m k + 1)%nat in
  gn <- lanczos_residual k;;
  let '(gamma, norm_gamma) := gn in
  if (norm_gamma =? 0)%float then
    if Nat.eqb m 1 then
      b0 <- basis (k_bases k) 0;;
      Returned (Breakdown (MkLanczosRes m (k_energy0 k) b0))
    else
      let '(eigval, eigvec) := TridiagGsSolver (k_a k) (k_b k) m JobV in
      b0 <- basis (k_bases k) 0;;
      vs <- first_bases m (k_bases k);;
      let gs_vec := LinearCombineN m eigvec vs 0%float (zero_like b0) in
      Returned (Breakdown (MkLanczosRes m (k_energy0 k) gs_vec))
  else
    N <- vec_set (k_N k) m (norm_gamma * norm_gamma)%float;;
    b <- vec_set (k_b k) (m - 1) norm_gamma;;
    bases <- vec_set (k_bases k) m (Some gamma);;
    bm <- basis bases m;;
    let last_mat_mul_vec_res := eff_ham_mul_state eff_ham bm in
    bm <- basis bases m;;
    let base_dag := Dag bm in
    let temp_scalar_ten :=
      Contract last_mat_mul_vec_res base_dag (energy_measu_ctrct_axes pinit_state) in
    a <- vec_set (k_a k) m (RealScalar temp_scalar_ten);;
    Returned (Extended (MkKrylov m bases a b N last_mat_mul_vec_res (k_energy0 k))).

(** The condition of the [if] that ends the iteration, with [m] and the
    two energies as the code has them at that point.  The unsigned
    [max_iterations - 1] does not wrap there: [bases[0]] has been stored,
    so [max_iterations] is at least 1. *)
Definition stop_test (energy0 energy0_new : float) (m : nat) : bool :=
  (energy0 - energy0_new <? error params)%float
  || Nat.eqb m eff_ham_eff_dim
  || Nat.eqb m (max_iterations params - 1).

Inductive Step :=
| Continue (k : Krylov)
| Finished (r : LanczosRes).

(** From the value-only [TridiagGsSolver] call to the end of the loop
    body. *)
Definition lanczos_test (k : Krylov) : Run Step :=
  let m := k_m k in
  let '(eigval, _) := TridiagGsSolver (k_a k) (k_b k) (m + 1) JobN in
  let energy0_new := eigval in
  if stop_test (k_energy0 k) energy0_new m then
    let '(_, eigvec) := TridiagGsSolver (k_a k) (k_b k) (m + 1) JobV in
    let energy0 := energy0_new in
    b0 <- basis (k_bases k) 0;;
    vs <- first_bases (m + 1) (k_bases k);;
    let gs_vec := LinearCombineN (m + 1) eigvec vs 0%float (zero_like b0) in
    Returned (Finished (MkLanczosRes (m + 1) energy0 gs_vec))
  else
    Returned (Continue (MkKrylov m (k_bases k) (k_a k) (k_b k) (k_N k)
                                 (k_last k) energy0_new)).

(** One pass through the body of [while (true)]. *)
Definition lanczos_iter (k : Krylov) : Run Step :=
  e <- lanczos_extend k;;
  match e with
  | Breakdown r => Returned (Finished r)
  | Extended k' => lanczos_test k'
  end.

(** The [while (true)] loop.  It is defined by recursion on the room left
    in the pre-allocated arrays. *)
Equations? lanczos_loop (k : Krylov) : Run LanczosRes
  by wf (length (k_N k) - k_m k)%nat lt :=
  lanczos_loop k with inspect (lanczos_iter k) := {
    | exist _ (Returned (Continue k')) Hk := lanczos_loop k';
    | exist _ (Returned (Finished r)) _ := Returned r;
    | exist _ (Faulted f) _ := Faulted f }.
Proof.
  (* a pass that continues has stored at index [m] of the arrays *)
  revert Hk. unfold lanczos_iter, lanczos_extend, lanczos_test, rbind, vec_set.
  destruct (lanczos_residual k) as [[gamma norm_gamma]|]; [|discriminate].
  destruct (norm_gamma =? 0)%float.
  { destruct (Nat.eqb _ 1); repeat (case_match; try discriminate). }
  repeat (case_match; try discriminate).
  intros [= <-]. simplify_eq/=. rewrite length_insert. lia.
Qed.

(** [LanczosRes<TenT> LanczosSolver(eff_ham, pinit_state,
                                     eff_ham_mul_state, params)] *)
Definition LanczosSolver : Run LanczosRes :=
  k <- lanczos_init;;
  lanczos_loop k.

(** The loop invariant: the four arrays have their allocated size, [m] is
    inside them, and the basis vectors [0 .. m] are stored. *)
Definition krylov_ok (k : Krylov) : Prop :=
  length (k_bases k) = max_iterations params /\
  length (k_a k) = max_iterations params /\
  length (k_b k) = max_iterations params /\
  length (k_N k) = max_iterations params /\
  (k_m k < max_iterations params)%nat /\
  forall j, (j <= k_m k)%nat -> exists t, k_bases k !! j = Some (Some t).

(** The state at the top of the loop after [n] passes that all continued. *)
Fixpoint after_iters (n : nat) (k0 : Krylov) : option Krylov :=
  match n with
  | O => Some k0
  | S n' =>
      match after_iters n' k0 with
      | Some k =>
          match lanczos_iter k with
          | Returned (Continue k') => Some k'
          | _ => None
          end
      | None => None
      end
  end.

End Solver.

(** [eff_ham_terms_mul_two_site_state(eff_ham, state)]: a term is the four
    tensors its pointers refer to. *)
Definition eff_ham_terms_mul_two_site_state
    (eff_ham : list (Ten * Ten * Ten * Ten)) (state : Ten) : Ten :=
  let num_terms := length eff_ham in
  let coefs := replicate num_terms 1%float in
  let multiplication_res :=
    map (fun term : Ten * Ten * Ten * Ten =>
           let '(term0, term1, term2, term3) := term in
           let temp1 := Contract1 state term0 0 0 1 in
           let temp2 := Contract1 temp1 term1 0 0 1 in
           let temp3 := Contract1 temp2 term2 0 0 1 in
           Contract1 temp3 term3 0 0 1) eff_ham in
  LinearCombine coefs multiplication_res 0%float default_ten.

End WithLib.
End Lanczos.

(* ===================================================================== *)
(** * lanczos_dmrg_solver_impl.h : the DMRG executor, one bond             *)
(* ===================================================================== *)

Module Dmrg.
Import Mps Lanczos.

Section State.
Context `{TL : TensorLib}.

(** [struct SweepParams]: the recognised options. *)
Record SweepParams := MkSweepParams {
  sweeps : nat;
  Dmin : nat;
  Dmax : nat;
  trunc_err : float;
  lancz_params : LanczosParams;
  mps_path : string;
  temp_path : string
}.

(** A [Tensor *] held in an effective-Hamiltonian term: the address of an
    element of [lopg_vec_[p]], of [mat_repr_mpo_[s]] or of [ropg_vec_[p]]. *)
Inductive TenPtr :=
| LopPtr (p i : nat)          (* &lopg_vec_[p][i] *)
| MpoPtr (s x y : nat)        (* &mat_repr_mpo_[s](x, y) *)
| RopPtr (p k : nat).         (* &ropg_vec_[p][k] *)

(** [EffectiveHamiltonianTerm<Tensor>]: four pointers. *)
Record EffectiveHamiltonianTerm := MkTerm {
  term0 : TenPtr; term1 : TenPtr; term2 : TenPtr; term3 : TenPtr
}.

(** The line that [TwoSiteUpdate_] writes to [std::cout] (the two elapsed
    times are left out). *)
Record Report := MkReport {
  rep_l_site : nat; rep_r_site : nat;
  rep_E0 : float; rep_TruncErr : float; rep_D : nat; rep_Iter : nat;
  rep_S : float
}.

(** [class DMRGExecutor], with the disk and the output stream it acts on. *)
Record DMRGExecutor := MkExec {
  sweep_params : SweepParams;
  N_ : nat;
  mps_ : MPS;
  mat_repr_mpo_ : list (SparMat Ten);
  e0_ : option float;          (* [double e0_]: the constructor does not
                                  initialise it; [None] until assigned *)
  lopg_vec_ : list (list Ten);
  ropg_vec_ : list (list Ten);
  left_boundary_ : nat;
  right_boundary_ : nat;
  dir_ : Ascii.ascii;
  l_site_ : nat;
  r_site_ : nat;
  hamiltonian_terms_ : list EffectiveHamiltonianTerm;
  disk_ : Disk;
  cout_ : list Report
}.

Definition with_terms (ts : list EffectiveHamiltonianTerm) (ex : DMRGExecutor) :=
  MkExec (sweep_params ex) (N_ ex) (mps_ ex) (mat_repr_mpo_ ex) (e0_ ex)
         (lopg_vec_ ex) (ropg_vec_ ex) (left_boundary_ ex) (right_boundary_ ex)
         (dir_ ex) (l_site_ ex) (r_site_ ex) ts (disk_ ex) (cout_ ex).

Definition with_world (w : World) (ex : DMRGExecutor) :=
  MkExec (sweep_params ex) (N_ ex) (fst w) (mat_repr_mpo_ ex) (e0_ ex)
         (lopg_vec_ ex) (ropg_vec_ ex) (left_boundary_ ex) (right_boundary_ ex)
         (dir_ ex) (l_site_ ex) (r_site_ ex) (hamiltonian_terms_ ex) (snd w)
         (cout_ ex).

Definition with_lopg (v : list (list Ten)) (ex : DMRGExecutor) :=
  MkExec (sweep_params ex) (N_ ex) (mps_ ex) (mat_repr_mpo_ ex) (e0_ ex)
         v (ropg_vec_ ex) (left_boundary_ ex) (right_boundary_ ex)
         (dir_ ex) (l_site_ ex) (r_site_ ex) (hamiltonian_terms_ ex) (disk_ ex)
         (cout_ ex).

Definition with_ropg (v : list (list Ten)) (ex : DMRGExecutor) :=
  MkExec (sweep_params ex) (N_ ex) (mps_ ex) (mat_repr_mpo_ ex) (e0_ ex)
         (lopg_vec_ ex) v (left_boundary_ ex) (right_boundary_ ex)
         (dir_ ex) (l_site_ ex) (r_site_ ex) (hamiltonian_terms_ ex) (disk_ ex)
         (cout_ ex).

Definition with_cout (o : list Report) (ex : DMRGExecutor) :=
  MkExec (sweep_params ex) (N_ ex) (mps_ ex) (mat_repr_mpo_ ex) (e0_ ex)
         (lopg_vec_ ex) (ropg_vec_ ex) (left_boundary_ ex) (right_boundary_ ex)
         (dir_ ex) (l_site_ ex) (r_site_ ex) (hamiltonian_terms_ ex) (disk_ ex)
         o.

(** Member functions of the executor; a fault is [None]. *)
Definition E (A : Type) : Type := DMRGExecutor -> option (A * DMRGExecutor).

Definition eret {A} (a : A) : E A := fun ex => Some (a, ex).
Definition ebind {A B} (c : E A) (k : A -> E B) : E B :=
  fun ex => match c ex with Some (a, ex') => k a ex' | None => None end.
Definition efault {A} : E A := fun _ => None.
Definition eget : E DMRGExecutor := fun ex => Some (ex, ex).
Definition eput (ex : DMRGExecutor) : E unit := fun _ => Some (tt, ex).
(** A value that must exist: a vector read in range, a non-null pointer. *)
Definition must {A} (o : option A) : E A :=
  match o with Some a => eret a | None => efault end.
(** A member function of [mps_]. *)
Definition on_mps {A} (c : M A) : E A :=
  fun ex => match c (mps_ ex, disk_ ex) with
            | Some (a, w) => Some (a, with_world w ex)
            | None => None
            end.
End State.

Declare Scope exec_scope.
Delimit Scope exec_scope with exec.
Notation "x <- c ;; k" := (ebind c (fun x => k))
  (at level 100, c at next level, right associativity) : exec_scope.
Notation "c ;;; k" := (ebind c (fun _ => k))
  (at level 100, right associativity) : exec_scope.

Section Members.
Context `{TL : TensorLib} `{CS : Consts}.
Local Open Scope exec_scope.

(** [for (size_t i = 0; i < n; i++) body(i)], entered at [i] with [count]
    passes to go; none of the loops below changes its own bound. *)
Fixpoint for_from (i count : nat) (body : nat -> E unit) : E unit :=
  match count with
  | O => eret tt
  | S c => body i;;; for_from (S i) c body
  end.
Definition for_range (n : nat) (body : nat -> E unit) : E unit := for_from 0 n body.

(** [W.IsNull(x, y)] *)
Definition IsNull (W : SparMat Ten) (x y : nat) : E bool :=
  idx <- must (indexes W !! CalcOffset W x y);;
  eret (idx =? -1).

(** [(N_ - 1) - r_site_] in [size_t] arithmetic. *)
Definition r_block_index (N r_site : nat) : nat :=
  Z.to_nat (wrap64 (wrap64 (Z.of_nat N - 1) - Z.of_nat r_site)).

(** [void SetEffectiveHamiltonianTerms_()] *)
Definition SetEffectiveHamiltonianTerms_ : E unit :=
  ex <- eget;;
  eput (with_terms [] ex);;;                              (* clear() *)
  lopg <- must (lopg_vec_ ex !! l_site_ ex);;
  for_range (length lopg) (fun i =>
    Wl <- must (mat_repr_mpo_ ex !! l_site_ ex);;
    for_range (cols Wl) (fun j =>
      Wr <- must (mat_repr_mpo_ ex !! r_site_ ex);;
      for_range (cols Wr) (fun k =>
        Wl <- must (mat_repr_mpo_ ex !! l_site_ ex);;
        nl <- IsNull Wl i j;;
        if negb nl then
          Wr <- must (mat_repr_mpo_ ex !! r_site_ ex);;
          nr <- IsNull Wr j k;;
          if negb nr then
            ropg <- must (ropg_vec_ ex !! r_block_index (N_ ex) (r_site_ ex));;
            must (ropg !! k);;;
            let ham_term :=
              MkTerm (LopPtr (l_site_ ex) i)
                     (MpoPtr (l_site_ ex) i j)
                     (MpoPtr (r_site_ ex) j k)
                     (RopPtr (r_block_index (N_ ex) (r_site_ ex)) k) in
            cur <- eget;;
            eput (with_terms (hamiltonian_terms_ cur ++ [ham_term]) cur)
          else eret tt
        else eret tt))).

(** What the assembler is to emit at a bond, in words of the design
    document: the tuples of the index triples [(i, j, k)], [i < D_l],
    [j < D_{l+1}], [k < D_{r+1}], at which neither MPO entry is null, in
    lexicographic order. *)
Definition term_at (N l r i j k : nat) : EffectiveHamiltonianTerm :=
  MkTerm (LopPtr l i) (MpoPtr l i j) (MpoPtr r j k) (RopPtr (N - 1 - r) k).

Definition triples (Wl Wr : SparMat Ten) : list (nat * nat * nat) :=
  i ← seq 0 (rows Wl); j ← seq 0 (cols Wl); k ← seq 0 (cols Wr);
  if negb (is_null Wl i j) && negb (is_null Wr j k) then [(i, j, k)] else [].

Definition lex_lt (p q : nat * nat * nat) : Prop :=
  let '(i, j, k) := p in
  let '(i', j', k') := q in
  (i < i' \/ (i = i' /\ (j < j' \/ (j = j' /\ k < k'))))%nat.

(** Reading through a term's pointer. *)
Definition deref_ptr (ex : DMRGExecutor) (p : TenPtr) : option Ten :=
  match p with
  | LopPtr p i => g ← lopg_vec_ ex !! p; g !! i
  | RopPtr p k => g ← ropg_vec_ ex !! p; g !! k
  | MpoPtr s x y =>
      W ← mat_repr_mpo_ ex !! s;
      idx ← indexes W !! CalcOffset W x y;
      if idx =? -1 then None else data W !! Z.to_nat idx
  end.

Definition deref_term (ex : DMRGExecutor) (t : EffectiveHamiltonianTerm)
  : option (Ten * Ten * Ten * Ten) :=
  t0 ← deref_ptr ex (term0 t); t1 ← deref_ptr ex (term1 t);
  t2 ← deref_ptr ex (term2 t); t3 ← deref_ptr ex (term3 t);
  Some (t0, t1, t2, t3).

(** Modelled from the spec: the executor's [mps_] is a [FiniteMPS], whose
    [operator[]] (finite_mps.h) is not part of the embedded sources.  In
    the design document a mutating access to a position of the MPS
    container marks the position as non-canonical and resets the tracked
    center; [MPS::operator[]] of mps.h does this and stands for it here.
    [mps_[idx]] read as an rvalue and [mps_[idx] = std::move(t)] both go
    through the non-const overload. *)
Definition mps_read (idx : nat) : E Ten :=
  on_mps (Mps.bind (op_bracket idx) deref).
Definition mps_assign (idx : nat) (t : Ten) : E unit :=
  on_mps (Mps.bind (op_bracket idx) (fun r => ref_assign r t)).

(** A property that the truncating SVD gives to its outer factors: [PL] to
    [U] and [PR] to [Vt] (in the design document: [U] is left-isometric
    and [Vt] is right-isometric). *)
Definition SVDTrunc_gives (PL PR : Ten -> Prop) : Prop :=
  forall t ldims qn te dmin dmax,
    PL (SVDTrunc t ldims qn te dmin dmax).1.1.1.1 /\
    PR (SVDTrunc t ldims qn te dmin dmax).1.1.2.

(** What the block-operator update at the end of [TwoSiteUpdate_] reads and
    writes is in range: moving right, the left group [l] and slot [l + 1];
    moving left, the right group [N - 1 - r] and the slot after it. *)
Definition block_ready (ex : DMRGExecutor) : Prop :=
  (dir_ ex = "r"%char /\
   is_Some (lopg_vec_ ex !! l_site_ ex) /\
   is_Some (mat_repr_mpo_ ex !! l_site_ ex) /\
   (l_site_ ex + 1 < length (lopg_vec_ ex))%nat) \/
  (dir_ ex = "l"%char /\
   is_Some (ropg_vec_ ex !! r_block_index (N_ ex) (r_site_ ex)) /\
   is_Some (mat_repr_mpo_ ex !! r_site_ ex) /\
   (r_block_index (N_ ex) (r_site_ ex) + 1 < length (ropg_vec_ ex))%nat).

(** [double TwoSiteUpdate_()].  A [dir_] other than ['r'] and ['l'] runs
    into [assert(false)]. *)
Definition TwoSiteUpdate_ : E float :=
  ex <- eget;;
  let svd_ldims := 2%nat in
  let l_block_len := l_site_ ex in
  let r_block_len := r_block_index (N_ ex) (r_site_ ex) in
  tl <- mps_read (l_site_ ex);;
  tr <- mps_read (r_site_ ex);;
  let init_state := Contract tl tr [[2%nat]; [0%nat]] in
  terms <- must (mapM (deref_term ex) (hamiltonian_terms_ ex));;
  lancz_res <-
    match LanczosSolver terms init_state eff_ham_terms_mul_two_site_state
                        (lancz_params (sweep_params ex)) with
    | Returned res => eret res
    | Faulted _ => efault
    end;;
  tl <- mps_read (l_site_ ex);;
  let '(u, s, vt, actual_trunc_err, D) :=
    SVDTrunc (gs_vec lancz_res) svd_ldims (Div tl)
             (trunc_err (sweep_params ex)) (Dmin (sweep_params ex))
             (Dmax (sweep_params ex)) in
  let ee := MeasureEE s D in
  (if Ascii.eqb (dir_ ex) "r"%char then
     mps_assign (l_site_ ex) u;;;
     let the_other_mps_ten := ContractDT s vt [[1%nat]; [0%nat]] in
     mps_assign (r_site_ ex) the_other_mps_ten
   else if Ascii.eqb (dir_ ex) "l"%char then
     let the_other_mps_ten := ContractTD u s [[2%nat]; [0%nat]] in
     mps_assign (l_site_ ex) the_other_mps_ten;;;
     mps_assign (r_site_ ex) vt
   else efault);;;
  (if Ascii.eqb (dir_ ex) "r"%char then
     cur <- eget;;
     lopg <- must (lopg_vec_ cur !! l_block_len);;
     a <- mps_read (l_site_ ex);;
     W <- must (mat_repr_mpo_ ex !! l_site_ ex);;
     cur <- eget;;
     if decide (l_block_len + 1 < length (lopg_vec_ cur))%nat
     then eput (with_lopg (<[(l_block_len + 1)%nat := UpdateLeftBlockOps lopg a W]>
                             (lopg_vec_ cur)) cur)
     else efault
   else if Ascii.eqb (dir_ ex) "l"%char then
     cur <- eget;;
     ropg <- must (ropg_vec_ cur !! r_block_len);;
     a <- mps_read (r_site_ ex);;
     W <- must (mat_repr_mpo_ ex !! r_site_ ex);;
     cur <- eget;;
     if decide (r_block_len + 1 < length (ropg_vec_ cur))%nat
     then eput (with_ropg (<[(r_block_len + 1)%nat := UpdateRightBlockOps ropg a W]>
                             (ropg_vec_ cur)) cur)
     else efault
   else efault);;;
  cur <- eget;;
  eput (with_cout (cout_ cur ++
          [MkReport (l_site_ ex) (r_site_ ex) (gs_eng lancz_res)
                    actual_trunc_err D (iters lancz_res) ee]) cur);;;
  eret (gs_eng lancz_res).

End Members.
End Dmrg.

(* ===================================================================== *)
(** * lanczos_dmrg_solver_impl.h : the sweep                               *)
(* ===================================================================== *)

Module Sweep.
Import Mps Lanczos Dmrg.

(** Modelled from the spec: the serialiser of a block operator group
    (operator_io.h) is not part of the embedded sources.  A group is
    serialised to one file; it is read back into a group whose size the
    reader fixes beforehand. *)
Class OperatorIO `{TensorLib} := {
  group_write : list Ten -> Blob;
  group_read : nat -> Blob -> list Ten
}.

(** Modelled from the spec: [DMRGInit_] is declared in the class and
    defined outside of the embedded sources.  In the design document it
    expects the MPS on disk, builds the initial right environments, persists
    each, and fixes the two boundaries; here it is any member function. *)
Class ExecutorInit `{TensorLib} := {
  DMRGInit_ : E unit
}.

Section Members.
Context `{TL : TensorLib} `{CS : Consts} `{IO : !OperatorIO} `{IN : !ExecutorInit}.
Local Open Scope exec_scope.

Definition with_e0 (e : option float) (ex : DMRGExecutor) :=
  MkExec (sweep_params ex) (N_ ex) (mps_ ex) (mat_repr_mpo_ ex) e
         (lopg_vec_ ex) (ropg_vec_ ex) (left_boundary_ ex) (right_boundary_ ex)
         (dir_ ex) (l_site_ ex) (r_site_ ex) (hamiltonian_terms_ ex) (disk_ ex)
         (cout_ ex).

Definition with_dir (d : Ascii.ascii) (ex : DMRGExecutor) :=
  MkExec (sweep_params ex) (N_ ex) (mps_ ex) (mat_repr_mpo_ ex) (e0_ ex)
         (lopg_vec_ ex) (ropg_vec_ ex) (left_boundary_ ex) (right_boundary_ ex)
         d (l_site_ ex) (r_site_ ex) (hamiltonian_terms_ ex) (disk_ ex)
         (cout_ ex).

Definition with_sites (l r : nat) (ex : DMRGExecutor) :=
  MkExec (sweep_params ex) (N_ ex) (mps_ ex) (mat_repr_mpo_ ex) (e0_ ex)
         (lopg_vec_ ex) (ropg_vec_ ex) (left_boundary_ ex) (right_boundary_ ex)
         (dir_ ex) l r (hamiltonian_terms_ ex) (disk_ ex)
         (cout_ ex).

Definition with_files (f : gmap string Blob) (ex : DMRGExecutor) :=
  with_world (mps_ ex, MkDisk (dirs (disk_ ex)) f) ex.

(** [a - b] and [a + b] on [size_t]. *)
Definition size_sub (a b : nat) : nat := Z.to_nat (wrap64 (Z.of_nat a - Z.of_nat b)).
Definition size_add (a b : nat) : nat := Z.to_nat (wrap64 (Z.of_nat a + Z.of_nat b)).

(** ** The block-operator cache on disk *)

(** Modelled from the spec: the file name of a block operator group
    (operator_io.h) is not part of the embedded sources.  In the design
    document the temp directory holds the groups in files named after the
    side, ["l"] or ["r"], and the length of the block. *)
Definition GenOpGroupName (op_name : string) (site : nat) (temp_path : string)
  : string :=
  ((((temp_path +:+ "/") +:+ op_name) +:+ pretty site) +:+ ".")
    +:+ kGQTenFileSuffix.

(** An operator group handed over by reference: [lopg_vec_[p]] or
    [ropg_vec_[p]]. *)
Inductive GroupRef :=
| LopgRef (p : nat)
| RopgRef (p : nat).

Definition group_at (ex : DMRGExecutor) (r : GroupRef) : option (list Ten) :=
  match r with
  | LopgRef p => lopg_vec_ ex !! p
  | RopgRef p => ropg_vec_ ex !! p
  end.

Definition with_group (r : GroupRef) (g : list Ten) (ex : DMRGExecutor) :=
  match r with
  | LopgRef p => with_lopg (<[p := g]> (lopg_vec_ ex)) ex
  | RopgRef p => with_ropg (<[p := g]> (ropg_vec_ ex)) ex
  end.

(** Reading the group behind a reference, and assigning to it; either is
    undefined when the vector has no such element. *)
Definition group_get (r : GroupRef) : E (list Ten) :=
  ex <- eget;;
  must (group_at ex r).

Definition group_set (r : GroupRef) (g : list Ten) : E unit :=
  ex <- eget;;
  match group_at ex r with
  | Some _ => eput (with_group r g ex)
  | None => efault
  end.

(** Modelled from the spec: [WriteOperatorGroup], [ReadOperatorGroup] and
    [ReadAndRemoveOperatorGroup] (operator_io.h) are not part of the
    embedded sources.  In the design document a write serialises the group
    to its file, and may overwrite it; a read loads the group from the temp
    area, and a missing file is fatal; the read-and-remove variant reads,
    then unlinks the file. *)
Definition WriteOperatorGroup (op_name : string) (site : nat) (r : GroupRef)
    (temp_path : string) : E unit :=
  op_group <- group_get r;;
  ex <- eget;;
  eput (with_files (<[GenOpGroupName op_name site temp_path := group_write op_group]>
                      (files (disk_ ex))) ex).

Definition ReadOperatorGroup (op_name : string) (site : nat) (r : GroupRef)
    (temp_path : string) : E unit :=
  op_group <- group_get r;;
  ex <- eget;;
  blob <- must (files (disk_ ex) !! GenOpGroupName op_name site temp_path);;
  group_set r (group_read (length op_group) blob).

Definition ReadAndRemoveOperatorGroup (op_name : string) (site : nat)
    (r : GroupRef) (temp_path : string) : E unit :=
  ReadOperatorGroup op_name site r temp_path;;;
  ex <- eget;;
  eput (with_files (delete (GenOpGroupName op_name site temp_path)
                           (files (disk_ ex))) ex).

(** ** The member functions of the sweep *)

(** [void LoadRelatedTensSweep_()] *)
Definition LoadRelatedTensSweep_ : E unit :=
  ex <- eget;;
  let mps_path := mps_path (sweep_params ex) in
  let temp_path := temp_path (sweep_params ex) in
  let l_site := l_site_ ex in
  let r_site := r_site_ ex in
  if Ascii.eqb (dir_ ex) "r"%char then
    if Nat.eqb l_site (left_boundary_ ex) then
      on_mps (LoadTen l_site (GenMPSTenName mps_path l_site));;;
      let lblock_len := l_site in
      Wl <- must (mat_repr_mpo_ ex !! l_site);;
      let lopg_size := rows Wl in
      group_set (LopgRef lblock_len) (replicate lopg_size default_ten);;;
      ReadOperatorGroup "l" lblock_len (LopgRef lblock_len) temp_path;;;
      let rblock_len := r_block_index (N_ ex) r_site in
      Wr <- must (mat_repr_mpo_ ex !! r_site);;
      let ropg_size := cols Wr in
      group_set (RopgRef rblock_len) (replicate ropg_size default_ten);;;
      ReadAndRemoveOperatorGroup "r" rblock_len (RopgRef rblock_len) temp_path
    else
      on_mps (LoadTen r_site (GenMPSTenName mps_path r_site));;;
      let rblock_len := r_block_index (N_ ex) r_site in
      Wr <- must (mat_repr_mpo_ ex !! r_site);;
      let ropg_size := cols Wr in
      group_set (RopgRef rblock_len) (replicate ropg_size default_ten);;;
      ReadAndRemoveOperatorGroup "r" rblock_len (RopgRef rblock_len) temp_path
  else if Ascii.eqb (dir_ ex) "l"%char then
    if Nat.eqb r_site (right_boundary_ ex) then
      on_mps (LoadTen r_site (GenMPSTenName mps_path r_site));;;
      let rblock_len := r_block_index (N_ ex) r_site in
      Wr <- must (mat_repr_mpo_ ex !! r_site);;
      let ropg_size := cols Wr in
      group_set (RopgRef rblock_len) (replicate ropg_size default_ten);;;
      ReadOperatorGroup "r" rblock_len (RopgRef rblock_len) temp_path;;;
      let lblock_len := l_site in
      Wl <- must (mat_repr_mpo_ ex !! l_site);;
      let lopg_size := rows Wl in
      group_set (LopgRef l_site) (replicate lopg_size default_ten);;;
      ReadAndRemoveOperatorGroup "l" lblock_len (LopgRef l_site) temp_path
    else
      on_mps (LoadTen l_site (GenMPSTenName mps_path l_site));;;
      let lblock_len := l_site in
      Wl <- must (mat_repr_mpo_ ex !! l_site);;
      let lopg_size := rows Wl in
      group_set (LopgRef l_site) (replicate lopg_size default_ten);;;
      ReadAndRemoveOperatorGroup "l" lblock_len (LopgRef l_site) temp_path
  else efault.

(** [void DumpRelatedTensSweep_()] *)
Definition DumpRelatedTensSweep_ : E unit :=
  ex <- eget;;
  let mps_path := mps_path (sweep_params ex) in
  let temp_path := temp_path (sweep_params ex) in
  let l_site := l_site_ ex in
  let r_site := r_site_ ex in
  group_set (LopgRef l_site) [];;;                            (* clear() *)
  group_set (RopgRef (r_block_index (N_ ex) r_site)) [];;;    (* clear() *)
  if Ascii.eqb (dir_ ex) "r"%char then
    on_mps (DumpTen l_site (GenMPSTenName mps_path l_site) true);;;
    WriteOperatorGroup "l" r_site (LopgRef r_site) temp_path
  else if Ascii.eqb (dir_ ex) "l"%char then
    on_mps (DumpTen r_site (GenMPSTenName mps_path r_site) true);;;
    WriteOperatorGroup "r" (r_block_index (N_ ex) l_site)
                       (RopgRef (r_block_index (N_ ex) l_site)) temp_path
  else efault.

(** The four statements that follow the assignment of [l_site_] and
    [r_site_] in either loop of [DMRGSweep_]. *)
Definition bond_update : E unit :=
  LoadRelatedTensSweep_;;;
  SetEffectiveHamiltonianTerms_;;;
  e <- TwoSiteUpdate_;;
  (ex <- eget;; eput (with_e0 (Some e) ex));;;                (* e0_ = .. *)
  DumpRelatedTensSweep_.

(** [for (size_t i = start; i > bound; --i) body(i)], entered at [i] with
    [count] passes to go. *)
Fixpoint for_down (i count : nat) (body : nat -> E unit) : E unit :=
  match count with
  | O => eret tt
  | S c => body i;;; for_down (i - 1) c body
  end.

(** [double DMRGSweep_()].  The functions called in the two loops assign
    neither boundary, so each loop runs from its start to the bound it
    finds on entry: [right_boundary_ - 1] and [left_boundary_ + 1] in
    [size_t].  Inside the first loop [i] is below its bound and [i + 1]
    does not wrap; inside the second [i] is above its bound and [i - 1]
    does not wrap.  [return e0_] reads the member. *)
Definition DMRGSweep_ : E float :=
  (ex <- eget;; eput (with_dir "r" ex));;;
  ex <- eget;;
  let bound := size_sub (right_boundary_ ex) 1 in
  for_from (left_boundary_ ex) (bound - left_boundary_ ex) (fun i =>
    (ex <- eget;; eput (with_sites i (i + 1) ex));;;
    bond_update);;;
  (ex <- eget;; eput (with_dir "l" ex));;;
  ex <- eget;;
  let bound := size_add (left_boundary_ ex) 1 in
  for_down (right_boundary_ ex) (right_boundary_ ex - bound) (fun i =>
    (ex <- eget;; eput (with_sites (i - 1) i ex));;;
    bond_update);;;
  ex <- eget;;
  must (e0_ ex).

(** [for (size_t sweep = 1; sweep <= sweep_params.sweeps; ++sweep)], with
    [n] passes to go.  This is the loop for a sweep count below the largest
    [size_t], where [++sweep] does not wrap; at the largest [size_t] the
    condition never fails. *)
Fixpoint sweep_loop (n : nat) : E unit :=
  match n with
  | O => eret tt
  | S n' =>
      e <- DMRGSweep_;;
      (ex <- eget;; eput (with_e0 (Some e) ex));;;            (* e0_ = .. *)
      sweep_loop n'
  end.

(** [void Execute()].  The lines ["sweep n"] and the timings are left out
    of the output. *)
Definition Execute : E unit :=
  ex <- eget;;
  (if Nat.eqb (size (mps_ ex)) (length (mat_repr_mpo_ ex))
   then eret tt else efault);;;                               (* assert *)
  DMRGInit_;;;
  ex <- eget;;
  let site := size_add (left_boundary_ ex) 1 in
  on_mps (LoadTen site (GenMPSTenName (mps_path (sweep_params ex)) site));;;
  ex <- eget;;
  sweep_loop (sweeps (sweep_params ex));;;
  ex <- eget;;
  let site := size_add (left_boundary_ ex) 1 in
  on_mps (DumpTen site (GenMPSTenName (mps_path (sweep_params ex)) site) true).

(** [const double GetEnergy() const] *)
Definition GetEnergy : E float :=
  ex <- eget;;
  must (e0_ ex).

(** ** The bonds of a sweep and the state between two bonds *)

(** The bonds of one sweep, in words of the design document: [(i, i+1)]
    for [i = left_boundary .. right_boundary - 2], then [(i-1, i)] for
    [i = right_boundary .. left_boundary + 2] downwards. *)
Definition sweep_bonds (lb rb : nat) : list (nat * nat) :=
  ((fun i => (i, i + 1)%nat) <$> seq lb (rb - 1 - lb)) ++
  ((fun i => (i - 1, i)%nat) <$> reverse (seq (lb + 2) (rb - lb - 1))).

Definition bond_of (ln : Report) : nat * nat := (rep_l_site ln, rep_r_site ln).

(** The group of block length [p] of side [op_name] is on disk with [n]
    tensors. *)
Definition group_on_disk (ex : DMRGExecutor) (op_name : string) (p n : nat) : Prop :=
  exists g,
    files (disk_ ex) !! GenOpGroupName op_name p (temp_path (sweep_params ex))
    = Some (group_write g) /\
    length g = n.

(** The MPO as the design document has it: one matrix per site, the
    columns of each the rows of the next, a grid of [rows * cols] indexes
    each, every non-null index a position of [data]. *)
Definition mpo_ok (ex : DMRGExecutor) : Prop :=
  length (mat_repr_mpo_ ex) = N_ ex /\
  (forall s W, mat_repr_mpo_ ex !! s = Some W ->
     length (indexes W) = (rows W * cols W)%nat /\
     forall off idx, indexes W !! off = Some idx -> idx <> -1 ->
       0 <= idx < Z.of_nat (length (data W))) /\
  (forall s W W', mat_repr_mpo_ ex !! s = Some W ->
     mat_repr_mpo_ ex !! S s = Some W' -> cols W = rows W').

(** What stays as it is throughout [Execute] once [DMRGInit_] has run:
    there is a bond between the boundaries, which are sites; the MPS and
    the two vectors of groups have one slot per site; the solver may keep
    two basis vectors; the files of the groups are not files of site
    tensors. *)
Definition static_ok (ex : DMRGExecutor) : Prop :=
  mpo_ok ex /\
  Z.of_nat (N_ ex) < 2 ^ 64 /\
  (left_boundary_ ex + 1 < right_boundary_ ex < N_ ex)%nat /\
  wf (mps_ ex) /\ size (mps_ ex) = N_ ex /\
  length (lopg_vec_ ex) = N_ ex /\ length (ropg_vec_ ex) = N_ ex /\
  (2 <= max_iterations (lancz_params (sweep_params ex)))%nat /\
  (forall op_name p i,
     GenOpGroupName op_name p (temp_path (sweep_params ex))
     <> GenMPSTenName (mps_path (sweep_params ex)) i).

(** The files at the moment when the left groups of block length below [k]
    and the right groups of the sites from [k] on are on disk: every site
    tensor between the boundaries has its file. *)
Definition disk_ok (ex : DMRGExecutor) (k : nat) : Prop :=
  (forall j, (left_boundary_ ex <= j <= right_boundary_ ex)%nat ->
     is_Some (files (disk_ ex)
                !! GenMPSTenName (mps_path (sweep_params ex)) j)) /\
  (forall p W, (left_boundary_ ex <= p < k)%nat ->
     mat_repr_mpo_ ex !! p = Some W -> group_on_disk ex "l" p (rows W)) /\
  (forall s W, (k <= s <= right_boundary_ ex)%nat ->
     mat_repr_mpo_ ex !! s = Some W ->
     group_on_disk ex "r" (N_ ex - 1 - s) (cols W)).

(** Before the bond [(i, i + 1)] of the pass to the right; [i] is
    [right_boundary - 1] when the pass is over. *)
Definition at_right (ex : DMRGExecutor) (i : nat) : Prop :=
  static_ok ex /\ disk_ok ex (i + 1) /\
  (exists t, raw_data_ (mps_ ex) !! (i `max` (left_boundary_ ex + 1))%nat
             = Some (Some t)) /\
  ((left_boundary_ ex < i)%nat ->
   exists g W, lopg_vec_ ex !! i = Some g /\ mat_repr_mpo_ ex !! i = Some W /\
               length g = rows W).

(** Before the bond [(j - 1, j)] of the pass to the left; [j] is
    [left_boundary + 1] when the pass is over. *)
Definition at_left (ex : DMRGExecutor) (j : nat) : Prop :=
  static_ok ex /\ disk_ok ex j /\
  (exists t, raw_data_ (mps_ ex) !! (j `min` (right_boundary_ ex - 1))%nat
             = Some (Some t)) /\
  ((j < right_boundary_ ex)%nat ->
   exists g W, ropg_vec_ ex !! (N_ ex - 1 - j)%nat = Some g /\
               mat_repr_mpo_ ex !! j = Some W /\ length g = cols W).

(** The executor between two sweeps: the site after the left boundary is
    in memory, every site tensor between the boundaries has its file, the
    left group of the left boundary and the right groups of the sites
    after it are on disk. *)
Definition sweep_ready (ex : DMRGExecutor) : Prop :=
  at_right ex (left_boundary_ ex).

(** The executor as [DMRGInit_] is to leave it: as between two sweeps,
    with the site after the left boundary on disk only. *)
Definition init_ready (ex : DMRGExecutor) : Prop :=
  static_ok ex /\ disk_ok ex (left_boundary_ ex + 1).

(** The members that no function called by [Execute] after [DMRGInit_]
    assigns. *)
Definition same_ctl (ex ex' : DMRGExecutor) : Prop :=
  sweep_params ex' = sweep_params ex /\ N_ ex' = N_ ex /\
  mat_repr_mpo_ ex' = mat_repr_mpo_ ex /\
  left_boundary_ ex' = left_boundary_ ex /\
  right_boundary_ ex' = right_boundary_ ex.

(** The same bond in the same direction. *)
Definition same_bond (ex ex' : DMRGExecutor) : Prop :=
  dir_ ex' = dir_ ex /\ l_site_ ex' = l_site_ ex /\ r_site_ ex' = r_site_ ex.

(** The working set of the bond [(l, r)] is in memory: the two site
    tensors, the left group of [l] and the right group of [r], each of the
    size that the MPO asks for. *)
Definition bond_loaded (ex : DMRGExecutor) : Prop :=
  (r_site_ ex = l_site_ ex + 1)%nat /\ (r_site_ ex < N_ ex)%nat /\
  (exists tl, raw_data_ (mps_ ex) !! l_site_ ex = Some (Some tl)) /\
  (exists tr, raw_data_ (mps_ ex) !! r_site_ ex = Some (Some tr)) /\
  (exists g W, lopg_vec_ ex !! l_site_ ex = Some g /\
               mat_repr_mpo_ ex !! l_site_ ex = Some W /\ length g = rows W) /\
  (exists g W, ropg_vec_ ex !! (N_ ex - 1 - r_site_ ex)%nat = Some g /\
               mat_repr_mpo_ ex !! r_site_ ex = Some W /\ length g = cols W).

(** The laws of the absent collaborators that the sweep relies on: a group
    read back with the size it was written with is the group written; the
    grown left group has one tensor per column of the MPO matrix, the grown
    right group one per row. *)
Definition collaborators_ok : Prop :=
  (forall g, group_read (length g) (group_write g) = g) /\
  (forall g a W, length (UpdateLeftBlockOps g a W) = cols W) /\
  (forall g a W, length (UpdateRightBlockOps g a W) = rows W).

End Members.
End Sweep.

(* ===================================================================== *)
(** * A small instance of the external collaborators                       *)
(* ===================================================================== *)

(** Dense real vectors as tensors, enough to run the functions above on
    concrete inputs: the inner product as full contraction, the Euclidean
    norm, a dense matrix as effective Hamiltonian, and a tridiagonal
    solver that is exact for sizes 1 and 2. *)
Module Instance.
Import Mps Lanczos Dmrg Sweep.

Definition vec : Type := list float.

Definition dot (u v : vec) : float :=
  foldr PrimFloat.add 0%float (zip_with PrimFloat.mul u v).
Definition norm (v : vec) : float := PrimFloat.sqrt (dot v v).
Definition scale (c : float) (v : vec) : vec := PrimFloat.mul c <$> v.
Definition zeros (v : vec) : vec := (fun _ => 0%float) <$> v.

(** [out = beta * out + sum_i c_i v_i]; an empty [out] takes the shape of
    the first vector. *)
Definition lincomb (coefs : list float) (vecs : list vec) (beta : float)
    (out : vec) : vec :=
  let base := match out with
              | [] => zeros (default [] (head vecs))
              | _ => scale beta out
              end in
  foldl (fun acc cv => zip_with (fun a x => (a + cv.1 * x)%float) acc cv.2)
        base (zip coefs vecs).

(** Lowest eigenpair of the leading [n x n] block of the symmetric
    tridiagonal matrix with diagonal [a] and off-diagonal [b]. *)
Definition tridiag (a b : list float) (n : nat) (jobz : Jobz)
  : float * list float :=
  let a0 := default 0%float (a !! 0%nat) in
  let a1 := default 0%float (a !! 1%nat) in
  let b0 := default 0%float (b !! 0%nat) in
  match n with
  | 2%nat =>
      let mid := ((a0 + a1) / 2)%float in
      let half := ((a0 - a1) / 2)%float in
      let lam := (mid - PrimFloat.sqrt (half * half + b0 * b0))%float in
      let x := [b0; (lam - a0)%float] in
      (lam, match jobz with JobN => [] | JobV => scale (1 / norm x)%float x end)
  | _ => (a0, match jobz with
              | JobN => []
              | JobV => 1%float :: replicate (n - 1) 0%float
              end)
  end.

Definition toy_lib : TensorLib := {|
  Ten := vec;
  DTen := vec;
  QN := Z;
  Blob := list vec;
  default_ten := [];
  ten_size := length;
  Rank := fun _ => 4%nat;
  zero_like := zeros;
  Div := fun _ => 0;
  qn_sub := Z.sub;
  Dag := fun t => t;
  Normalize := fun t => (scale (1 / norm t)%float t, norm t);
  RealScalar := fun t => default 0%float (head t);
  Contract := fun x y _ => [dot x y];
  ContractDT := fun s vt _ => scale (default 1%float (head s)) vt;
  ContractTD := fun u s _ => scale (default 1%float (head s)) u;
  Contract1 := fun x y _ _ _ => x;
  SVD := fun t _ _ => (t, [1%float], t);
  SVDTrunc := fun t _ _ _ _ _ =>
    (scale 2%float t, [3%float], scale 5%float t, 0%float, 1%nat);
  LinearCombine := lincomb;
  LinearCombineN := fun n c vs beta out => lincomb (take n c) (take n vs) beta out;
  TridiagGsSolver := tridiag;
  MeasureEE := fun _ _ => 0%float;
  UpdateLeftBlockOps := fun _ a W => replicate (cols W) a;
  UpdateRightBlockOps := fun _ a W => replicate (rows W) a;
  ten_write := fun t => [t];
  ten_read := fun b => default [] (head b)
|}.

Definition toy_consts : Consts := {|
  kMpsPath := "mps";
  kMpsTenBaseName := "mps_ten";
  kGQTenFileSuffix := "gqten"
|}.

(** A dense matrix applied to a vector. *)
Definition matvec (H : list vec) (v : vec) : vec := (fun row => dot row v) <$> H.

(** [H = diag(2, 3)] with the eigenvector [(1, 0)] as initial state. *)
Definition H_diag : list vec := [[2; 0]; [0; 3]]%float.
(** [H = [[0, 1], [1, 0]]], which maps [(1, 0)] to [(0, 1)]. *)
Definition H_flip : list vec := [[0; 1]; [1; 0]]%float.
Definition e1 : vec := [1; 0]%float.

Definition params_5 : @LanczosParams := MkLanczosParams 0x1p-30%float 5.
Definition params_1 : @LanczosParams := MkLanczosParams 0x1p-30%float 1.

(** The solver's state on [H_flip] and [e1]: before the loop, after the
    first pass has stored [a[1]], and at the top of the second pass. *)
Definition no_krylov : @Krylov toy_lib :=
  @MkKrylov toy_lib 0 [] [] [] [] ([] : vec) 0%float.
Definition flip_k0 : @Krylov toy_lib :=
  Eval vm_compute in
    match @lanczos_init toy_lib _ H_flip e1 matvec params_5 with
    | Returned k => k
    | Faulted _ => no_krylov
    end.
Definition flip_ke : @Krylov toy_lib :=
  Eval vm_compute in
    match @lanczos_extend toy_lib _ H_flip e1 matvec flip_k0 with
    | Returned (Extended k) => k
    | _ => no_krylov
    end.
Definition flip_k1 : @Krylov toy_lib :=
  Eval vm_compute in
    match @after_iters toy_lib _ H_flip e1 matvec params_5 1 flip_k0 with
    | Some k => k
    | None => no_krylov
    end.

(** A three-site MPS with every tensor resident and no canonical data. *)
Definition toy_mps : @MPS toy_lib :=
  @MkMPS toy_lib [Some [1; 2]; Some [3; 4]; Some [5; 6]]%float
        kUncentralizedCenterIdx [NONE; NONE; NONE].

Definition toy_disk : @Disk toy_lib := @MkDisk toy_lib [] ∅.

(** The three-site MPS after [Centralize(1)]. *)
Definition centered_mps : @MPS toy_lib :=
  Eval vm_compute in
    match @Centralize toy_lib 1 (toy_mps, toy_disk) with
    | Some (_, (m, _)) => m
    | None => toy_mps
    end.

(** A two-site chain at its only bond: [W[0]] is [1 x 2] with a null
    second entry, [W[1]] is [2 x 1]. *)
Definition toy_W0 : SparMat vec := MkSparMat 1 2 [[1]%float] [0; -1].
Definition toy_W1 : SparMat vec := MkSparMat 2 1 [[1]; [1]]%float [0; 1].

Definition toy_exec (dir : Ascii.ascii) : @DMRGExecutor toy_lib :=
  @Dmrg.MkExec toy_lib
    (MkSweepParams 1 1 8 0x1p-30%float (MkLanczosParams 0x1p-30%float 4) "mps" "tmp")
    2
    (@MkMPS toy_lib [Some [1; 0]; Some [1; 0]]%float 0 [NONE; RIGHT])
    [toy_W0; toy_W1]
    None
    [[[1]%float]; [[1]%float]]
    [[[1]%float]; [[1]%float]]
    0 1 dir 0 1
    [MkTerm (LopPtr 0 0) (MpoPtr 0 0 0) (MpoPtr 1 0 0) (RopPtr 0 0)]
    toy_disk [].

(** The tensors behind the pointers of the executor's term. *)
Definition toy_terms : list (vec * vec * vec * vec) :=
  Eval vm_compute in
    default [] (mapM (@deref_term toy_lib (toy_exec "r"))
                     (@hamiltonian_terms_ toy_lib (toy_exec "r"))).

(** The singular values are normalised like a site tensor. *)
Definition toy_dten : @DTenOps toy_lib :=
  @Build_DTenOps toy_lib (fun s : vec => (scale (1 / norm s)%float s, norm s)).

(** A four-site MPS whose first site is marked left-canonical and whose
    last site is marked right-canonical. *)
Definition toy_mps4 : @MPS toy_lib :=
  @MkMPS toy_lib [Some [1; 2]; Some [3; 4]; Some [5; 6]; Some [7; 8]]%float
        kUncentralizedCenterIdx [LEFT; NONE; NONE; RIGHT].

Definition params_0 : @LanczosParams := MkLanczosParams 0x1p-30%float 0.

(** [c1 * Op7 + c2 * Op8], the same sum written the other way round, and
    [c1 * Op7 + c1 * Op8]. *)
Definition toy_op_a : CoefOpAlg.OpRepr :=
  CoefOpAlg.MkOpRepr [CoefOpAlg.MkCoefRepr [1]; CoefOpAlg.MkCoefRepr [2]] [7; 8].
Definition toy_op_b : CoefOpAlg.OpRepr :=
  CoefOpAlg.MkOpRepr [CoefOpAlg.MkCoefRepr [2]; CoefOpAlg.MkCoefRepr [1]] [8; 7].
Definition toy_op_c : CoefOpAlg.OpRepr :=
  CoefOpAlg.MkOpRepr [CoefOpAlg.MkCoefRepr [1]; CoefOpAlg.MkCoefRepr [1]] [7; 8].

(** Groups are stored as they are. *)
Definition toy_io : @OperatorIO toy_lib :=
  @Build_OperatorIO toy_lib (fun g : list vec => g) (fun _ (b : list vec) => b).

(** A chain of four sites: the MPO, and the files that the initialisation
    leaves behind, the four site tensors, the left group of block length 0
    and the right groups of block lengths 0, 1 and 2. *)
Definition chain_W0 : SparMat vec := MkSparMat 1 2 [[1]; [1]]%float [0; 1].
Definition chain_W1 : SparMat vec :=
  MkSparMat 2 2 [[1]; [1]; [1]]%float [0; 1; -1; 2].
Definition chain_W3 : SparMat vec := MkSparMat 2 1 [[1]; [1]]%float [0; 1].

Definition chain_files : gmap string (list vec) :=
  list_to_map
    [("mps/mps_ten0.gqten", [[1; 0]]); ("mps/mps_ten1.gqten", [[1; 0]]);
     ("mps/mps_ten2.gqten", [[1; 0]]); ("mps/mps_ten3.gqten", [[1; 0]]);
     ("tmp/l0.gqten", [[1]]);
     ("tmp/r2.gqten", [[1]; [1]]); ("tmp/r1.gqten", [[1]; [1]]);
     ("tmp/r0.gqten", [[1]])]%float.

(** An initialisation for the chain: the boundaries are the first and the
    last site, and the site tensors and the groups are on disk. *)
Definition toy_init : @ExecutorInit toy_lib :=
  @Build_ExecutorInit toy_lib (fun ex =>
    Some (tt, @Dmrg.MkExec toy_lib
                (sweep_params ex) (N_ ex) (mps_ ex) (mat_repr_mpo_ ex) (e0_ ex)
                (lopg_vec_ ex) (ropg_vec_ ex) 0 (N_ ex - 1) (dir_ ex)
                (l_site_ ex) (r_site_ ex) (hamiltonian_terms_ ex)
                (@MkDisk toy_lib ["tmp"; "mps"] chain_files) (cout_ ex))).

(** The executor of [n] sweeps over the chain as the constructor leaves
    it, the boundaries and the bond being whatever the memory holds, and as
    the initialisation leaves it. *)
Definition chain_new (n : nat) : @DMRGExecutor toy_lib :=
  @Dmrg.MkExec toy_lib
    (MkSweepParams n 1 8 0x1p-30%float (MkLanczosParams 0x1p-30%float 4)
                   "mps" "tmp")
    4 (@MPS_new toy_lib 4) [chain_W0; chain_W1; chain_W1; chain_W3] None
    [[]; []; []; []] [[]; []; []; []] 0 0 "r" 0 0 [] toy_disk [].

Definition chain_init (n : nat) : @DMRGExecutor toy_lib :=
  @Dmrg.MkExec toy_lib
    (sweep_params (chain_new n)) 4 (@MPS_new toy_lib 4)
    (mat_repr_mpo_ (chain_new n)) None
    [[]; []; []; []] [[]; []; []; []]
    0 3 "r" 0 0 [] (@MkDisk toy_lib ["tmp"; "mps"] chain_files) [].

End Instance.

(* ===================================================================== *)
(** * Properties                                                           *)
(* ===================================================================== *)

Create HintDb mps.

Module CoefOpAlgFacts.
Import CoefOpAlg.

(** When the scan succeeds, [pos] is the offset-corrected position of an
    element of [v] equal to [e]. *)
Lemma ElemInVec_from_true (e : Z) (v : list Z) (i pos : Z) :
  ElemInVec_from Z.eqb e v i = (true, pos) ->
  i <= pos /\ v !! Z.to_nat (pos - i) = Some e.
Proof.
  revert i. induction v as [|x v IH]; intros i; simpl; [discriminate|].
  destruct (Z.eqb_spec e x) as [->|Hne].
  - intros [= <-]. rewrite Z.sub_diag. split; [lia|reflexivity].
  - intros H. destruct (IH _ H) as [Hle Hlk]. split; [lia|].
    replace (Z.to_nat (pos - i)) with (S (Z.to_nat (pos - (i + 1)))) by lia.
    exact Hlk.
Qed.

(** The scan fails only when [e] does not occur in [v]. *)
Lemma ElemInVec_from_false (e : Z) (v : list Z) (i pos : Z) :
  ElemInVec_from Z.eqb e v i = (false, pos) -> e ∉ v.
Proof.
  revert i. induction v as [|x v IH]; intros i; simpl.
  - intros _. apply not_elem_of_nil.
  - destruct (Z.eqb_spec e x) as [->|Hne]; [discriminate|].
    intros H. apply not_elem_of_cons. split; [exact Hne|]. eapply IH, H.
Qed.

(** [operator==] accepts every pair of label lists that are equal as
    multisets. *)
Lemma CoefRepr_eq_loop_Permutation (lhs rhs : list CoefLabel) :
  lhs ≡ₚ rhs -> CoefRepr_eq_loop lhs rhs = true.
Proof.
  revert rhs. induction lhs as [|l lhs IH]; intros rhs HP; simpl.
  - apply Permutation_nil_l in HP. subst rhs. reflexivity.
  - unfold ElemInVec.
    destruct (ElemInVec_from Z.eqb l rhs 0) as [[|] pos] eqn:HE.
    + apply ElemInVec_from_true in HE as [Hle Hlk].
      rewrite Z.sub_0_r in Hlk.
      apply IH. apply delete_Permutation in Hlk.
      rewrite Hlk in HP. eapply Permutation_cons_inv, HP.
    + apply ElemInVec_from_false in HE. exfalso. apply HE.
      rewrite <- HP. apply elem_of_cons. by left.
Qed.

(** [operator==] accepts only pairs of label lists that are equal as
    multisets: it compares with multiplicity, not as sets. *)
Lemma CoefRepr_eq_loop_sound (lhs rhs : list CoefLabel) :
  CoefRepr_eq_loop lhs rhs = true -> lhs ≡ₚ rhs.
Proof.
  revert rhs. induction lhs as [|l lhs IH]; intros rhs; simpl.
  - destruct rhs; [reflexivity|discriminate].
  - unfold ElemInVec.
    destruct (ElemInVec_from Z.eqb l rhs 0) as [[|] pos] eqn:HE; [|discriminate].
    apply ElemInVec_from_true in HE as [Hle Hlk].
    rewrite Z.sub_0_r in Hlk. intros H. apply IH in H.
    apply delete_Permutation in Hlk. rewrite Hlk, H. reflexivity.
Qed.

Lemma CoefRepr_eq_spec (a b : CoefRepr) :
  CoefRepr_eq a b = true <-> coef_label_list_ a ≡ₚ coef_label_list_ b.
Proof.
  unfold CoefRepr_eq. split.
  - destruct (negb _); [discriminate|]. apply CoefRepr_eq_loop_sound.
  - intros HP. rewrite (Permutation_length HP), Nat.eqb_refl. simpl.
    apply CoefRepr_eq_loop_Permutation, HP.
Qed.

(** C10. For all coefficient representations [a] and [b],
    [(a + b) == (b + a)], and for the reason the claim gives: the label
    list of a sum is the label list of the left operand followed by that of
    the right operand, and [operator==] holds of two coefficients exactly
    when their label lists are equal as multisets, that is, when one is a
    rearrangement of the other, each label with its multiplicity. *)
Theorem CoefRepr_add_comm (a b : CoefRepr) :
  CoefRepr_eq (CoefRepr_add a b) (CoefRepr_add b a) = true /\
  coef_label_list_ (CoefRepr_add a b) = coef_label_list_ a ++ coef_label_list_ b /\
  (forall x y : CoefRepr,
     CoefRepr_eq x y = true <-> coef_label_list_ x ≡ₚ coef_label_list_ y) /\
  (forall x y : CoefRepr,
     CoefRepr_eq x y = true <->
     forall l : CoefLabel,
       count_occ Z.eq_dec (coef_label_list_ x) l
       = count_occ Z.eq_dec (coef_label_list_ y) l).
Proof.
  split_and!.
  - apply CoefRepr_eq_spec. unfold CoefRepr_add, ConcatenateTwoVec. simpl.
    apply Permutation_app_comm.
  - reflexivity.
  - apply CoefRepr_eq_spec.
  - intros x y. rewrite CoefRepr_eq_spec.
    apply (Permutation_count_occ Z.eq_dec).
Qed.

(** [operator==] is sensitive to multiplicity: [{1,1}] and [{1}] differ,
    and so do [{1,1,2}] and [{1,2,2}], which are equal as sets. *)
Example CoefRepr_eq_multiplicity :
  CoefRepr_eq (MkCoefRepr [1; 1; 2]) (MkCoefRepr [1; 2; 2]) = false /\
  CoefRepr_eq (MkCoefRepr [1; 2; 1]) (MkCoefRepr [2; 1; 1]) = true.
Proof. split; reflexivity. Qed.


(** ** [ElemInVec] *)

Lemma ElemInVec_from_spec {T} (eqb : T -> T -> bool)
    (Heqb : forall x y, eqb x y = true <-> x = y) (e : T) (v : list T) (i : Z) :
  match ElemInVec_from eqb e v i with
  | (true, pos) =>
      i <= pos /\ v !! Z.to_nat (pos - i) = Some e /\
      forall j, (j < Z.to_nat (pos - i))%nat -> v !! j <> Some e
  | (false, pos) => pos = -1 /\ e ∉ v
  end.
Proof.
  revert i. induction v as [|x v IH]; intros i; simpl.
  - split; [reflexivity|apply not_elem_of_nil].
  - destruct (eqb e x) eqn:Hex.
    + apply Heqb in Hex as ->. rewrite Z.sub_diag. simpl.
      split; [lia|]. split; [reflexivity|]. intros j Hj. lia.
    + specialize (IH (i + 1)).
      destruct (ElemInVec_from eqb e v (i + 1)) as [[|] pos].
      * destruct IH as (Hle & Hlk & Hfirst). split; [lia|].
        replace (Z.to_nat (pos - i)) with (S (Z.to_nat (pos - (i + 1)))) by lia.
        split; [exact Hlk|]. intros [|j] Hj; simpl.
        -- intros [= ->]. assert (eqb e e = true) by (by apply Heqb). congruence.
        -- apply Hfirst. lia.
      * destruct IH as [-> Hnin]. split; [reflexivity|].
        apply not_elem_of_cons. split; [|exact Hnin].
        intros ->. assert (eqb x x = true) by (by apply Heqb). congruence.
Qed.

Lemma ElemInVec_spec {T} (eqb : T -> T -> bool) (e : T) (v : list T) :
  (forall x y, eqb x y = true <-> x = y) ->
  match ElemInVec eqb e v with
  | (true, pos) =>
      0 <= pos < Z.of_nat (length v) /\ v !! Z.to_nat pos = Some e /\
      forall j, (j < Z.to_nat pos)%nat -> v !! j <> Some e
  | (false, pos) => pos = -1 /\ e ∉ v
  end.
Proof.
  intros Heqb. unfold ElemInVec.
  pose proof (ElemInVec_from_spec eqb Heqb e v 0) as H.
  destruct (ElemInVec_from eqb e v 0) as [[|] pos]; [|exact H].
  rewrite Z.sub_0_r in H. destruct H as (Hle & Hlk & Hfirst).
  split_and!; try done. apply lookup_lt_Some in Hlk. lia.
Qed.

(** X1. [ElemInVec] finds the first occurrence: when it returns [true], [pos]
    is the least position of [v] that holds [e]; when it returns [false],
    [pos] is [-1] and [e] does not occur in [v]. *)
Theorem ElemInVec_first_occurrence {T} (eqb : T -> T -> bool) (e : T) (v : list T) :
  (forall x y, eqb x y = true <-> x = y) ->
  match ElemInVec eqb e v with
  | (true, pos) =>
      0 <= pos < Z.of_nat (length v) /\ v !! Z.to_nat pos = Some e /\
      forall j, (j < Z.to_nat pos)%nat -> v !! j <> Some e
  | (false, pos) => pos = -1 /\ e ∉ v
  end.
Proof. exact (ElemInVec_spec eqb e v). Qed.

(** ** [CoefRepr] *)

(** X2. [CoefRepr::operator==] is an equivalence relation. *)
Theorem CoefRepr_eq_equivalence :
  (forall a, CoefRepr_eq a a = true) /\
  (forall a b, CoefRepr_eq a b = true -> CoefRepr_eq b a = true) /\
  (forall a b c, CoefRepr_eq a b = true -> CoefRepr_eq b c = true ->
                 CoefRepr_eq a c = true).
Proof.
  split_and!.
  - intros a. by apply CoefRepr_eq_spec.
  - intros a b H. apply CoefRepr_eq_spec. symmetry. by apply CoefRepr_eq_spec.
  - intros a b c H1 H2. apply CoefRepr_eq_spec.
    etrans; by apply CoefRepr_eq_spec.
Qed.

(** X3. [CoefRepr::operator==] holds exactly when every label occurs as often
    on the left as on the right. *)
Theorem CoefRepr_eq_counts (a b : CoefRepr) :
  CoefRepr_eq a b = true <->
  forall x : CoefLabel,
    count_occ Z.eq_dec (coef_label_list_ a) x
    = count_occ Z.eq_dec (coef_label_list_ b) x.
Proof.
  rewrite CoefRepr_eq_spec. apply (Permutation_count_occ Z.eq_dec).
Qed.

(** X4. [CoefRepr::operator+] is associative, has the null coefficient as its
    unit on either side, and respects [operator==]. *)
Theorem CoefRepr_add_monoid :
  (forall a b c, CoefRepr_add (CoefRepr_add a b) c = CoefRepr_add a (CoefRepr_add b c)) /\
  (forall a, CoefRepr_add kNullCoefRepr a = a /\ CoefRepr_add a kNullCoefRepr = a) /\
  (forall a a' b b', CoefRepr_eq a a' = true -> CoefRepr_eq b b' = true ->
     CoefRepr_eq (CoefRepr_add a b) (CoefRepr_add a' b') = true).
Proof.
  split_and!.
  - intros [a] [b] [c]. unfold CoefRepr_add, ConcatenateTwoVec. simpl.
    by rewrite app_assoc.
  - intros [a]. unfold CoefRepr_add, ConcatenateTwoVec. simpl.
    by rewrite app_nil_r.
  - intros a a' b b' Ha Hb. apply CoefRepr_eq_spec.
    apply CoefRepr_eq_spec in Ha, Hb. unfold CoefRepr_add, ConcatenateTwoVec.
    simpl. by rewrite Ha, Hb.
Qed.

(** ** [OpRepr] *)

Lemma std_find_None (x : OpLabel) (v : list OpLabel) :
  std_find x v = None -> x ∉ v.
Proof.
  induction v as [|y v IH]; simpl; [intros _; apply not_elem_of_nil|].
  destruct (Z.eqb_spec y x) as [->|Hne]; [discriminate|].
  destruct (std_find x v); [discriminate|]. intros _.
  apply not_elem_of_cons. split; [congruence|by apply IH].
Qed.

Lemma std_find_Some (x : OpLabel) (v : list OpLabel) (i : nat) :
  std_find x v = Some i -> v !! i = Some x.
Proof.
  revert i. induction v as [|y v IH]; intros i; simpl; [discriminate|].
  destruct (Z.eqb_spec y x) as [->|Hne]; [by intros [= <-]|].
  destruct (std_find x v) as [j|]; [|discriminate]. intros [= <-]. by apply IH.
Qed.

Lemma zip_delete {A B} (i : nat) (l : list A) (k : list B) :
  zip (delete i l) (delete i k) = delete i (zip l k).
Proof.
  revert i k. induction l as [|a l IH]; intros i [|b k]; try done.
  - destruct i; simpl; [by destruct l|]. by destruct (delete i l).
  - destruct i; simpl; [done|]. by rewrite IH.
Qed.

Lemma delete_insert_same {A} (i : nat) (x : A) (l : list A) :
  delete i (<[i:=x]> l) = delete i l.
Proof. revert i. induction l as [|a l IH]; intros [|i]; simpl; try done. by rewrite IH. Qed.

Lemma terms_keys (cs : list CoefRepr) (ls : list OpLabel) :
  length cs = length ls -> (zip ls cs).*1 = ls.
Proof. intros H. apply fst_zip. lia. Qed.

Lemma terms_cons c cs l ls :
  OpRepr_terms (MkOpRepr (c :: cs) (l :: ls)) = <[l:=c]> (OpRepr_terms (MkOpRepr cs ls)).
Proof. reflexivity. Qed.

Lemma terms_lookup_Some cs ls l c :
  length cs = length ls -> NoDup ls ->
  OpRepr_terms (MkOpRepr cs ls) !! l = Some c <->
  exists i, ls !! i = Some l /\ cs !! i = Some c.
Proof.
  intros Hlen Hnd. unfold OpRepr_terms. simpl.
  rewrite <- elem_of_list_to_map by (by rewrite terms_keys).
  rewrite list_elem_of_lookup. split.
  - intros [i Hi]. exists i. apply lookup_zip_with_Some in Hi as (x & y & [= -> ->] & ? & ?).
    done.
  - intros (i & H1 & H2). exists i. apply lookup_zip_with_Some. by exists l, c.
Qed.

Lemma terms_lookup_None cs ls l :
  length cs = length ls ->
  OpRepr_terms (MkOpRepr cs ls) !! l = None <-> l ∉ ls.
Proof.
  intros Hlen. unfold OpRepr_terms. simpl.
  rewrite <- not_elem_of_list_to_map. by rewrite terms_keys.
Qed.

(** Taking one term out of a well-formed representation. *)
Lemma terms_split cs ls i l c :
  length cs = length ls -> NoDup ls ->
  ls !! i = Some l -> cs !! i = Some c ->
  OpRepr_terms (MkOpRepr cs ls)
  = <[l:=c]> (OpRepr_terms (MkOpRepr (delete i cs) (delete i ls))) /\
  OpRepr_terms (MkOpRepr (delete i cs) (delete i ls)) !! l = None /\
  length (delete i cs) = length (delete i ls) /\
  NoDup (delete i ls).
Proof.
  intros Hlen Hnd Hl Hc.
  assert (Hlen' : length (delete i cs) = length (delete i ls)).
  { rewrite !length_delete by (by eexists). lia. }
  assert (Hnd' : NoDup (delete i ls)).
  { eapply sublist_NoDup; [exact Hnd|apply sublist_delete]. }
  assert (Hz : zip ls cs !! i = Some (l, c)).
  { apply lookup_zip_with_Some. by exists l, c. }
  assert (Hnew : l ∉ delete i ls).
  { apply delete_Permutation in Hl. rewrite Hl in Hnd.
    by apply NoDup_cons in Hnd as [? _]. }
  split_and!; try done.
  - unfold OpRepr_terms. simpl. rewrite zip_delete.
    transitivity (list_to_map (M:=gmap OpLabel CoefRepr)
                    ((l, c) :: delete i (zip ls cs))); [|reflexivity].
    apply list_to_map_proper.
    + by rewrite terms_keys.
    + by apply delete_Permutation.
  - by apply terms_lookup_None.
Qed.

Lemma OpRepr_eq_loop_spec ls : forall cs rc rl,
  length cs = length ls -> NoDup ls ->
  length rc = length rl -> NoDup rl ->
  exists r, OpRepr_eq_loop ls cs rc rl = Some r /\
    (r = true <->
     forall l, coef_agree (OpRepr_terms (MkOpRepr cs ls) !! l)
                          (OpRepr_terms (MkOpRepr rc rl) !! l)).
Proof.
  induction ls as [|l0 ls IH]; intros cs rc rl Hlen Hnd Hrlen Hrnd.
  - destruct cs; [|done]. simpl. destruct rl as [|l1 rl].
    + destruct rc; [|done]. exists true. split; [done|]. split; [|done].
      intros _ l. unfold OpRepr_terms. simpl. by rewrite lookup_empty.
    + destruct rc as [|c1 rc]; [done|]. exists false. split; [done|].
      split; [done|]. intros H. specialize (H l1).
      rewrite terms_cons, lookup_insert_eq in H.
      unfold OpRepr_terms in H. simpl in H. by rewrite lookup_empty in H.
  - destruct cs as [|c cs]; [done|]. simpl in Hlen.
    apply NoDup_cons in Hnd as [Hl0 Hnd]. simpl.
    pose proof (ElemInVec_spec Z.eqb l0 rl Z.eqb_eq) as HE.
    destruct (ElemInVec Z.eqb l0 rl) as [[|] pos].
    + destruct HE as (Hpos & Hlk & _).
      destruct (lookup_lt_is_Some_2 rc (Z.to_nat pos)) as [c' Hc'];
        [rewrite Hrlen; eapply lookup_lt_Some, Hlk|].
      rewrite Hc'. simpl.
      destruct (terms_split rc rl _ _ _ Hrlen Hrnd Hlk Hc')
        as (Hsplit & Hnone & Hlen' & Hnd').
      assert (Hnone0 : OpRepr_terms (MkOpRepr cs ls) !! l0 = None).
      { apply terms_lookup_None; [lia|done]. }
      unfold CoefRepr_ne. destruct (CoefRepr_eq c c') eqn:Hcc; simpl.
      * destruct (IH cs (delete (Z.to_nat pos) rc) (delete (Z.to_nat pos) rl))
          as (r & -> & Hr); [lia|done..|].
        exists r. split; [done|]. rewrite Hr. rewrite Hsplit, terms_cons.
        split; intros H l; specialize (H l).
        -- destruct (decide (l = l0)) as [->|Hne].
           ++ by rewrite !lookup_insert_eq.
           ++ by rewrite !lookup_insert_ne.
        -- destruct (decide (l = l0)) as [->|Hne].
           ++ by rewrite Hnone0, Hnone.
           ++ by rewrite !lookup_insert_ne in H.
      * exists false. split; [done|]. split; [done|]. intros H.
        specialize (H l0). rewrite Hsplit, terms_cons, !lookup_insert_eq in H.
        simpl in H. congruence.
    + destruct HE as [_ Hnin]. exists false. split; [done|]. split; [done|].
      intros H. specialize (H l0). rewrite terms_cons, lookup_insert_eq in H.
      apply (terms_lookup_None rc) in Hnin; [|done]. by rewrite Hnin in H.
Qed.

Lemma OpRepr_equiv_labels a b :
  OpRepr_wf a -> OpRepr_wf b -> OpRepr_equiv a b ->
  op_label_list_ a ≡ₚ op_label_list_ b.
Proof.
  intros [Ha Hna] [Hb Hnb] H. apply NoDup_Permutation; [done..|].
  intros l. specialize (H l). destruct a as [ca la], b as [cb lb]. simpl in *.
  destruct (decide (l ∈ la)) as [Hin|Hnin], (decide (l ∈ lb)) as [Hin'|Hnin'];
    try tauto.
  - apply (terms_lookup_None cb) in Hnin'; [|done]. rewrite Hnin' in H.
    destruct (OpRepr_terms (MkOpRepr ca la) !! l) eqn:E; [done|].
    apply terms_lookup_None in E; done.
  - apply (terms_lookup_None ca) in Hnin; [|done]. rewrite Hnin in H.
    destruct (OpRepr_terms (MkOpRepr cb lb) !! l) eqn:E; [done|].
    apply terms_lookup_None in E; done.
Qed.

Lemma OpRepr_eq_spec a b :
  OpRepr_wf a -> OpRepr_wf b ->
  exists r, OpRepr_eq a b = Some r /\ (r = true <-> OpRepr_equiv a b).
Proof.
  intros Hwa Hwb. unfold OpRepr_eq.
  destruct (Nat.eqb_spec (length (op_label_list_ a)) (length (op_label_list_ b)))
    as [Heq|Hne]; simpl.
  - destruct Hwa as [Ha Hna], Hwb as [Hb Hnb].
    destruct (OpRepr_eq_loop_spec _ _ _ _ Ha Hna Hb Hnb) as (r & Hr & Hiff).
    exists r. split; [done|]. by destruct a, b.
  - exists false. split; [done|]. split; [done|]. intros H.
    apply OpRepr_equiv_labels in H; [|done..]. apply Permutation_length in H. lia.
Qed.

Lemma terms_snoc cs ls c l :
  length cs = length ls -> NoDup ls -> l ∉ ls ->
  OpRepr_terms (MkOpRepr (cs ++ [c]) (ls ++ [l]))
  = <[l:=c]> (OpRepr_terms (MkOpRepr cs ls)).
Proof.
  intros Hlen Hnd Hl. unfold OpRepr_terms. simpl.
  rewrite zip_with_app by done. simpl.
  transitivity (list_to_map (M:=gmap OpLabel CoefRepr) ((l, c) :: zip ls cs));
    [|reflexivity].
  apply list_to_map_proper.
  - rewrite fmap_app, terms_keys by done. simpl.
    apply NoDup_app. split; [done|]. split; [|apply NoDup_singleton].
    intros x Hx Hx'. apply list_elem_of_singleton in Hx'. by subst.
  - by rewrite Permutation_app_comm.
Qed.

(** What one pass of the merging loop does to the terms. *)
Lemma OpRepr_absorb_spec acc c l :
  OpRepr_wf acc ->
  exists acc', OpRepr_absorb acc c l = Some acc' /\ OpRepr_wf acc' /\
    OpRepr_terms acc'
    = <[l := match OpRepr_terms acc !! l with
             | Some cur => CoefRepr_add cur c
             | None => c
             end]> (OpRepr_terms acc).
Proof.
  destruct acc as [cs ls]. intros [Hlen Hnd]. simpl in *.
  unfold OpRepr_absorb. simpl. destruct (std_find l ls) as [idx|] eqn:Hf.
  - apply std_find_Some in Hf.
    destruct (lookup_lt_is_Some_2 cs idx) as [cur Hcur];
      [rewrite Hlen; eapply lookup_lt_Some, Hf|].
    rewrite Hcur. simpl. eexists. split; [reflexivity|].
    assert (Hlen' : length (<[idx:=CoefRepr_add cur c]> cs) = length ls)
      by (by rewrite length_insert).
    split; [done|].
    destruct (terms_split cs ls idx l cur Hlen Hnd Hf Hcur) as (Hs & Hn & _ & _).
    destruct (terms_split (<[idx:=CoefRepr_add cur c]> cs) ls idx l
                (CoefRepr_add cur c) Hlen' Hnd Hf) as (Hs' & _).
    { apply list_lookup_insert_eq. eapply lookup_lt_Some, Hcur. }
    rewrite delete_insert_same in Hs'. rewrite Hs', Hs.
    rewrite lookup_insert_eq. by rewrite insert_insert_eq.
  - apply std_find_None in Hf. eexists. split; [reflexivity|]. split.
    + split; simpl; [rewrite !length_app; simpl; lia|].
      apply NoDup_app. split; [done|]. split; [|apply NoDup_singleton].
      intros x Hx Hx'. apply list_elem_of_singleton in Hx'. by subst.
    + rewrite terms_snoc by done.
      by rewrite (proj2 (terms_lookup_None cs ls l Hlen) Hf).
Qed.

(** The labels that the coefficients given for [l] contribute, in the
    order of the arguments. *)
Lemma gather_cons l l0 c0 ls cs :
  gather l (l0 :: ls) (c0 :: cs)
  = (if decide (l0 = l) then coef_label_list_ c0 else []) ++ gather l ls cs.
Proof.
  unfold gather. simpl. rewrite filter_cons. simpl.
  destruct (decide (l0 = l)); reflexivity.
Qed.

Lemma OpRepr_ctor_loop_spec ls : forall cs acc,
  OpRepr_wf acc -> (length ls <= length cs)%nat ->
  exists acc', OpRepr_ctor_loop cs ls acc = Some acc' /\ OpRepr_wf acc' /\
    forall l, OpRepr_terms acc' !! l =
      match OpRepr_terms acc !! l with
      | Some x => Some (MkCoefRepr (coef_label_list_ x ++ gather l ls cs))
      | None => if decide (l ∈ ls) then Some (MkCoefRepr (gather l ls cs)) else None
      end.
Proof.
  induction ls as [|l0 ls IH]; intros cs acc Hwf Hlen.
  - exists acc. simpl. split; [done|]. split; [done|]. intros l.
    destruct (OpRepr_terms acc !! l) as [[x]|]; simpl.
    + unfold gather. simpl. by rewrite app_nil_r.
    + first [done | case_decide as Hin; [by apply not_elem_of_nil in Hin|done]].
  - destruct cs as [|c0 cs]; [simpl in Hlen; lia|]. simpl in Hlen. simpl.
    destruct (OpRepr_absorb_spec acc c0 l0 Hwf) as (acc1 & -> & Hwf1 & Ht1). simpl.
    destruct (IH cs acc1 Hwf1 ltac:(lia)) as (acc' & -> & Hwf' & Ht').
    exists acc'. split; [done|]. split; [done|]. intros l.
    rewrite Ht', Ht1, gather_cons.
    destruct (decide (l0 = l)) as [->|Hne].
    + rewrite lookup_insert_eq.
      destruct (OpRepr_terms acc !! l) as [x|]; simpl.
      * unfold CoefRepr_add, ConcatenateTwoVec. simpl. by rewrite app_assoc.
      * rewrite decide_True; [done|]. apply elem_of_cons. by left.
    + rewrite lookup_insert_ne by done. simpl.
      destruct (OpRepr_terms acc !! l) as [x|]; [done|].
      destruct (decide (l ∈ ls)) as [Hin|Hnin].
      * rewrite decide_True; [done|]. apply elem_of_cons. by right.
      * rewrite decide_False; [done|]. apply not_elem_of_cons. done.
Qed.

Lemma OpRepr_wf_null : OpRepr_wf (MkOpRepr [] []).
Proof. split; [done|apply NoDup_nil_2]. Qed.

Lemma OpRepr_of_lists_spec cs ls :
  (length ls <= length cs)%nat ->
  exists o, OpRepr_of_lists cs ls = Some o /\ OpRepr_wf o /\
    forall l, OpRepr_terms o !! l =
      if decide (l ∈ ls) then Some (MkCoefRepr (gather l ls cs)) else None.
Proof.
  intros Hlen. unfold OpRepr_of_lists.
  destruct (OpRepr_ctor_loop_spec ls cs _ OpRepr_wf_null Hlen)
    as (o & -> & Hwf & Ht).
  exists o. simpl. rewrite (proj1 Hwf), Nat.eqb_refl. split; [done|].
  split; [done|]. intros l. rewrite Ht. unfold OpRepr_terms. simpl.
  by rewrite lookup_empty.
Qed.

Lemma OpRepr_ctor_loop_fault ls : forall cs acc,
  (length cs < length ls)%nat -> OpRepr_wf acc ->
  OpRepr_ctor_loop cs ls acc = None.
Proof.
  induction ls as [|l0 ls IH]; intros cs acc Hlen Hwf; [simpl in Hlen; lia|].
  destruct cs as [|c0 cs]; [done|]. simpl in *.
  destruct (OpRepr_absorb_spec acc c0 l0 Hwf) as (acc1 & -> & Hwf1 & _). simpl.
  apply IH; [lia|done].
Qed.

(** With labels that are all different nothing is merged. *)
Lemma OpRepr_ctor_loop_NoDup ls : forall cs acc,
  length cs = length ls -> NoDup (op_label_list_ acc ++ ls) ->
  OpRepr_ctor_loop cs ls acc
  = Some (MkOpRepr (coef_repr_list_ acc ++ cs) (op_label_list_ acc ++ ls)).
Proof.
  induction ls as [|l0 ls IH]; intros cs [ca la] Hlen Hnd; simpl in *.
  - destruct cs; [|done]. by rewrite !app_nil_r.
  - destruct cs as [|c0 cs]; [done|]. simpl in Hlen.
    unfold OpRepr_absorb. simpl.
    destruct (std_find l0 la) as [idx|] eqn:Hf.
    + apply std_find_Some in Hf. apply NoDup_app in Hnd as (_ & Hd & _).
      exfalso. apply (Hd l0); [by eapply list_elem_of_lookup_2|].
      apply elem_of_cons. by left.
    + simpl. rewrite IH; simpl; [|lia|by rewrite <- app_assoc].
      by rewrite <- !app_assoc.
Qed.

Lemma OpRepr_of_lists_NoDup cs ls :
  length cs = length ls -> NoDup ls ->
  OpRepr_of_lists cs ls = Some (MkOpRepr cs ls).
Proof.
  intros Hlen Hnd. unfold OpRepr_of_lists.
  rewrite OpRepr_ctor_loop_NoDup by done. simpl. by rewrite Hlen, Nat.eqb_refl.
Qed.

Lemma OpRepr_add_loop_ctor cs : forall ls acc,
  length cs = length ls ->
  OpRepr_add_loop cs ls acc = OpRepr_ctor_loop cs ls acc.
Proof.
  induction cs as [|c cs IH]; intros [|l ls] acc Hlen; try done. simpl in *.
  destruct (OpRepr_absorb acc c l); simpl; [|done]. apply IH. lia.
Qed.

(** For labels that are all different, what is gathered for a label is its
    one coefficient. *)
Lemma gather_NoDup l ls : forall cs,
  length cs = length ls -> NoDup ls ->
  gather l ls cs
  = from_option coef_label_list_ [] (OpRepr_terms (MkOpRepr cs ls) !! l).
Proof.
  induction ls as [|l0 ls IH]; intros [|c0 cs] Hlen Hnd; try done.
  simpl in Hlen. apply NoDup_cons in Hnd as [Hl0 Hnd].
  rewrite gather_cons, terms_cons. destruct (decide (l0 = l)) as [->|Hne].
  - rewrite lookup_insert_eq. simpl. rewrite IH by (done || lia).
    rewrite (proj2 (terms_lookup_None cs ls l ltac:(lia)) Hl0). simpl.
    by rewrite app_nil_r.
  - rewrite lookup_insert_ne by done. simpl. apply IH; [lia|done].
Qed.

(** The terms of a sum: a label of both operands carries the sum of its two
    coefficients, a label of one operand keeps its coefficient. *)
Lemma OpRepr_add_spec a b :
  OpRepr_wf a -> OpRepr_wf b ->
  exists o, OpRepr_add a b = Some o /\ OpRepr_wf o /\
    OpRepr_terms o
    = union_with (fun x y => Some (CoefRepr_add x y)) (OpRepr_terms a) (OpRepr_terms b).
Proof.
  intros Hwa [Hlb Hnb]. unfold OpRepr_add.
  rewrite OpRepr_add_loop_ctor by done.
  assert (Hwa' : OpRepr_wf (MkOpRepr (coef_repr_list_ a) (op_label_list_ a)))
    by (by destruct a).
  destruct (OpRepr_ctor_loop_spec (op_label_list_ b) (coef_repr_list_ b) _ Hwa'
              ltac:(lia)) as (acc & -> & [Hlacc Hnacc] & Ht).
  simpl. rewrite OpRepr_of_lists_NoDup by done.
  eexists. split; [reflexivity|]. split; [done|].
  apply map_eq. intros l. rewrite lookup_union_with.
  replace (OpRepr_terms (MkOpRepr (coef_repr_list_ acc) (op_label_list_ acc)))
    with (OpRepr_terms acc) by (by destruct acc).
  rewrite Ht. rewrite gather_NoDup by done.
  replace (OpRepr_terms (MkOpRepr (coef_repr_list_ a) (op_label_list_ a)))
    with (OpRepr_terms a) by (by destruct a).
  replace (OpRepr_terms (MkOpRepr (coef_repr_list_ b) (op_label_list_ b)))
    with (OpRepr_terms b) by (by destruct b).
  destruct (OpRepr_terms a !! l) as [[x]|] eqn:Ea,
           (OpRepr_terms b !! l) as [[y]|] eqn:Eb; simpl.
  - done.
  - by rewrite app_nil_r.
  - rewrite decide_True; [done|].
    destruct (decide (l ∈ op_label_list_ b)) as [|Hnin]; [done|].
    apply (terms_lookup_None (coef_repr_list_ b)) in Hnin; [|done].
    destruct b. simpl in *. congruence.
  - rewrite decide_False; [done|]. intros Hin.
    destruct b as [cb lb]. simpl in *.
    apply terms_lookup_None in Eb; done.
Qed.

Lemma coef_agree_refl x : coef_agree x x.
Proof. destruct x; simpl; [by apply CoefRepr_eq_spec|done]. Qed.

Lemma coef_agree_sym x y : coef_agree x y -> coef_agree y x.
Proof.
  destruct x, y; simpl; try done. intros H. apply CoefRepr_eq_spec.
  symmetry. by apply CoefRepr_eq_spec.
Qed.

Lemma coef_agree_trans x y z : coef_agree x y -> coef_agree y z -> coef_agree x z.
Proof.
  destruct x, y, z; simpl; try done. intros H1 H2. apply CoefRepr_eq_spec.
  etrans; by apply CoefRepr_eq_spec.
Qed.

Lemma OpRepr_eq_true a b :
  OpRepr_wf a -> OpRepr_wf b -> OpRepr_equiv a b -> OpRepr_eq a b = Some true.
Proof.
  intros Ha Hb H. destruct (OpRepr_eq_spec a b Ha Hb) as (r & -> & Hr).
  f_equal. by apply Hr.
Qed.

Lemma OpRepr_eq_true_inv a b :
  OpRepr_wf a -> OpRepr_wf b -> OpRepr_eq a b = Some true -> OpRepr_equiv a b.
Proof.
  intros Ha Hb H. destruct (OpRepr_eq_spec a b Ha Hb) as (r & Hr & Hiff).
  apply Hiff. congruence.
Qed.

(** X5. The class invariant holds of every object that a constructor or
    [operator+] returns: one coefficient per label, no label twice.  The
    list constructor needs a coefficient for every label; with fewer
    coefficients than labels it reads past the end of its first argument. *)
Theorem OpRepr_invariant :
  OpRepr_wf kNullOpRepr /\
  (forall l, OpRepr_wf (OpRepr_of_label l)) /\
  (forall c l, OpRepr_wf (OpRepr_of_term c l)) /\
  (forall cs ls,
     ((length ls <= length cs)%nat ->
        exists o, OpRepr_of_lists cs ls = Some o /\ OpRepr_wf o) /\
     ((length cs < length ls)%nat -> OpRepr_of_lists cs ls = None)) /\
  (forall ls, exists o, OpRepr_of_labels ls = Some o /\ OpRepr_wf o) /\
  (forall a b, OpRepr_wf a -> OpRepr_wf b ->
     exists o, OpRepr_add a b = Some o /\ OpRepr_wf o).
Proof.
  split_and!.
  - apply OpRepr_wf_null.
  - intros l. split; [done|]. apply NoDup_singleton.
  - intros c l. split; [done|]. apply NoDup_singleton.
  - intros cs ls. split.
    + intros H. destruct (OpRepr_of_lists_spec cs ls H) as (o & ? & ? & _). eauto.
    + intros H. unfold OpRepr_of_lists.
      by rewrite OpRepr_ctor_loop_fault by (done || apply OpRepr_wf_null).
  - intros ls. destruct (OpRepr_of_lists_spec (replicate (length ls) kIdCoefRepr) ls)
      as (o & ? & ? & _); [by rewrite length_replicate|]. eauto.
  - intros a b Ha Hb. destruct (OpRepr_add_spec a b Ha Hb) as (o & ? & ? & _). eauto.
Qed.

(** X6. The list constructor merges equal labels: the object it builds holds,
    for each label given, one coefficient whose labels are those of all the
    coefficients given for that label, in the order given; it holds nothing
    for any other label. *)
Theorem OpRepr_of_lists_merges cs ls o :
  OpRepr_of_lists cs ls = Some o ->
  forall l, OpRepr_terms o !! l =
    if decide (l ∈ ls) then Some (MkCoefRepr (gather l ls cs)) else None.
Proof.
  intros Ho. destruct (decide (length ls <= length cs)%nat) as [Hle|Hgt].
  - destruct (OpRepr_of_lists_spec cs ls Hle) as (o' & Ho' & _ & Ht).
    rewrite Ho in Ho'. by injection Ho' as <-.
  - unfold OpRepr_of_lists in Ho.
    rewrite OpRepr_ctor_loop_fault in Ho by (lia || apply OpRepr_wf_null). done.
Qed.

(** X7. On well-formed operands [OpRepr::operator==] is defined, and it holds
    exactly when the two operands have the same labels and, label by label,
    coefficients that are equal by [CoefRepr::operator==]. *)
Theorem OpRepr_eq_decides a b :
  OpRepr_wf a -> OpRepr_wf b ->
  exists r, OpRepr_eq a b = Some r /\
    (r = true <->
     op_label_list_ a ≡ₚ op_label_list_ b /\
     forall l, coef_agree (OpRepr_terms a !! l) (OpRepr_terms b !! l)).
Proof.
  intros Ha Hb. destruct (OpRepr_eq_spec a b Ha Hb) as (r & Hr & Hiff).
  exists r. split; [done|]. rewrite Hiff. split.
  - intros H. split; [by apply OpRepr_equiv_labels|exact H].
  - intros [_ H]. exact H.
Qed.

(** X8. On well-formed operands [OpRepr::operator==] is an equivalence
    relation. *)
Theorem OpRepr_eq_equivalence :
  (forall a, OpRepr_wf a -> OpRepr_eq a a = Some true) /\
  (forall a b, OpRepr_wf a -> OpRepr_wf b ->
     OpRepr_eq a b = Some true -> OpRepr_eq b a = Some true) /\
  (forall a b c, OpRepr_wf a -> OpRepr_wf b -> OpRepr_wf c ->
     OpRepr_eq a b = Some true -> OpRepr_eq b c = Some true ->
     OpRepr_eq a c = Some true).
Proof.
  split_and!.
  - intros a Ha. apply OpRepr_eq_true; [done..|]. intros l. apply coef_agree_refl.
  - intros a b Ha Hb H. apply OpRepr_eq_true; [done..|].
    apply OpRepr_eq_true_inv in H; [|done..]. intros l. apply coef_agree_sym, H.
  - intros a b c Ha Hb Hc H1 H2. apply OpRepr_eq_true; [done..|].
    apply OpRepr_eq_true_inv in H1, H2; [|done..]. intros l.
    eapply coef_agree_trans; [apply H1|apply H2].
Qed.

(** X9. The terms of a sum of well-formed operands: a label of both operands
    carries the sum of its two coefficients, the left one first; a label of
    one operand keeps its coefficient; no other label appears. *)
Theorem OpRepr_add_terms a b :
  OpRepr_wf a -> OpRepr_wf b ->
  exists o, OpRepr_add a b = Some o /\
    forall l, OpRepr_terms o !! l =
      match OpRepr_terms a !! l, OpRepr_terms b !! l with
      | Some x, Some y => Some (CoefRepr_add x y)
      | Some x, None => Some x
      | None, Some y => Some y
      | None, None => None
      end.
Proof.
  intros Ha Hb. destruct (OpRepr_add_spec a b Ha Hb) as (o & Ho & _ & Ht).
  exists o. split; [done|]. intros l. rewrite Ht, lookup_union_with.
  by destruct (OpRepr_terms a !! l), (OpRepr_terms b !! l).
Qed.

(** X10. Up to [operator==], [OpRepr::operator+] is commutative and associative
    on well-formed operands, and the null operator is its unit on either
    side, there exactly. *)
Theorem OpRepr_add_monoid :
  (forall a b, OpRepr_wf a -> OpRepr_wf b ->
     exists ab ba, OpRepr_add a b = Some ab /\ OpRepr_add b a = Some ba /\
       OpRepr_eq ab ba = Some true) /\
  (forall a b c, OpRepr_wf a -> OpRepr_wf b -> OpRepr_wf c ->
     exists ab bc l r,
       OpRepr_add a b = Some ab /\ OpRepr_add ab c = Some l /\
       OpRepr_add b c = Some bc /\ OpRepr_add a bc = Some r /\
       OpRepr_eq l r = Some true) /\
  (forall a, OpRepr_wf a ->
     OpRepr_add a kNullOpRepr = Some a /\ OpRepr_add kNullOpRepr a = Some a).
Proof.
  split_and!.
  - intros a b Ha Hb.
    destruct (OpRepr_add_spec a b Ha Hb) as (ab & Hab & Hwab & Htab).
    destruct (OpRepr_add_spec b a Hb Ha) as (ba & Hba & Hwba & Htba).
    exists ab, ba. split_and!; try done. apply OpRepr_eq_true; [done..|].
    intros l. rewrite Htab, Htba, !lookup_union_with.
    destruct (OpRepr_terms a !! l) as [x|], (OpRepr_terms b !! l) as [y|];
      simpl; try done; apply CoefRepr_eq_spec; try done.
    unfold CoefRepr_add, ConcatenateTwoVec. simpl. apply Permutation_app_comm.
  - intros a b c Ha Hb Hc.
    destruct (OpRepr_add_spec a b Ha Hb) as (ab & Hab & Hwab & Htab).
    destruct (OpRepr_add_spec ab c Hwab Hc) as (l & Hl & Hwl & Htl).
    destruct (OpRepr_add_spec b c Hb Hc) as (bc & Hbc & Hwbc & Htbc).
    destruct (OpRepr_add_spec a bc Ha Hwbc) as (r & Hr & Hwr & Htr).
    exists ab, bc, l, r. split_and!; try done. apply OpRepr_eq_true; [done..|].
    intros k. rewrite Htl, Htr, Htab, Htbc, !lookup_union_with.
    destruct (OpRepr_terms a !! k) as [[x]|], (OpRepr_terms b !! k) as [[y]|],
             (OpRepr_terms c !! k) as [[z]|];
      simpl; try done; apply CoefRepr_eq_spec; try done.
    unfold CoefRepr_add, ConcatenateTwoVec. simpl. by rewrite app_assoc.
  - intros [cs ls] [Hlen Hnd]. simpl in *. unfold OpRepr_add. simpl. split.
    + by rewrite OpRepr_of_lists_NoDup.
    + rewrite OpRepr_add_loop_ctor by done.
      rewrite OpRepr_ctor_loop_NoDup by done. simpl.
      by rewrite OpRepr_of_lists_NoDup.
Qed.

(** ** [SeparateCoefAndBase] and [CoefReprOpReprIncompleteMulti] *)

Lemma OpRepr_eq_null op :
  OpRepr_eq op kNullOpRepr
  = Some (match op_label_list_ op with [] => true | _ :: _ => false end).
Proof. unfold OpRepr_eq. by destruct (op_label_list_ op). Qed.

Lemma coef_differs_false coef rest :
  coef_differs coef rest = false <->
  Forall (fun coef1 => CoefRepr_eq coef1 coef = true) rest.
Proof.
  induction rest as [|c rest IH]; simpl; [by split|]. unfold CoefRepr_ne.
  rewrite Forall_cons. destruct (CoefRepr_eq c coef); simpl.
  - rewrite IH. tauto.
  - split; [done|]. by intros [? _].
Qed.

Lemma has_non_id_false coefs :
  has_non_id coefs = false <->
  Forall (fun c => CoefRepr_eq c kIdCoefRepr = true) coefs.
Proof.
  induction coefs as [|c coefs IH]; simpl; [by split|]. unfold CoefRepr_ne.
  rewrite Forall_cons. destruct (CoefRepr_eq c kIdCoefRepr); simpl.
  - rewrite IH. tauto.
  - split; [done|]. by intros [? _].
Qed.

Lemma OpRepr_equiv_pointwise cs cs' ls :
  length cs = length ls -> length cs' = length ls -> NoDup ls ->
  (forall i c c', cs !! i = Some c -> cs' !! i = Some c' -> CoefRepr_eq c c' = true) ->
  OpRepr_equiv (MkOpRepr cs ls) (MkOpRepr cs' ls).
Proof.
  intros Hlen Hlen' Hnd H l.
  destruct (decide (l ∈ ls)) as [Hin|Hnin].
  - apply list_elem_of_lookup in Hin as [i Hi].
    destruct (lookup_lt_is_Some_2 cs i) as [c Hc];
      [rewrite Hlen; eapply lookup_lt_Some, Hi|].
    destruct (lookup_lt_is_Some_2 cs' i) as [c' Hc'];
      [rewrite Hlen'; eapply lookup_lt_Some, Hi|].
    rewrite (proj2 (terms_lookup_Some cs ls l c Hlen Hnd)) by eauto.
    rewrite (proj2 (terms_lookup_Some cs' ls l c' Hlen' Hnd)) by eauto.
    simpl. eauto.
  - rewrite (proj2 (terms_lookup_None cs ls l Hlen) Hnin).
    by rewrite (proj2 (terms_lookup_None cs' ls l Hlen') Hnin).
Qed.

Lemma CoefRepr_eq_sym a b : CoefRepr_eq a b = true -> CoefRepr_eq b a = true.
Proof. intros H. apply CoefRepr_eq_spec. symmetry. by apply CoefRepr_eq_spec. Qed.

Lemma CoefRepr_eq_trans a b c :
  CoefRepr_eq a b = true -> CoefRepr_eq b c = true -> CoefRepr_eq a c = true.
Proof. intros H1 H2. apply CoefRepr_eq_spec. etrans; by apply CoefRepr_eq_spec. Qed.

Lemma CoefRepr_eq_refl a : CoefRepr_eq a a = true.
Proof. by apply CoefRepr_eq_spec. Qed.

Lemma has_non_id_replicate n : has_non_id (replicate n kIdCoefRepr) = false.
Proof.
  apply has_non_id_false, Forall_replicate, CoefRepr_eq_refl.
Qed.

(** X11. Splitting an operator into a coefficient and a base and multiplying
    the two gives the operator back: for a well-formed [op],
    [SeparateCoefAndBase] returns a coefficient and a well-formed base on
    which [CoefReprOpReprIncompleteMulti] does not exit and returns an
    operator equal to [op] by [operator==]. *)
Theorem Separate_then_Multi op :
  OpRepr_wf op ->
  exists coef base o,
    SeparateCoefAndBase op = Some (coef, base) /\ OpRepr_wf base /\
    CoefReprOpReprIncompleteMulti coef base = Value o /\
    OpRepr_wf o /\ OpRepr_eq o op = Some true.
Proof.
  destruct op as [cs ls]. intros Hwf. pose proof Hwf as [Hlen Hnd]. simpl in *.
  destruct cs as [|c0 [|c1 cs]].
  - destruct ls; [|done]. exists kNullCoefRepr, kNullOpRepr, kNullOpRepr.
    split_and!; try done; apply OpRepr_wf_null.
  - destruct ls as [|l0 [|]]; try done.
    exists c0, (OpRepr_of_label l0). unfold CoefReprOpReprIncompleteMulti.
    rewrite OpRepr_eq_null. simpl.
    assert (Hb : OpRepr_wf (OpRepr_of_label l0))
      by (split; [done|apply NoDup_singleton]).
    destruct (CoefRepr_eq c0 kIdCoefRepr) eqn:Hc.
    + eexists. split_and!; try done. apply OpRepr_eq_true; [done..|].
      apply OpRepr_equiv_pointwise; try done.
      intros [|i] c c'; simpl; [|done]. intros [= <-] [= <-].
      by apply CoefRepr_eq_sym.
    + unfold OpRepr_of_lists. simpl. eexists. split_and!; try done.
      apply OpRepr_eq_true; [done..|]. intros l. apply coef_agree_refl.
  - destruct ls as [|l0 [|l1 ls]]; try done.
    unfold SeparateCoefAndBase. simpl.
    destruct (CoefRepr_ne c1 c0 || coef_differs c0 cs) eqn:Hd.
    + assert (Hd' : (if CoefRepr_ne c1 c0 then true else coef_differs c0 cs) = true)
        by (by destruct (CoefRepr_ne c1 c0)).
      rewrite Hd'. eexists _, _, _. split; [reflexivity|]. split; [done|].
      unfold CoefReprOpReprIncompleteMulti. rewrite OpRepr_eq_null. simpl.
      split; [reflexivity|]. split; [done|].
      apply OpRepr_eq_true; [done..|]. intros l. apply coef_agree_refl.
    + apply orb_false_iff in Hd as [Hd1 Hd2]. rewrite Hd1, Hd2.
      unfold OpRepr_of_labels.
      rewrite OpRepr_of_lists_NoDup by (by rewrite ?length_replicate).
      simpl.
      assert (Hall : forall i c, (c0 :: c1 :: cs) !! i = Some c ->
                CoefRepr_eq c c0 = true).
      { intros [|[|i]] c; simpl.
        - intros [= <-]. apply CoefRepr_eq_refl.
        - intros [= <-]. unfold CoefRepr_ne in Hd1. by apply negb_false_iff in Hd1.
        - intros Hi. apply coef_differs_false in Hd2.
          eapply (proj1 (Forall_lookup _ _) Hd2), Hi. }
      change (kIdCoefRepr :: kIdCoefRepr :: replicate (length ls) kIdCoefRepr)
        with (replicate (length (l0 :: l1 :: ls)) kIdCoefRepr).
      set (n := length (l0 :: l1 :: ls)).
      assert (Hb : OpRepr_wf (MkOpRepr (replicate n kIdCoefRepr) (l0 :: l1 :: ls)))
        by (split; [simpl; by rewrite length_replicate|done]).
      exists c0, (MkOpRepr (replicate n kIdCoefRepr) (l0 :: l1 :: ls)).
      unfold CoefReprOpReprIncompleteMulti. rewrite OpRepr_eq_null.
      cbn [op_label_list_ coef_repr_list_].
      destruct (CoefRepr_eq c0 kIdCoefRepr) eqn:Hc.
      * eexists. split; [reflexivity|]. split; [exact Hb|].
        split; [reflexivity|]. split; [exact Hb|].
        apply OpRepr_eq_true; [done..|].
        apply OpRepr_equiv_pointwise; [by rewrite ?length_replicate..|].
        intros i c c' Hi Hi'. apply lookup_replicate in Hi as [-> _].
        apply CoefRepr_eq_sym. eapply CoefRepr_eq_trans; [eapply Hall, Hi'|done].
      * rewrite has_non_id_replicate, length_replicate.
        rewrite OpRepr_of_lists_NoDup by (by rewrite ?length_replicate).
        assert (Ho : OpRepr_wf (MkOpRepr (replicate n c0) (l0 :: l1 :: ls)))
          by (split; [simpl; by rewrite length_replicate|done]).
        eexists. split; [reflexivity|]. split; [exact Hb|].
        split; [reflexivity|]. split; [exact Ho|].
        apply OpRepr_eq_true; [done..|].
        apply OpRepr_equiv_pointwise; [by rewrite ?length_replicate..|].
        intros i c c' Hi Hi'. apply lookup_replicate in Hi as [-> _].
        apply CoefRepr_eq_sym. eapply Hall, Hi'.
Qed.

(** X12. Multiplying a coefficient onto a bare sum of different operators and
    splitting the product gives the coefficient and the sum back: the
    product is defined, and [SeparateCoefAndBase] returns the same base
    and a coefficient equal to the one multiplied by [operator==]. *)
Theorem Multi_then_Separate (coef : CoefRepr) (ls : list OpLabel) :
  NoDup ls -> ls <> [] ->
  exists base o coef',
    OpRepr_of_labels ls = Some base /\
    CoefReprOpReprIncompleteMulti coef base = Value o /\
    SeparateCoefAndBase o = Some (coef', base) /\
    GetOpReprCoef o = Some coef' /\
    CoefRepr_eq coef' coef = true.
Proof.
  intros Hnd Hne. unfold OpRepr_of_labels.
  rewrite OpRepr_of_lists_NoDup by (by rewrite ?length_replicate).
  exists (MkOpRepr (replicate (length ls) kIdCoefRepr) ls).
  assert (Hsep : forall c, CoefRepr_eq c c = true ->
    SeparateCoefAndBase (MkOpRepr (replicate (length ls) c) ls)
    = Some (c, MkOpRepr (replicate (length ls) kIdCoefRepr) ls)).
  { intros c Hc. unfold SeparateCoefAndBase.
    destruct ls as [|l0 [|l1 ls']]; [done|done|].
    cbn [coef_repr_list_ op_label_list_ length replicate Nat.eqb lookup
         list_lookup drop mbind option_bind].
    assert (Hd : coef_differs c (c :: replicate (length ls') c) = false).
    { apply coef_differs_false. apply Forall_cons. split; [done|].
      by apply Forall_replicate. }
    rewrite Hd. unfold OpRepr_of_labels.
    rewrite OpRepr_of_lists_NoDup by (by rewrite ?length_replicate). done. }
  unfold CoefReprOpReprIncompleteMulti, GetOpReprCoef.
  rewrite OpRepr_eq_null. cbn [op_label_list_ coef_repr_list_].
  destruct ls as [|l0 ls']; [done|].
  destruct (CoefRepr_eq coef kIdCoefRepr) eqn:Hc.
  - exists (MkOpRepr (replicate (length (l0 :: ls')) kIdCoefRepr) (l0 :: ls')),
      kIdCoefRepr.
    rewrite Hsep by done. split_and!; try done. by apply CoefRepr_eq_sym.
  - rewrite has_non_id_replicate, length_replicate.
    rewrite OpRepr_of_lists_NoDup by (by rewrite ?length_replicate).
    exists (MkOpRepr (replicate (length (l0 :: ls')) coef) (l0 :: ls')), coef.
    rewrite Hsep by apply CoefRepr_eq_refl.
    split_and!; try done. apply CoefRepr_eq_refl.
Qed.

(** X13. How [CoefReprOpReprIncompleteMulti] ends on a well-formed operator: it
    is never undefined; it calls [exit(1)] exactly when the operator is not
    null, the coefficient is not the identity and some coefficient of the
    operator is not the identity; a null operator gives the null operator,
    the identity coefficient gives the operator itself, and every value it
    returns is well-formed. *)
Theorem Multi_outcome (coef : CoefRepr) (op : OpRepr) :
  OpRepr_wf op ->
  (op_label_list_ op = [] ->
     CoefReprOpReprIncompleteMulti coef op = Value kNullOpRepr) /\
  (op_label_list_ op <> [] -> CoefRepr_eq coef kIdCoefRepr = true ->
     CoefReprOpReprIncompleteMulti coef op = Value op) /\
  (CoefReprOpReprIncompleteMulti coef op = Exit 1 <->
     op_label_list_ op <> [] /\ CoefRepr_eq coef kIdCoefRepr = false /\
     exists c, c ∈ coef_repr_list_ op /\ CoefRepr_eq c kIdCoefRepr = false) /\
  CoefReprOpReprIncompleteMulti coef op <> Undefined /\
  (forall o, CoefReprOpReprIncompleteMulti coef op = Value o -> OpRepr_wf o).
Proof.
  destruct op as [cs ls]. intros Hwf. pose proof Hwf as [Hlen Hnd]. simpl in *.
  unfold CoefReprOpReprIncompleteMulti. rewrite OpRepr_eq_null. simpl.
  destruct ls as [|l0 ls].
  { split_and!; try done.
    - split; [done|]. by intros [? _].
    - intros o [= <-]. apply OpRepr_wf_null. }
  destruct (CoefRepr_eq coef kIdCoefRepr) eqn:Hc.
  { split_and!; try done.
    - split; [done|]. by intros (_ & ? & _).
    - by intros o [= <-]. }
  destruct (has_non_id cs) eqn:Hn.
  - split_and!; try done.
    + split; [|done]. intros _. split; [done|]. split; [done|].
      destruct (decide (Forall (fun c => CoefRepr_eq c kIdCoefRepr = true) cs))
        as [HF|HF]; [apply has_non_id_false in HF; congruence|].
      apply not_Forall_Exists in HF; [|solve_decision].
      apply Exists_exists in HF as (c & Hin & Hcn). exists c. split; [done|].
      simpl in Hcn. by destruct (CoefRepr_eq c kIdCoefRepr).
  - rewrite OpRepr_of_lists_NoDup by (by rewrite ?length_replicate).
    split_and!; try done.
    + split; [done|]. intros (_ & _ & c & Hin & Hcn).
      apply has_non_id_false in Hn.
      apply (proj1 (Forall_forall _ _) Hn) in Hin. congruence.
    + intros o [= <-]. split; [simpl; by rewrite length_replicate|done].
Qed.

End CoefOpAlgFacts.

(* ===================================================================== *)
(** * mps.h : element access, canonicalisation, dump and load              *)
(* ===================================================================== *)

Module MpsFacts.
Import Mps.
Local Open Scope mps_scope.

Section Facts.
Context `{TL : TensorLib} `{CS : Consts}.
Implicit Types (m : MPS) (d : Disk) (i j idx : nat).

(** Unfolding of the monad's plumbing. *)
Ltac mstep :=
  cbv beta iota delta [bind ret fault get_mps put_mps get_disk put_disk
                       set_center fst snd raw_data_ center_ tens_cano_type_].

Lemma set_cano_run m d i c :
  (i < length (tens_cano_type_ m))%nat ->
  set_cano i c (m, d) = Some (tt, (with_cano i c m, d)).
Proof.
  intros Hi. unfold set_cano, bind, get_mps, put_mps. simpl.
  rewrite decide_True by exact Hi. reflexivity.
Qed.

Lemma set_raw_run m d i p :
  (i < length (raw_data_ m))%nat ->
  set_raw i p (m, d) = Some (tt, (with_raw i p m, d)).
Proof.
  intros Hi. unfold set_raw, bind, get_mps, put_mps. simpl.
  rewrite decide_True by exact Hi. reflexivity.
Qed.

Lemma op_paren_run m d idx :
  wf m -> (idx < size m)%nat ->
  op_paren idx (m, d) = Some (idx, (touch idx m, d)).
Proof.
  intros Hwf Hi. unfold op_paren, bind at 1.
  rewrite set_cano_run by (rewrite (proj1 Hwf); exact Hi).
  unfold DuoVector_paren. mstep.
  destruct (lookup_lt_is_Some_2 (raw_data_ m) idx Hi) as [x Hx].
  destruct m; simpl in *. rewrite Hx. reflexivity.
Qed.

Lemma op_bracket_run m d idx t :
  wf m -> raw_data_ m !! idx = Some (Some t) ->
  op_bracket idx (m, d) = Some (idx, (touch idx m, d)).
Proof.
  intros Hwf Hi. unfold op_bracket, bind at 1.
  rewrite set_cano_run by (rewrite (proj1 Hwf); eapply lookup_lt_Some, Hi).
  unfold DuoVector_bracket. mstep.
  destruct m; simpl in *. rewrite Hi. reflexivity.
Qed.

Lemma op_bracket_run_null m d idx :
  wf m -> raw_data_ m !! idx = Some None ->
  op_bracket idx (m, d) =
    Some (idx, (with_raw idx (Some default_ten) (touch idx m), d)).
Proof.
  intros Hwf Hi. unfold op_bracket, bind at 1.
  rewrite set_cano_run by (rewrite (proj1 Hwf); eapply lookup_lt_Some, Hi).
  unfold DuoVector_bracket. mstep.
  destruct m; simpl in *. rewrite Hi. unfold set_raw. mstep.
  rewrite decide_True by (eapply lookup_lt_Some, Hi). reflexivity.
Qed.

Lemma deref_run m d r t :
  raw_data_ m !! r = Some (Some t) -> deref r (m, d) = Some (t, (m, d)).
Proof. intros Hr. unfold deref. mstep. destruct m; simpl in *. rewrite Hr. reflexivity. Qed.

Lemma wf_touch idx m : wf m -> wf (touch idx m).
Proof. unfold wf, touch. simpl. rewrite length_insert. tauto. Qed.

Lemma size_touch idx m : size (touch idx m) = size m.
Proof. reflexivity. Qed.

(** C7. For every MPS and every valid index [idx]: the non-const
    [operator[]] and [operator()] set the canonical type of position [idx]
    to [NONE] and the center to the uncentralized sentinel, and leave the
    canonical types of the other positions as they are.  Neither changes a
    site tensor: every tensor that a site holds before the access is held
    by the same site afterwards, and no slot other than [idx] is written.
    [operator()] leaves the storage as it is; so does [operator[]] at a
    site that holds a tensor; at a site that holds none, [operator[]]
    hands out a fresh empty tensor in that slot, since a reference has to
    refer to something.  The const [operator[]] and [operator()] leave the
    whole object as it is. *)
Theorem element_access_frame m d idx :
  wf m -> (idx < size m)%nat ->
  (exists m1, op_bracket idx (m, d) = Some (idx, (m1, d)) /\
     nonconst_access_post idx m m1 /\
     (forall j t, raw_data_ m !! j = Some (Some t) ->
        raw_data_ m1 !! j = Some (Some t)) /\
     (forall j, j <> idx -> raw_data_ m1 !! j = raw_data_ m !! j) /\
     (forall t, raw_data_ m !! idx = Some (Some t) -> raw_data_ m1 = raw_data_ m) /\
     (raw_data_ m !! idx = Some None ->
        raw_data_ m1 = <[idx := Some default_ten]> (raw_data_ m))) /\
  (exists m2, op_paren idx (m, d) = Some (idx, (m2, d)) /\
     nonconst_access_post idx m m2 /\
     raw_data_ m2 = raw_data_ m) /\
  op_bracket_const idx (m, d) = Some (idx, (m, d)) /\
  op_paren_const idx (m, d) = Some (idx, (m, d)).
Proof.
  intros Hwf Hi.
  assert (Hpost : forall raw, nonconst_access_post idx m
            (MkMPS raw kUncentralizedCenterIdx (<[idx:=NONE]> (tens_cano_type_ m)))).
  { intros raw. unfold nonconst_access_post. simpl. split; [reflexivity|]. split.
    - apply list_lookup_insert_eq. rewrite (proj1 Hwf). exact Hi.
    - intros j Hj. apply list_lookup_insert_ne. congruence. }
  destruct (lookup_lt_is_Some_2 (raw_data_ m) idx Hi) as [[t|] Hx].
  - repeat split.
    + exists (touch idx m). rewrite (op_bracket_run _ _ _ t) by assumption.
      split; [reflexivity|]. split; [apply Hpost|].
      split_and!; try reflexivity; [by intros j t' Hj|congruence].
    + exists (touch idx m). rewrite op_paren_run by assumption.
      split; [reflexivity|]. split; [apply Hpost|reflexivity].
    + unfold op_bracket_const, DuoVector_bracket_const. mstep.
      destruct m; simpl in *. rewrite Hx. reflexivity.
    + unfold op_paren_const, DuoVector_paren. mstep.
      destruct m; simpl in *. rewrite Hx. reflexivity.
  - repeat split.
    + eexists. rewrite op_bracket_run_null by assumption.
      split; [reflexivity|]. split; [apply Hpost|]. split_and!.
      * intros j t Hj. simpl. rewrite list_lookup_insert_ne; [done|].
        intros <-. congruence.
      * intros j Hj. simpl. apply list_lookup_insert_ne. congruence.
      * intros t Ht. congruence.
      * reflexivity.
    + exists (touch idx m). rewrite op_paren_run by assumption.
      split; [reflexivity|]. split; [apply Hpost|reflexivity].
    + unfold op_bracket_const, DuoVector_bracket_const. mstep.
      destruct m; simpl in *. rewrite Hx. reflexivity.
    + unfold op_paren_const, DuoVector_paren. mstep.
      destruct m; simpl in *. rewrite Hx. reflexivity.
Qed.

(** ** Canonicalisation *)

Lemma wf_with_raw i p m : wf m -> wf (with_raw i p m).
Proof. unfold wf, with_raw. simpl. rewrite length_insert. tauto. Qed.

Lemma wf_with_cano i c m : wf m -> wf (with_cano i c m).
Proof. unfold wf, with_cano. simpl. rewrite length_insert. tauto. Qed.

Lemma resident_touch i m : resident m -> resident (touch i m).
Proof. exact (fun H => H). Qed.

Lemma resident_with_cano i c m : resident m -> resident (with_cano i c m).
Proof. exact (fun H => H). Qed.

Lemma resident_with_raw i t m : resident m -> resident (with_raw i (Some t) m).
Proof.
  unfold resident, with_raw. simpl. intros H j Hj. rewrite length_insert in Hj.
  destruct (decide (i = j)) as [->|Hne].
  - exists t. apply list_lookup_insert_eq, Hj.
  - rewrite list_lookup_insert_ne by exact Hne. apply H, Hj.
Qed.

Lemma resident_lookup m i :
  resident m -> (i < size m)%nat -> exists t, raw_data_ m !! i = Some (Some t).
Proof. intros H Hi. apply H, Hi. Qed.

#[local] Hint Resolve wf_touch wf_with_raw wf_with_cano resident_touch
  resident_with_cano resident_with_raw : mps.

(** One step of a straight-line member function: run the first command with
    the lemma [L]. *)
Ltac mside :=
  solve [ eauto 40 with mps
        | unfold size in *; simpl; rewrite ?length_insert; lia
        | simpl; eassumption ].
Tactic Notation "mrun" open_constr(L) :=
  unfold bind at 1; rewrite L; [| try mside ..].

Lemma LeftCanonicalizeTen__run m d i :
  wf m -> resident m -> (S i < size m)%nat ->
  exists m', LeftCanonicalizeTen_ i (m, d) = Some (tt, (m', d)) /\
    wf m' /\ resident m' /\ size m' = size m /\
    tens_cano_type_ m' = <[S i:=NONE]> (<[i:=LEFT]> (tens_cano_type_ m)) /\
    (forall PL PR, SVD_gives PL PR -> cano_sound PL PR m -> cano_sound PL PR m') /\
    (forall j, j <> i -> j <> S i -> raw_data_ m' !! j = raw_data_ m !! j).
Proof.
  intros Hwf Hres Hi.
  destruct (resident_lookup m i Hres ltac:(lia)) as [t Ht].
  destruct (resident_lookup m (S i) Hres Hi) as [tn Htn].
  unfold LeftCanonicalizeTen_.
  unfold bind at 1. unfold get_mps at 1. cbv beta iota. unfold fst at 1.
  unfold bind at 1. unfold assert_.
  replace (Z.of_nat i <? wrap64 (Z.of_nat (size m) - 1)) with true.
  2:{ symmetry. apply Z.ltb_lt. unfold wrap64. destruct Hwf as [_ Hb].
      unfold size in *. rewrite Z.mod_small by lia. lia. }
  unfold ret at 1. cbv beta iota.
  mrun op_paren_run.
  mrun (op_bracket_run _ _ _ t).
  mrun (deref_run _ _ _ t).
  mrun (deref_run _ _ _ t).
  destruct (SVD t _ _) as [[pu s] vt] eqn:Hsvd.
  mrun op_paren_run. mrun op_paren_run.
  unfold ptr_assign. mrun set_raw_run.
  replace (i + 1)%nat with (S i) by lia.
  mrun op_paren_run.
  mrun (deref_run _ _ _ tn).
  2:{ simpl. rewrite list_lookup_insert_ne by lia. exact Htn. }
  mrun op_paren_run. mrun op_paren_run.
  mrun set_raw_run.
  mrun set_cano_run.
  2:{ destruct Hwf. simpl. rewrite !length_insert. unfold size in *. lia. }
  rewrite set_cano_run.
  2:{ destruct Hwf. simpl. rewrite !length_insert. unfold size in *. lia. }
  eexists. split; [reflexivity|].
  split; [eauto 20 with mps|]. split; [eauto 20 with mps|].
  split; [unfold size; simpl; by rewrite !length_insert|].
  split; [|split].
  - simpl. apply list_eq. intros j.
    rewrite !list_lookup_insert, !length_insert.
    repeat case_decide; try reflexivity; lia.
  - intros PL PR HS Hs j t' Hj.
    match type of Hsvd with
    | SVD ?x ?l ?q = _ => destruct (HS x l q) as [Hu _]; rewrite Hsvd in Hu
    end.
    simpl in Hj |- *. simpl in Hu.
    rewrite !list_lookup_insert, !length_insert in Hj.
    rewrite !list_lookup_insert, !length_insert.
    destruct Hwf as [Hlen Hlt]. unfold size in Hi.
    repeat case_decide; try lia; split; intros Hx;
      try discriminate Hx; try congruence;
      first [exact (proj1 (Hs j t' Hj) Hx) | exact (proj2 (Hs j t' Hj) Hx)].
  - intros j Hj1 Hj2. simpl. by rewrite !list_lookup_insert_ne by lia.
Qed.

Lemma RightCanonicalizeTen__run m d i :
  wf m -> resident m -> (0 < i < size m)%nat ->
  exists m', RightCanonicalizeTen_ i (m, d) = Some (tt, (m', d)) /\
    wf m' /\ resident m' /\ size m' = size m /\
    tens_cano_type_ m' = <[(i - 1)%nat:=NONE]> (<[i:=RIGHT]> (tens_cano_type_ m)) /\
    (forall PL PR, SVD_gives PL PR -> cano_sound PL PR m -> cano_sound PL PR m') /\
    (forall j, j <> i -> j <> (i - 1)%nat -> raw_data_ m' !! j = raw_data_ m !! j).
Proof.
  intros Hwf Hres Hi.
  destruct (resident_lookup m i Hres ltac:(lia)) as [t Ht].
  destruct (resident_lookup m (i - 1) Hres ltac:(lia)) as [tp Htp].
  unfold RightCanonicalizeTen_.
  unfold bind at 1. unfold assert_.
  replace (0 <? i)%nat with true by (symmetry; apply Nat.ltb_lt; lia).
  unfold ret at 1. cbv beta iota.
  mrun (op_bracket_run _ _ _ t).
  mrun (deref_run _ _ _ t).
  mrun op_paren_run.
  mrun (deref_run _ _ _ t).
  destruct (SVD t _ _) as [[u s] pvt] eqn:Hsvd.
  mrun op_paren_run. mrun op_paren_run.
  unfold ptr_assign. mrun set_raw_run.
  mrun op_paren_run.
  mrun (deref_run _ _ _ tp).
  2:{ simpl. rewrite list_lookup_insert_ne by lia. exact Htp. }
  mrun op_paren_run. mrun op_paren_run.
  mrun set_raw_run.
  mrun set_cano_run.
  2:{ destruct Hwf. simpl. rewrite !length_insert. unfold size in *. lia. }
  rewrite set_cano_run.
  2:{ destruct Hwf. simpl. rewrite !length_insert. unfold size in *. lia. }
  eexists. split; [reflexivity|].
  split; [eauto 20 with mps|]. split; [eauto 20 with mps|].
  split; [unfold size; simpl; by rewrite !length_insert|].
  split; [|split].
  - simpl. apply list_eq. intros j.
    rewrite !list_lookup_insert, !length_insert.
    repeat case_decide; try reflexivity; lia.
  - intros PL PR HS Hs j t' Hj.
    match type of Hsvd with
    | SVD ?x ?l ?q = _ => destruct (HS x l q) as [_ Hv]; rewrite Hsvd in Hv
    end.
    simpl in Hj |- *. simpl in Hv.
    rewrite !list_lookup_insert, !length_insert in Hj.
    rewrite !list_lookup_insert, !length_insert.
    destruct Hwf as [Hlen Hlt]. unfold size in Hi.
    repeat case_decide; try lia; split; intros Hx;
      try discriminate Hx; try congruence;
      first [exact (proj1 (Hs j t' Hj) Hx) | exact (proj2 (Hs j t' Hj) Hx)].
  - intros j Hj1 Hj2. simpl. by rewrite !list_lookup_insert_ne by lia.
Qed.

Lemma get_cano_run m d i c :
  tens_cano_type_ m !! i = Some c -> get_cano i (m, d) = Some (c, (m, d)).
Proof. intros H. unfold get_cano. mstep. destruct m; simpl in *. by rewrite H. Qed.

(** The first loop of either pass only reads. *)
Lemma left_scan_run m d i n :
  (i + n < length (tens_cano_type_ m))%nat ->
  exists sc, left_scan i n (m, d) = Some (sc, (m, d)) /\
    match sc with
    | AllCanonical =>
        forall j, (i <= j <= i + n)%nat -> tens_cano_type_ m !! j = Some LEFT
    | StartAt s =>
        (i <= s <= i + n)%nat /\
        tens_cano_type_ m !! s <> Some LEFT /\
        forall j, (i <= j < s)%nat -> tens_cano_type_ m !! j = Some LEFT
    end.
Proof.
  revert i. induction n as [|n IH]; intros i Hi;
    destruct (lookup_lt_is_Some_2 (tens_cano_type_ m) i ltac:(lia)) as [c Hc];
    simpl; unfold bind at 1; rewrite (get_cano_run _ _ _ c Hc);
    destruct (decide (c <> LEFT)) as [Hne|Heq%dec_stable].
  - exists (StartAt i). split; [reflexivity|]. split; [lia|].
    split; [congruence|]. intros j Hj. lia.
  - exists AllCanonical. split; [reflexivity|]. intros j Hj.
    replace j with i by lia. by subst c.
  - exists (StartAt i). split; [reflexivity|]. split; [lia|].
    split; [congruence|]. intros j Hj. lia.
  - destruct (IH (S i) ltac:(lia)) as (sc & -> & Hsc). exists sc.
    split; [reflexivity|]. subst c. destruct sc as [|s].
    + intros j Hj. destruct (decide (j = i)) as [->|]; [exact Hc|apply Hsc; lia].
    + destruct Hsc as (Hs & Hns & Hsc). split; [lia|]. split; [exact Hns|].
      intros j Hj.
      destruct (decide (j = i)) as [->|]; [exact Hc|apply Hsc; lia].
Qed.

Lemma right_scan_run m d i n :
  (n <= i < length (tens_cano_type_ m))%nat ->
  exists sc, right_scan i n (m, d) = Some (sc, (m, d)) /\
    match sc with
    | AllCanonical =>
        forall j, (i - n <= j <= i)%nat -> tens_cano_type_ m !! j = Some RIGHT
    | StartAt s =>
        (i - n <= s <= i)%nat /\
        tens_cano_type_ m !! s <> Some RIGHT /\
        forall j, (s < j <= i)%nat -> tens_cano_type_ m !! j = Some RIGHT
    end.
Proof.
  revert i. induction n as [|n IH]; intros i Hi;
    destruct (lookup_lt_is_Some_2 (tens_cano_type_ m) i ltac:(lia)) as [c Hc];
    simpl; unfold bind at 1; rewrite (get_cano_run _ _ _ c Hc);
    destruct (decide (c <> RIGHT)) as [Hne|Heq%dec_stable].
  - exists (StartAt i). split; [reflexivity|]. split; [lia|].
    split; [congruence|]. intros j Hj. lia.
  - exists AllCanonical. split; [reflexivity|]. intros j Hj.
    replace j with i by lia. by subst c.
  - exists (StartAt i). split; [reflexivity|]. split; [lia|].
    split; [congruence|]. intros j Hj. lia.
  - destruct (IH (i - 1)%nat ltac:(lia)) as (sc & -> & Hsc). exists sc.
    split; [reflexivity|]. subst c. destruct sc as [|s].
    + intros j Hj. destruct (decide (j = i)) as [->|]; [exact Hc|apply Hsc; lia].
    + destruct Hsc as (Hs & Hns & Hsc). split; [lia|]. split; [exact Hns|].
      intros j Hj.
      destruct (decide (j = i)) as [->|]; [exact Hc|apply Hsc; lia].
Qed.

(** The second loop of the left pass. *)
Lemma left_loop_run m d start count :
  wf m -> resident m -> (start + count < size m)%nat ->
  exists m', for_up start count LeftCanonicalizeTen_ (m, d) = Some (tt, (m', d)) /\
    wf m' /\ resident m' /\ size m' = size m /\
    (forall j, (start <= j < start + count)%nat ->
       tens_cano_type_ m' !! j = Some LEFT) /\
    (forall j, (j < start \/ start + count < j)%nat ->
       tens_cano_type_ m' !! j = tens_cano_type_ m !! j) /\
    (forall PL PR, SVD_gives PL PR -> cano_sound PL PR m -> cano_sound PL PR m') /\
    (forall j, (j < start \/ start + count < j)%nat ->
       raw_data_ m' !! j = raw_data_ m !! j).
Proof.
  revert m start. induction count as [|count IH]; intros m start Hwf Hres Hb.
  - exists m. simpl. split_and!; try done. intros j Hj. lia.
  - simpl. unfold bind at 1.
    destruct (LeftCanonicalizeTen__run m d start Hwf Hres ltac:(lia))
      as (m1 & -> & Hwf1 & Hres1 & Hsz1 & Hc1 & Hs1 & Hf1).
    destruct (IH m1 (S start) Hwf1 Hres1 ltac:(lia))
      as (m2 & -> & Hwf2 & Hres2 & Hsz2 & HL & HO & Hs2 & Hf2).
    exists m2. split_and!; try done; try lia; [| |by eauto|];
      [| |intros j Hj; rewrite Hf2 by lia; apply Hf1; lia].
    + intros j Hj. destruct (decide (j = start)) as [->|Hne].
      * rewrite HO by lia. rewrite Hc1.
        rewrite list_lookup_insert_ne by lia.
        apply list_lookup_insert_eq. destruct Hwf as [-> _]. unfold size in Hb. lia.
      * apply HL. lia.
    + intros j Hj. rewrite HO by lia. rewrite Hc1.
      rewrite !list_lookup_insert_ne by lia. reflexivity.
Qed.

(** The second loop of the right pass. *)
Lemma right_loop_run m d start count :
  wf m -> resident m -> (count <= start < size m)%nat ->
  exists m', for_down start count RightCanonicalizeTen_ (m, d) = Some (tt, (m', d)) /\
    wf m' /\ resident m' /\ size m' = size m /\
    (forall j, (start - count < j <= start)%nat ->
       tens_cano_type_ m' !! j = Some RIGHT) /\
    (forall j, (start < j \/ S j < start + 1 - count)%nat ->
       tens_cano_type_ m' !! j = tens_cano_type_ m !! j) /\
    (forall PL PR, SVD_gives PL PR -> cano_sound PL PR m -> cano_sound PL PR m') /\
    (forall j, (start < j \/ S j < start + 1 - count)%nat ->
       raw_data_ m' !! j = raw_data_ m !! j).
Proof.
  revert m start. induction count as [|count IH]; intros m start Hwf Hres Hb.
  - exists m. simpl. split_and!; try done. intros j Hj. lia.
  - simpl. unfold bind at 1.
    destruct (RightCanonicalizeTen__run m d start Hwf Hres ltac:(lia))
      as (m1 & -> & Hwf1 & Hres1 & Hsz1 & Hc1 & Hs1 & Hf1).
    destruct (IH m1 (start - 1)%nat Hwf1 Hres1 ltac:(lia))
      as (m2 & -> & Hwf2 & Hres2 & Hsz2 & HR & HO & Hs2 & Hf2).
    exists m2. split_and!; try done; try lia; [| |by eauto|];
      [| |intros j Hj; rewrite Hf2 by lia; apply Hf1; lia].
    + intros j Hj. destruct (decide (j = start)) as [->|Hne].
      * rewrite HO by lia. rewrite Hc1.
        rewrite list_lookup_insert_ne by lia.
        apply list_lookup_insert_eq. destruct Hwf as [-> _]. unfold size in Hb. lia.
      * apply HR. lia.
    + intros j Hj. rewrite HO by lia. rewrite Hc1.
      rewrite !list_lookup_insert_ne by lia. reflexivity.
Qed.

Lemma LeftCanonicalize__run m d stop :
  wf m -> resident m -> (S stop < size m)%nat ->
  exists m', LeftCanonicalize_ stop (m, d) = Some (tt, (m', d)) /\
    wf m' /\ resident m' /\ size m' = size m /\
    (forall j, (j <= stop)%nat -> tens_cano_type_ m' !! j = Some LEFT) /\
    (forall j, (S stop < j)%nat ->
       tens_cano_type_ m' !! j = tens_cano_type_ m !! j) /\
    (forall PL PR, SVD_gives PL PR -> cano_sound PL PR m -> cano_sound PL PR m') /\
    (forall p, (forall j, (j < p)%nat -> tens_cano_type_ m !! j = Some LEFT) ->
       forall j, (j < p \/ S stop < j)%nat ->
         raw_data_ m' !! j = raw_data_ m !! j).
Proof.
  intros Hwf Hres Hb. unfold LeftCanonicalize_, bind at 1.
  destruct (left_scan_run m d 0 stop) as (sc & -> & Hsc).
  { destruct Hwf as [-> _]. unfold size in Hb. lia. }
  destruct sc as [|s].
  - exists m. split_and!; try done. intros j Hj. apply Hsc. lia.
  - destruct Hsc as (Hs & Hns & Hsc).
    destruct (left_loop_run m d s (stop + 1 - s) Hwf Hres ltac:(lia))
      as (m' & -> & Hwf' & Hres' & Hsz & HL & HO & Hs' & Hf').
    exists m'. split_and!; try done.
    + intros j Hj. destruct (decide (j < s)%nat).
      * rewrite HO by lia. apply Hsc. lia.
      * apply HL. lia.
    + intros j Hj. apply HO. lia.
    + intros p Hp j Hj. apply Hf'.
      assert (p <= s)%nat; [|lia].
      destruct (decide (p <= s)%nat) as [|Hlt]; [done|].
      exfalso. apply Hns, Hp. lia.
Qed.

Lemma LeftCanonicalize__noop m d stop :
  (stop < length (tens_cano_type_ m))%nat ->
  (forall j, (j <= stop)%nat -> tens_cano_type_ m !! j = Some LEFT) ->
  LeftCanonicalize_ stop (m, d) = Some (tt, (m, d)).
Proof.
  intros Hb HL. unfold LeftCanonicalize_, bind at 1.
  destruct (left_scan_run m d 0 stop ltac:(lia)) as (sc & -> & Hsc).
  destruct sc as [|s]; [reflexivity|]. destruct Hsc as (Hs & Hns & _).
  exfalso. apply Hns, HL. lia.
Qed.

Lemma RightCanonicalize__run m d stop :
  wf m -> resident m -> (1 <= stop < size m)%nat ->
  exists m', RightCanonicalize_ stop (m, d) = Some (tt, (m', d)) /\
    wf m' /\ resident m' /\ size m' = size m /\
    (forall j, (stop <= j < size m)%nat -> tens_cano_type_ m' !! j = Some RIGHT) /\
    (forall j, (S j < stop)%nat ->
       tens_cano_type_ m' !! j = tens_cano_type_ m !! j) /\
    (forall PL PR, SVD_gives PL PR -> cano_sound PL PR m -> cano_sound PL PR m') /\
    (forall q, (forall j, (q < j < size m)%nat ->
                  tens_cano_type_ m !! j = Some RIGHT) ->
       forall j, (q < j \/ S j < stop)%nat ->
         raw_data_ m' !! j = raw_data_ m !! j).
Proof.
  intros Hwf Hres Hb. unfold RightCanonicalize_, bind at 1.
  unfold get_mps at 1. cbn [fst].
  assert (Htail : Z.to_nat (wrap64 (Z.of_nat (size m) - 1)) = (size m - 1)%nat).
  { unfold wrap64. destruct Hwf as [_ Hlt]. unfold size in *.
    rewrite Z.mod_small by lia. lia. }
  rewrite Htail. rewrite decide_False by lia. unfold bind at 1.
  destruct (right_scan_run m d (size m - 1) (size m - 1 - stop)) as (sc & -> & Hsc).
  { destruct Hwf as [-> _]. unfold size in *. lia. }
  destruct sc as [|s].
  - exists m. split_and!; try done. intros j Hj. apply Hsc. lia.
  - destruct Hsc as (Hs & Hns & Hsc).
    destruct (right_loop_run m d s (s + 1 - stop) Hwf Hres ltac:(lia))
      as (m' & -> & Hwf' & Hres' & Hsz & HR & HO & Hs' & Hf').
    exists m'. split_and!; try done.
    + intros j Hj. destruct (decide (s < j)%nat).
      * rewrite HO by lia. apply Hsc. lia.
      * apply HR. lia.
    + intros j Hj. apply HO. lia.
    + intros q Hq j Hj. apply Hf'.
      assert (s <= q)%nat; [|lia].
      destruct (decide (s <= q)%nat) as [|Hlt]; [done|].
      exfalso. apply Hns, Hq. lia.
Qed.

Lemma RightCanonicalize__noop m d stop :
  wf m -> (1 <= stop < size m)%nat ->
  (forall j, (stop <= j < size m)%nat -> tens_cano_type_ m !! j = Some RIGHT) ->
  RightCanonicalize_ stop (m, d) = Some (tt, (m, d)).
Proof.
  intros Hwf Hb HR. unfold RightCanonicalize_, bind at 1.
  unfold get_mps at 1. cbn [fst].
  assert (Htail : Z.to_nat (wrap64 (Z.of_nat (size m) - 1)) = (size m - 1)%nat).
  { unfold wrap64. destruct Hwf as [_ Hlt]. unfold size in *.
    rewrite Z.mod_small by lia. lia. }
  rewrite Htail. rewrite decide_False by lia. unfold bind at 1.
  destruct (right_scan_run m d (size m - 1) (size m - 1 - stop)) as (sc & -> & Hsc).
  { destruct Hwf as [-> _]. unfold size in *. lia. }
  destruct sc as [|s]; [reflexivity|]. destruct Hsc as (Hs & Hns & _).
  exfalso. apply Hns, HR. lia.
Qed.

Lemma wrap64_small (z : Z) : 0 <= z < 2 ^ 64 -> wrap64 z = z.
Proof. intros H. unfold wrap64. apply Z.mod_small, H. Qed.

Lemma int_val_run (z : Z) (w : World) :
  - 2 ^ 31 <= z < 2 ^ 31 -> int_val z w = Some (z, w).
Proof.
  intros Hz. unfold int_val, bind, assert_, int_range.
  replace (- 2 ^ 31 <=? z) with true by (symmetry; apply Z.leb_le; lia).
  replace (z <? 2 ^ 31) with true by (symmetry; apply Z.ltb_lt; lia).
  reflexivity.
Qed.

Lemma Centralize_run_full m d (target : Z) :
  wf m -> resident m -> Z.of_nat (size m) <= 2 ^ 31 ->
  0 <= target < Z.of_nat (size m) ->
  exists m1, Centralize target (m, d) = Some (tt, (m1, d)) /\
    wf m1 /\ resident m1 /\ size m1 = size m /\
    center_ m1 = target /\
    (forall j, (Z.of_nat j < target) ->
       tens_cano_type_ m1 !! j = Some LEFT) /\
    (forall j, (target < Z.of_nat j < Z.of_nat (size m)) ->
       tens_cano_type_ m1 !! j = Some RIGHT) /\
    (forall PL PR, SVD_gives PL PR -> cano_sound PL PR m -> cano_sound PL PR m1) /\
    (forall p q : nat, Z.of_nat p <= target <= Z.of_nat q ->
       (forall j, (j < p)%nat -> tens_cano_type_ m !! j = Some LEFT) ->
       (forall j, (q < j < size m)%nat -> tens_cano_type_ m !! j = Some RIGHT) ->
       forall j, (j < p \/ q < j)%nat -> raw_data_ m1 !! j = raw_data_ m !! j).
Proof.
  intros Hwf Hres Hint Ht. pose proof Hwf as [Hlen Hlt]. unfold size in Ht, Hint.
  unfold Centralize, bind at 1, assert_.
  replace (0 <=? target) with true by (symmetry; apply Z.leb_le; lia).
  unfold ret at 1. cbv beta iota.
  unfold bind at 1. unfold get_mps at 1. cbn [fst].
  rewrite (wrap64_small target) by lia.
  rewrite (wrap64_small (Z.of_nat (size m) - 1)) by (unfold size; lia).
  unfold bind at 1.
  assert (HA : exists ma,
    (if decide (target <> 0)
     then bind (int_val (target - 1))
            (fun stop_idx => LeftCanonicalize_ (Z.to_nat (wrap64 stop_idx)))
     else ret tt) (m, d)
      = Some (tt, (ma, d)) /\
    wf ma /\ resident ma /\ size ma = size m /\
    (forall j, Z.of_nat j < target -> tens_cano_type_ ma !! j = Some LEFT) /\
    (forall PL PR, SVD_gives PL PR -> cano_sound PL PR m -> cano_sound PL PR ma) /\
    (forall j, target < Z.of_nat j ->
       tens_cano_type_ ma !! j = tens_cano_type_ m !! j) /\
    (forall p, (forall j, (j < p)%nat -> tens_cano_type_ m !! j = Some LEFT) ->
       forall j, ((j < p)%nat \/ target < Z.of_nat j) ->
         raw_data_ ma !! j = raw_data_ m !! j)).
  { destruct (decide (target <> 0)) as [Hne|Heq%dec_stable].
    - unfold bind at 1. rewrite int_val_run by lia.
      rewrite (wrap64_small (target - 1)) by lia.
      destruct (LeftCanonicalize__run m d (Z.to_nat (target - 1)) Hwf Hres)
        as (ma & Hrun & Hwfa & Hresa & Hsza & HL & HOa & Hsa & Hfa);
        [unfold size; lia|].
      exists ma. split_and!; try done.
      + intros j Hj. apply HL. lia.
      + intros j Hj. apply HOa. lia.
      + intros p Hp j Hj. apply (Hfa p Hp). lia.
    - exists m. split_and!; try done. intros j Hj. lia. }
  destruct HA as (ma & -> & Hwfa & Hresa & Hsza & HL & Hsa & HOa & Hfa).
  unfold bind at 1.
  assert (HB : exists mb,
    (if decide (target <> Z.of_nat (size m) - 1)
     then bind (int_val (target + 1))
            (fun stop_idx => RightCanonicalize_ (Z.to_nat (wrap64 stop_idx)))
     else ret tt) (ma, d)
      = Some (tt, (mb, d)) /\
    wf mb /\ resident mb /\ size mb = size m /\
    (forall j, Z.of_nat j < target -> tens_cano_type_ mb !! j = Some LEFT) /\
    (forall j, target < Z.of_nat j < Z.of_nat (size m) ->
       tens_cano_type_ mb !! j = Some RIGHT) /\
    (forall PL PR, SVD_gives PL PR -> cano_sound PL PR m -> cano_sound PL PR mb) /\
    (forall q, (forall j, (q < j < size m)%nat ->
                  tens_cano_type_ ma !! j = Some RIGHT) ->
       forall j, ((q < j)%nat \/ Z.of_nat j < target) ->
         raw_data_ mb !! j = raw_data_ ma !! j)).
  { destruct (decide (target <> Z.of_nat (size m) - 1)) as [Hne|Heq%dec_stable].
    - unfold bind at 1. rewrite int_val_run by (unfold size in *; lia).
      rewrite (wrap64_small (target + 1)) by lia.
      destruct (RightCanonicalize__run ma d (Z.to_nat (target + 1)) Hwfa Hresa)
        as (mb & Hrun & Hwfb & Hresb & Hszb & HR & HO & Hsb & Hfb);
        [unfold size in *; lia|].
      exists mb. split_and!; try done; try congruence.
      + intros j Hj. rewrite HO by lia. apply HL, Hj.
      + intros j Hj. apply HR. unfold size in *. lia.
      + eauto.
      + intros q Hq j Hj. apply (Hfb q); [by rewrite Hsza|lia].
    - exists ma. split_and!; try done. intros j Hj. unfold size in *. lia. }
  destruct HB as (mb & -> & Hwfb & Hresb & Hszb & HLb & HRb & Hsb & Hfb).
  unfold set_center. mstep.
  exists (with_center target mb). split; [by destruct mb|].
  split_and!; try done.
  intros p q Hpq Hp Hq j Hj. simpl.
  rewrite (Hfb q).
  - apply (Hfa p Hp). lia.
  - intros j' Hj'. rewrite HOa by lia. by apply Hq.
  - lia.
Qed.

Lemma Centralize_run m d (target : Z) :
  wf m -> resident m -> Z.of_nat (size m) <= 2 ^ 31 ->
  0 <= target < Z.of_nat (size m) ->
  exists m1, Centralize target (m, d) = Some (tt, (m1, d)) /\
    wf m1 /\ size m1 = size m /\
    center_ m1 = target /\
    (forall j, (Z.of_nat j < target) ->
       tens_cano_type_ m1 !! j = Some LEFT) /\
    (forall j, (target < Z.of_nat j < Z.of_nat (size m)) ->
       tens_cano_type_ m1 !! j = Some RIGHT) /\
    (forall PL PR, SVD_gives PL PR -> cano_sound PL PR m -> cano_sound PL PR m1).
Proof.
  intros Hwf Hres Hint Ht.
  destruct (Centralize_run_full m d target Hwf Hres Hint Ht)
    as (m1 & ? & ? & ? & ? & ? & ? & ? & ? & _).
  exists m1. split_and!; done.
Qed.

Lemma Centralize_fixed m d (target : Z) :
  wf m -> Z.of_nat (size m) <= 2 ^ 31 ->
  0 <= target < Z.of_nat (size m) ->
  center_ m = target ->
  (forall j, (Z.of_nat j < target) -> tens_cano_type_ m !! j = Some LEFT) ->
  (forall j, (target < Z.of_nat j < Z.of_nat (size m)) ->
     tens_cano_type_ m !! j = Some RIGHT) ->
  Centralize target (m, d) = Some (tt, (m, d)).
Proof.
  intros Hwf Hint Ht Hc HL HR. pose proof Hwf as [Hlen Hlt].
  unfold size in Ht, Hint.
  unfold Centralize, bind at 1, assert_.
  replace (0 <=? target) with true by (symmetry; apply Z.leb_le; lia).
  unfold ret at 1. cbv beta iota.
  unfold bind at 1. unfold get_mps at 1. cbn [fst].
  rewrite (wrap64_small target) by lia.
  rewrite (wrap64_small (Z.of_nat (size m) - 1)) by (unfold size; lia).
  unfold bind at 1.
  assert (HA : (if decide (target <> 0)
     then bind (int_val (target - 1))
            (fun stop_idx => LeftCanonicalize_ (Z.to_nat (wrap64 stop_idx)))
     else ret tt) (m, d)
      = Some (tt, (m, d))).
  { destruct (decide (target <> 0)) as [Hne|Heq]; [|reflexivity].
    unfold bind at 1. rewrite int_val_run by lia.
    rewrite (wrap64_small (target - 1)) by lia.
    apply LeftCanonicalize__noop; [lia|]. intros j Hj. apply HL. lia. }
  rewrite HA. unfold bind at 1.
  assert (HB : (if decide (target <> Z.of_nat (size m) - 1)
     then bind (int_val (target + 1))
            (fun stop_idx => RightCanonicalize_ (Z.to_nat (wrap64 stop_idx)))
     else ret tt) (m, d)
      = Some (tt, (m, d))).
  { destruct (decide (target <> Z.of_nat (size m) - 1)) as [Hne|Heq]; [|reflexivity].
    unfold bind at 1. rewrite int_val_run by (unfold size in *; lia).
    rewrite (wrap64_small (target + 1)) by lia.
    apply RightCanonicalize__noop; [done|unfold size in *; lia|].
    intros j Hj. apply HR. unfold size in *. lia. }
  rewrite HB. unfold set_center. mstep. destruct m; simpl in *. by subst.
Qed.

(** C8. For every MPS whose site tensors are all resident and whose sites
    can be counted in an [int], and every valid target index:
    [Centralize(target)] returns; afterwards the center equals
    [target], every position left of [target] is marked left-canonical and
    every position right of it is marked right-canonical; a second
    [Centralize(target)] changes no site tensor and no canonical metadata,
    it returns the very same object.  The marks are truthful: whatever
    property the library's [SVD] gives to its [u] and to its [vt], if the
    marks of the MPS were right about it before the first call, then
    afterwards every tensor left of [target] has the property of [u] and
    every tensor right of it has the property of [vt]. *)
Theorem Centralize_idempotent m d (target : Z) :
  wf m -> resident m -> Z.of_nat (size m) <= 2 ^ 31 ->
  0 <= target < Z.of_nat (size m) ->
  exists m1, Centralize target (m, d) = Some (tt, (m1, d)) /\
    center_ m1 = target /\
    (forall j, (Z.of_nat j < target) ->
       tens_cano_type_ m1 !! j = Some LEFT) /\
    (forall j, (target < Z.of_nat j < Z.of_nat (size m)) ->
       tens_cano_type_ m1 !! j = Some RIGHT) /\
    Centralize target (m1, d) = Some (tt, (m1, d)) /\
    (forall PL PR, SVD_gives PL PR -> cano_sound PL PR m ->
       forall j t, raw_data_ m1 !! j = Some (Some t) ->
         (Z.of_nat j < target -> PL t) /\ (target < Z.of_nat j -> PR t)).
Proof.
  intros Hwf Hres Hint Ht.
  destruct (Centralize_run m d target Hwf Hres Hint Ht)
    as (m1 & Hrun & Hwf1 & Hsz1 & Hc & HL & HR & Hs).
  exists m1. split_and!; try done.
  - apply Centralize_fixed; try done; rewrite Hsz1; done.
  - intros PL PR HS Hm j t Hj.
    destruct (Hs PL PR HS Hm j t Hj) as [Hl Hr].
    apply lookup_lt_Some in Hj. fold (size m1) in Hj. rewrite Hsz1 in Hj.
    split; intros Hlt; [apply Hl, HL, Hlt|apply Hr, HR; lia].
Qed.


(** X14. [Centralize] rewrites only what lies between the canonical prefix and
    the canonical suffix: when the positions before [p] are marked [LEFT]
    and those after [q] are marked [RIGHT], with [p <= target <= q], no
    site tensor before [p] or after [q] is replaced. *)
Theorem Centralize_local m d (target : Z) (p q : nat) :
  wf m -> resident m -> Z.of_nat (size m) <= 2 ^ 31 ->
  0 <= target < Z.of_nat (size m) ->
  Z.of_nat p <= target <= Z.of_nat q ->
  (forall j, (j < p)%nat -> tens_cano_type_ m !! j = Some LEFT) ->
  (forall j, (q < j < size m)%nat -> tens_cano_type_ m !! j = Some RIGHT) ->
  exists m1, Centralize target (m, d) = Some (tt, (m1, d)) /\
    forall j, (j < p \/ q < j)%nat -> raw_data_ m1 !! j = raw_data_ m !! j.
Proof.
  intros Hwf Hres Hint Ht Hpq Hp Hq.
  destruct (Centralize_run_full m d target Hwf Hres Hint Ht)
    as (m1 & Hrun & _ & _ & _ & _ & _ & _ & _ & Hloc).
  exists m1. split; [exact Hrun|]. by apply Hloc.
Qed.

(** X15. Moving the center: after [Centralize(t1)], [Centralize(t2)] returns
    with the center at [t2] and the canonical types to match, and it
    replaces no site tensor outside of the range between [t1] and [t2]. *)
Theorem Centralize_recenter m d (t1 t2 : Z) :
  wf m -> resident m -> Z.of_nat (size m) <= 2 ^ 31 ->
  0 <= t1 < Z.of_nat (size m) -> 0 <= t2 < Z.of_nat (size m) ->
  exists m1 m2,
    Centralize t1 (m, d) = Some (tt, (m1, d)) /\
    Centralize t2 (m1, d) = Some (tt, (m2, d)) /\
    center_ m2 = t2 /\
    (forall j, Z.of_nat j < t2 -> tens_cano_type_ m2 !! j = Some LEFT) /\
    (forall j, t2 < Z.of_nat j < Z.of_nat (size m) ->
       tens_cano_type_ m2 !! j = Some RIGHT) /\
    (forall j, Z.of_nat j < Z.min t1 t2 \/ Z.max t1 t2 < Z.of_nat j ->
       raw_data_ m2 !! j = raw_data_ m1 !! j).
Proof.
  intros Hwf Hres Hint Ht1 Ht2.
  destruct (Centralize_run_full m d t1 Hwf Hres Hint Ht1)
    as (m1 & Hrun1 & Hwf1 & Hres1 & Hsz1 & _ & HL1 & HR1 & _ & _).
  destruct (Centralize_run_full m1 d t2 Hwf1 Hres1)
    as (m2 & Hrun2 & _ & _ & _ & Hc2 & HL2 & HR2 & _ & Hloc); [lia..|].
  exists m1, m2. split_and!; try done.
  - intros j Hj. apply HR2. lia.
  - intros j Hj.
    apply (Hloc (Z.to_nat (Z.min t1 t2)) (Z.to_nat (Z.max t1 t2))); [lia| | |lia].
    + intros j' Hj'. apply HL1. lia.
    + intros j' Hj'. apply HR1. lia.
Qed.

(** ** [TruncateMPS] *)

Context `{DO : !DTenOps}.

Lemma truncate_bond_run te Dmin Dmax m d i :
  wf m -> resident m -> (S i < size m)%nat ->
  exists ln m', truncate_bond te Dmin Dmax i (m, d) = Some (ln, (m', d)) /\
    tl_bond ln = i /\
    wf m' /\ resident m' /\ size m' = size m /\
    center_ m' = kUncentralizedCenterIdx /\
    tens_cano_type_ m' = <[S i:=NONE]> (<[i:=NONE]> (tens_cano_type_ m)).
Proof.
  intros Hwf Hres Hi.
  destruct (resident_lookup m i Hres ltac:(lia)) as [t Ht].
  destruct (resident_lookup m (S i) Hres Hi) as [tn Htn].
  unfold truncate_bond.
  mrun op_paren_run.
  mrun (op_bracket_run _ _ _ t).
  mrun (deref_run _ _ _ t).
  mrun (deref_run _ _ _ t).
  destruct (SVDTrunc t _ _ _ _ _) as [[[[pu s] vt] err] D].
  mrun op_paren_run. mrun op_paren_run.
  unfold ptr_assign. mrun set_raw_run.
  replace (i + 1)%nat with (S i) by lia.
  mrun op_paren_run.
  mrun (deref_run _ _ _ tn).
  2:{ simpl. rewrite list_lookup_insert_ne by lia. exact Htn. }
  mrun op_paren_run. mrun op_paren_run.
  mrun set_raw_run.
  unfold ret.
  eexists _, _. split; [reflexivity|]. split; [reflexivity|].
  split; [eauto 20 with mps|]. split; [eauto 20 with mps|].
  split; [unfold size; simpl; by rewrite !length_insert|].
  split; [reflexivity|].
  simpl. apply list_eq. intros j.
  rewrite !list_lookup_insert, !length_insert.
  repeat case_decide; try reflexivity; lia.
Qed.

Lemma truncate_loop_run te Dmin Dmax m d start count :
  wf m -> resident m -> (start + count < size m)%nat ->
  exists out m', truncate_loop te Dmin Dmax start count (m, d)
      = Some (out, (m', d)) /\
    tl_bond <$> out = seq start count /\
    wf m' /\ resident m' /\ size m' = size m /\
    (count = 0%nat -> m' = m) /\
    (0 < count -> center_ m' = kUncentralizedCenterIdx)%nat /\
    (forall j, (0 < count)%nat -> (start <= j <= start + count)%nat ->
       tens_cano_type_ m' !! j = Some NONE) /\
    (forall j, (j < start \/ start + count < j)%nat ->
       tens_cano_type_ m' !! j = tens_cano_type_ m !! j).
Proof.
  revert m start. induction count as [|count IH]; intros m start Hwf Hres Hb.
  - exists [], m. simpl. split_and!; try done; intros; lia.
  - simpl. unfold bind at 1.
    destruct (truncate_bond_run te Dmin Dmax m d start Hwf Hres ltac:(lia))
      as (ln & m1 & -> & Hln & Hwf1 & Hres1 & Hsz1 & Hc1 & Hcano1).
    unfold bind at 1.
    destruct (IH m1 (S start) Hwf1 Hres1 ltac:(lia))
      as (out & m2 & -> & Hout & Hwf2 & Hres2 & Hsz2 & Hsame & Hc2 & HN & HO).
    exists (ln :: out), m2. unfold ret. split; [reflexivity|].
    split_and!; try done; try lia.
    + rewrite fmap_cons, Hln, Hout. reflexivity.
    + intros _. destruct count as [|count]; [|apply Hc2; lia].
      by rewrite Hsame.
    + intros j _ Hj. destruct (decide (j = start)) as [->|Hne].
      * rewrite HO by lia. rewrite Hcano1.
        rewrite list_lookup_insert_ne by lia.
        apply list_lookup_insert_eq. destruct Hwf as [-> _]. unfold size in Hb. lia.
      * destruct count as [|count].
        -- rewrite (Hsame eq_refl), Hcano1.
           replace j with (S start) by lia.
           apply list_lookup_insert_eq. rewrite length_insert.
           destruct Hwf as [-> _]. unfold size in Hb. lia.
        -- apply HN; lia.
    + intros j Hj. rewrite HO by lia. rewrite Hcano1.
      rewrite !list_lookup_insert_ne by lia. reflexivity.
Qed.

(** X16. On an MPS with at least two sites, all resident, [TruncateMPS]
    returns after truncating the bonds [0 .. size - 2] in this order, one
    printed line each; every site still holds a tensor, and, every site
    tensor having been reached through a non-const accessor, the MPS is
    left marked uncentralized with every canonical type [NONE]. *)
Theorem TruncateMPS_run te Dmin Dmax m d :
  wf m -> resident m -> Z.of_nat (size m) <= 2 ^ 31 -> (2 <= size m)%nat ->
  exists out m', TruncateMPS te Dmin Dmax (m, d) = Some (out, (m', d)) /\
    tl_bond <$> out = seq 0 (size m - 1) /\
    wf m' /\ resident m' /\ size m' = size m /\
    center_ m' = kUncentralizedCenterIdx /\
    forall j, (j < size m)%nat -> tens_cano_type_ m' !! j = Some NONE.
Proof.
  intros Hwf Hres Hint Hsz. unfold TruncateMPS.
  unfold bind at 1. unfold get_mps at 1. cbn [fst]. unfold bind at 1, assert_.
  replace (2 <=? size m)%nat with true by (symmetry; apply Nat.leb_le; lia).
  unfold ret at 1. cbv beta iota. unfold bind at 1.
  destruct (Centralize_run_full m d 0 Hwf Hres Hint ltac:(lia))
    as (m1 & -> & Hwf1 & Hres1 & Hsz1 & _).
  destruct (resident_lookup m1 0 Hres1 ltac:(lia)) as [t0 Ht0].
  mrun (op_bracket_run _ _ _ t0).
  mrun (deref_run _ _ _ t0).
  unfold bind at 1. unfold ref_assign.
  mrun (deref_run _ _ _ t0).
  rewrite set_raw_run by mside.
  set (m2 := with_raw 0 _ (touch 0 m1)).
  assert (Hwf2 : wf m2) by (unfold m2; eauto with mps).
  assert (Hres2 : resident m2) by (unfold m2; eauto with mps).
  assert (Hsz2 : size m2 = size m).
  { rewrite <- Hsz1. unfold m2, size. simpl. by rewrite length_insert. }
  destruct (truncate_loop_run te Dmin Dmax m2 d 0 (size m - 1) Hwf2 Hres2
              ltac:(lia))
    as (out & m' & -> & Hout & Hwf' & Hres' & Hsz' & _ & Hc' & HN & _).
  exists out, m'. split_and!; try done; try congruence.
  - apply Hc'. lia.
  - intros j Hj. apply HN; lia.
Qed.

(** ** Dump and load *)

Lemma string_length_app (s t : string) :
  String.length (s +:+ t) = (String.length s + String.length t)%nat.
Proof. induction s as [|a s IH]; simpl; [reflexivity|]. by rewrite IH. Qed.

Lemma string_app_inj_r (t s1 s2 : string) : s1 +:+ t = s2 +:+ t -> s1 = s2.
Proof.
  revert s2. induction s1 as [|a s1 IH]; intros [|b s2] H; simpl in H.
  - reflexivity.
  - apply (f_equal String.length) in H.
    rewrite !string_length_app in H. simpl in H. lia.
  - apply (f_equal String.length) in H.
    rewrite !string_length_app in H. simpl in H. lia.
  - injection H as -> H. f_equal. apply IH, H.
Qed.

(** Distinct sites are paged to distinct files. *)
Lemma GenMPSTenName_inj (mps_path : string) i j :
  GenMPSTenName mps_path i = GenMPSTenName mps_path j -> i = j.
Proof.
  unfold GenMPSTenName. intros H.
  apply string_app_inj_r, string_app_inj_r in H.
  apply String.app_inj in H. by apply (inj pretty) in H.
Qed.

Lemma DumpTen_run m d idx file release t :
  raw_data_ m !! idx = Some (Some t) ->
  DumpTen idx file release (m, d) =
    Some (tt, (if release then with_raw idx None m else m,
               MkDisk (dirs d) (<[file := ten_write t]> (files d)))).
Proof.
  intros Ht. unfold DumpTen, DuoVector_bracket_const.
  unfold bind at 1. unfold bind at 1. unfold get_mps at 1. cbn [fst].
  rewrite Ht. unfold ret at 1. cbv beta iota.
  mrun (deref_run _ _ _ t). mstep.
  destruct release; [|reflexivity].
  unfold dealloc. rewrite set_raw_run by (eapply lookup_lt_Some, Ht). reflexivity.
Qed.

Lemma LoadTen_run m d idx file blob :
  (idx < size m)%nat -> files d !! file = Some blob ->
  LoadTen idx file (m, d) = Some (tt, (with_raw idx (Some (ten_read blob)) m, d)).
Proof.
  intros Hi Hf. unfold LoadTen, alloc. mrun set_raw_run.
  unfold bind at 1. unfold get_disk at 1. cbn [snd]. rewrite Hf.
  unfold ref_assign. mrun (deref_run _ _ _ default_ten).
  2:{ simpl. apply list_lookup_insert_eq. exact Hi. }
  rewrite set_raw_run by (simpl; rewrite length_insert; exact Hi).
  unfold with_raw. simpl. by rewrite list_insert_insert_eq.
Qed.

(** The dump loop over the sites [start .. start + count - 1]. *)
Lemma dump_loop_run mps_path release m d start count :
  (forall j, (start <= j < start + count)%nat ->
     exists t, raw_data_ m !! j = Some (Some t)) ->
  exists m' d', for_up start count
      (fun i => DumpTen i (GenMPSTenName mps_path i) release) (m, d)
      = Some (tt, (m', d')) /\
    size m' = size m /\
    (forall j, (j < start \/ start + count <= j)%nat \/ release = false ->
       raw_data_ m' !! j = raw_data_ m !! j) /\
    (forall j t, (start <= j < start + count)%nat ->
       raw_data_ m !! j = Some (Some t) ->
       files d' !! GenMPSTenName mps_path j = Some (ten_write t)) /\
    (forall j, (j < start)%nat ->
       files d' !! GenMPSTenName mps_path j = files d !! GenMPSTenName mps_path j).
Proof.
  revert m d start. induction count as [|count IH]; intros m d start Hres.
  - exists m, d. simpl. split_and!; try done. intros j t Hj. lia.
  - simpl. unfold bind at 1.
    destruct (Hres start ltac:(lia)) as [t0 Ht0].
    rewrite (DumpTen_run _ _ _ _ _ t0 Ht0).
    set (m1 := if release then with_raw start None m else m).
    set (d1 := MkDisk _ _).
    assert (Hsz1 : size m1 = size m).
    { subst m1. destruct release; [|reflexivity].
      unfold size, with_raw. simpl. by rewrite length_insert. }
    assert (Hraw1 : forall j, j <> start \/ release = false ->
              raw_data_ m1 !! j = raw_data_ m !! j).
    { intros j Hj. subst m1. destruct release; [|reflexivity].
      simpl. destruct Hj as [Hj|?]; [|done]. by rewrite list_lookup_insert_ne. }
    clearbody m1.
    destruct (IH m1 d1 (S start)) as (m' & d' & -> & Hsz & Hraw & Hfile & Hold).
    { intros j Hj. rewrite Hraw1 by lia. apply Hres. lia. }
    exists m', d'. split_and!; try done; try congruence.
    + intros j Hj. destruct Hj as [Hj|Hrel].
      * rewrite Hraw by lia. apply Hraw1. lia.
      * rewrite Hraw by (by right). apply Hraw1. by right.
    + intros j t Hj Ht. destruct (decide (j = start)) as [->|Hne].
      * rewrite Hold by lia. subst d1. simpl.
        rewrite lookup_insert_eq. congruence.
      * apply Hfile; [lia|]. rewrite Hraw1 by lia. exact Ht.
    + intros j Hj. rewrite Hold by lia. subst d1. simpl.
      apply lookup_insert_ne. intros Heq%GenMPSTenName_inj. lia.
Qed.

(** The load loop over the sites [start .. start + count - 1]. *)
Lemma load_loop_run mps_path m d start count :
  (start + count <= size m)%nat ->
  (forall j, (start <= j < start + count)%nat ->
     is_Some (files d !! GenMPSTenName mps_path j)) ->
  exists m', for_up start count
      (fun i => LoadTen i (GenMPSTenName mps_path i)) (m, d)
      = Some (tt, (m', d)) /\
    size m' = size m /\
    center_ m' = center_ m /\ tens_cano_type_ m' = tens_cano_type_ m /\
    (forall j, (j < start \/ start + count <= j)%nat ->
       raw_data_ m' !! j = raw_data_ m !! j) /\
    (forall j blob, (start <= j < start + count)%nat ->
       files d !! GenMPSTenName mps_path j = Some blob ->
       raw_data_ m' !! j = Some (Some (ten_read blob))).
Proof.
  revert m start. induction count as [|count IH]; intros m start Hb Hf.
  - exists m. simpl. split_and!; try done. intros j t Hj. lia.
  - simpl. unfold bind at 1.
    destruct (Hf start ltac:(lia)) as [b0 Hb0].
    rewrite (LoadTen_run _ _ _ _ b0) by (done || lia).
    set (m1 := with_raw start (Some (ten_read b0)) m).
    assert (Hsz1 : size m1 = size m).
    { unfold size, m1, with_raw. simpl. by rewrite length_insert. }
    destruct (IH m1 (S start)) as (m' & -> & Hsz & Hc & Hcano & Hraw & Hnew).
    { lia. } { intros j Hj. apply Hf. lia. }
    exists m'. split_and!; try done; try congruence.
    + intros j Hj. rewrite Hraw by lia. unfold m1. simpl.
      apply list_lookup_insert_ne. lia.
    + intros j blob Hj Hblob. destruct (decide (j = start)) as [->|Hne].
      * rewrite Hraw by lia. unfold m1. simpl.
        rewrite list_lookup_insert_eq by (unfold size in Hb; lia). congruence.
      * apply Hnew; [lia|done].
Qed.

Lemma Dump_run mps_path release m d :
  resident m ->
  exists m' d', Dump mps_path release (m, d) = Some (tt, (m', d')) /\
    size m' = size m /\
    (release = false -> raw_data_ m' = raw_data_ m) /\
    (forall j t, raw_data_ m !! j = Some (Some t) ->
       files d' !! GenMPSTenName mps_path j = Some (ten_write t)).
Proof.
  intros Hres. unfold Dump, IsPathExist.
  unfold bind at 1. unfold bind at 1. unfold get_disk at 1. cbn [snd].
  unfold ret at 1. cbv beta iota.
  unfold bind at 1.
  assert (Hw : exists d0,
    (if negb (bool_decide (mps_path ∈ dirs d))
     then CreatPath mps_path else ret tt) (m, d) = Some (tt, (m, d0))).
  { destruct (negb _); [|by exists d].
    unfold CreatPath. mstep. eauto. }
  destruct Hw as [d0 ->].
  unfold bind at 1. unfold get_mps at 1. cbn [fst].
  destruct (dump_loop_run mps_path release m d0 0 (size m))
    as (m' & d' & -> & Hsz & Hraw & Hfile & _).
  { intros j Hj. apply Hres. unfold size in Hj. lia. }
  exists m', d'. split_and!; try done.
  - intros ->. apply list_eq. intros j. apply Hraw. by right.
  - intros j t Ht. apply Hfile; [|done].
    apply lookup_lt_Some in Ht. unfold size. lia.
Qed.



(** C9. For every MPS whose site tensors are all resident, every path and
    either overload of [Dump]: [Dump(path)] followed by [Load(path)] returns
    and gives back every site tensor.  Site [i] is written to the file
    [GenMPSTenName(path, i)] and read back from that same file; the
    serialiser is assumed to read back what it wrote. *)
Theorem Dump_Load_roundtrip (mps_path : string) (release_mem : bool) m d :
  (forall t, ten_read (ten_write t) = t) ->
  resident m ->
  exists m1 d1 m2,
    Dump mps_path release_mem (m, d) = Some (tt, (m1, d1)) /\
    (release_mem = false -> Dump_const mps_path (m, d) = Some (tt, (m1, d1))) /\
    (forall i t, raw_data_ m !! i = Some (Some t) ->
       files d1 !! GenMPSTenName mps_path i = Some (ten_write t)) /\
    Load mps_path (m1, d1) = Some (tt, (m2, d1)) /\
    raw_data_ m2 = raw_data_ m.
Proof.
  intros Hser Hres.
  destruct (Dump_run mps_path release_mem m d Hres)
    as (m1 & d1 & Hdump & Hsz1 & Hkeep & Hfile).
  assert (Hall : forall j, (j < size m)%nat -> exists t,
            raw_data_ m !! j = Some (Some t) /\
            files d1 !! GenMPSTenName mps_path j = Some (ten_write t)).
  { intros j Hj. destruct (Hres j Hj) as [t Ht]. exists t. split; [done|].
    by apply Hfile. }
  destruct (load_loop_run mps_path m1 d1 0 (size m1))
    as (m2 & Hload & Hsz2 & _ & _ & _ & Hnew).
  { lia. }
  { intros j Hj. destruct (Hall j ltac:(lia)) as (t & _ & ->). by eexists. }
  exists m1, d1, m2. split_and!; try done.
  - intros ->. exact Hdump.
  - apply list_eq. intros j. destruct (decide (j < size m)%nat) as [Hj|Hj].
    + destruct (Hall j Hj) as (t & -> & Hf).
      rewrite (Hnew j _ ltac:(lia) Hf). by rewrite Hser.
    + rewrite !lookup_ge_None_2; [done|unfold size in *; lia..].
Qed.

End Facts.
End MpsFacts.

(* ===================================================================== *)
(** * lanczos_dmrg_solver_impl.h : the Lanczos solver                      *)
(* ===================================================================== *)

Module LanczosFacts.
Import Lanczos.
Local Open Scope run_scope.

Section Facts.
Context `{TL : TensorLib} {Ham : Type}.
Variables (eff_ham : Ham) (pinit_state : Ten)
          (eff_ham_mul_state : Ham -> Ten -> Ten)
          (params : LanczosParams).

Local Abbreviation init := (lanczos_init eff_ham pinit_state eff_ham_mul_state params).
Local Abbreviation residual := (lanczos_residual).
Local Abbreviation extend := (lanczos_extend eff_ham pinit_state eff_ham_mul_state).
Local Abbreviation test := (lanczos_test pinit_state params).
Local Abbreviation iter := (lanczos_iter eff_ham pinit_state eff_ham_mul_state params).
Local Abbreviation loop := (lanczos_loop eff_ham pinit_state eff_ham_mul_state params).
Local Abbreviation solver := (LanczosSolver eff_ham pinit_state eff_ham_mul_state params).
Local Abbreviation after := (after_iters eff_ham pinit_state eff_ham_mul_state params).

(** Each pass that continues has stored at index [m] of the pre-allocated
    arrays, so the room left in them shrinks. *)
Lemma lanczos_extend_Extended (k ke : Krylov) :
  extend k = Returned (Extended ke) ->
  k_m ke = (k_m k + 1)%nat /\
  (k_m k + 1 < length (k_N k))%nat /\
  length (k_N ke) = length (k_N k) /\
  k_energy0 ke = k_energy0 k.
Proof.
  unfold lanczos_extend, rbind, vec_set.
  destruct (lanczos_residual k) as [[gamma norm_gamma]|]; [|discriminate].
  destruct (norm_gamma =? 0)%float.
  { destruct (Nat.eqb _ 1); repeat (case_match; try discriminate). }
  repeat (case_match; try discriminate).
  intros [= <-]. simplify_eq/=. rewrite length_insert. auto.
Qed.

Lemma lanczos_test_Continue (ke k' : Krylov) :
  test ke = Returned (Continue k') ->
  k' = MkKrylov (k_m ke) (k_bases ke) (k_a ke) (k_b ke) (k_N ke) (k_last ke)
         (fst (TridiagGsSolver (k_a ke) (k_b ke) (k_m ke + 1) JobN)).
Proof.
  unfold lanczos_test, rbind.
  destruct (TridiagGsSolver _ _ _ JobN) as [eigval ev].
  destruct (stop_test _ _ _).
  { repeat (case_match; try discriminate). }
  intros [= <-]. reflexivity.
Qed.

Lemma lanczos_iter_Continue (k k' : Krylov) :
  iter k = Returned (Continue k') ->
  exists ke, extend k = Returned (Extended ke) /\
             test ke = Returned (Continue k').
Proof.
  unfold lanczos_iter, rbind.
  destruct (extend k) as [[r|ke]|]; try discriminate.
  intros H. by exists ke.
Qed.

(** The loop, one pass unfolded. *)
Lemma lanczos_loop_step (k : Krylov) :
  loop k = match iter k with
           | Returned (Continue k') => loop k'
           | Returned (Finished r) => Returned r
           | Faulted f => Faulted f
           end.
Proof.
  rewrite lanczos_loop_equation_1.
  generalize (Logic.inspect (iter k)). intros [x e].
  transitivity (match x with
                | Returned (Continue k') => loop k'
                | Returned (Finished r) => Returned r
                | Faulted f => Faulted f
                end).
  - destruct x as [[k'|r]|f]; reflexivity.
  - by rewrite e.
Qed.

Lemma lanczos_loop_after (n : nat) (k0 k : Krylov) :
  after n k0 = Some k -> loop k0 = loop k.
Proof.
  revert k. induction n as [|n IH]; intros k; simpl.
  - by intros [= ->].
  - destruct (after n k0) as [k1|]; [|discriminate].
    destruct (iter k1) as [[k'|r]|f] eqn:Hit; try discriminate.
    intros [= ->]. rewrite (IH k1 eq_refl), (lanczos_loop_step k1), Hit. reflexivity.
Qed.

Local Abbreviation ok := (krylov_ok params).
Local Abbreviation v0 := (Lanczos.v0 pinit_state).
Local Abbreviation w0 := (Lanczos.w0 eff_ham pinit_state eff_ham_mul_state).
Local Abbreviation alpha0 := (Lanczos.alpha0 eff_ham pinit_state eff_ham_mul_state).
Local Abbreviation gamma1 := (Lanczos.gamma1 eff_ham pinit_state eff_ham_mul_state).

Lemma vec_get_run {A} (v : list A) i x : v !! i = Some x -> vec_get v i = Returned x.
Proof. unfold vec_get. by intros ->. Qed.

Lemma vec_set_run {A} (v : list A) i x :
  (i < length v)%nat -> vec_set v i x = Returned (<[i:=x]> v).
Proof. unfold vec_set. intros H. by rewrite decide_True. Qed.

Lemma vec_set_fault {A} (v : list A) i x :
  (length v <= i)%nat -> vec_set v i x = Faulted (OutOfRange i (length v)).
Proof. unfold vec_set. intros H. rewrite decide_False; [done|lia]. Qed.

Lemma basis_run (bases : list (option Ten)) i t :
  bases !! i = Some (Some t) -> basis bases i = Returned t.
Proof. unfold basis. intros H. by rewrite (vec_get_run _ _ _ H). Qed.

Lemma first_bases_from_run (bases : list (option Ten)) i n :
  (forall j, (i <= j < i + n)%nat -> exists t, bases !! j = Some (Some t)) ->
  exists bs, first_bases_from i n bases = Returned bs /\
    length bs = n /\
    forall j t, bs !! j = Some t -> bases !! (i + j)%nat = Some (Some t).
Proof.
  revert i. induction n as [|n IH]; intros i H; simpl.
  - exists []. split_and!; try done.
  - destruct (H i ltac:(lia)) as [t Ht]. rewrite (basis_run _ _ _ Ht). simpl.
    destruct (IH (S i)) as (bs & -> & Hlen & Hbs).
    { intros j Hj. apply H. lia. }
    exists (t :: bs). simpl. split_and!; try done; [by rewrite Hlen|].
    intros [|j] t'; simpl.
    + intros [= <-]. by rewrite Nat.add_0_r.
    + intros Hj. apply Hbs in Hj. by replace (i + S j)%nat with (S i + j)%nat by lia.
Qed.

Lemma first_bases_run (k : Krylov) n :
  ok k -> (n <= k_m k + 1)%nat ->
  exists bs, first_bases n (k_bases k) = Returned bs /\ length bs = n /\
    forall j t, bs !! j = Some t -> k_bases k !! j = Some (Some t).
Proof.
  intros (_ & _ & _ & _ & _ & Hb) Hn.
  destruct (first_bases_from_run (k_bases k) 0 n) as (bs & Hrun & Hlen & Hbs).
  { intros j Hj. apply Hb. lia. }
  exists bs. split_and!; done.
Qed.

(** ** The statements before the loop *)

Lemma lanczos_init_run :
  (1 <= max_iterations params)%nat ->
  init = Returned
    (MkKrylov 0 (<[0%nat:=Some v0]> (replicate (max_iterations params) None))
       (<[0%nat:=alpha0]> (replicate (max_iterations params) 0%float))
       (replicate (max_iterations params) 0%float)
       (<[0%nat:=0%float]> (replicate (max_iterations params) 0%float))
       w0 alpha0).
Proof.
  intros Hmax. unfold lanczos_init, Lanczos.alpha0, Lanczos.w0, Lanczos.v0.
  destruct (Normalize pinit_state) as [x nrm]. simpl.
  rewrite vec_set_run by (rewrite length_replicate; lia). simpl.
  rewrite (basis_run _ _ x)
    by (apply list_lookup_insert_eq; rewrite length_replicate; lia).
  simpl.
  rewrite vec_set_run by (rewrite length_replicate; lia). simpl.
  rewrite vec_set_run by (rewrite length_replicate; lia). simpl.
  erewrite vec_get_run
    by (apply list_lookup_insert_eq; rewrite length_replicate; lia).
  reflexivity.
Qed.

Lemma lanczos_init_fault :
  max_iterations params = 0%nat -> init = Faulted (OutOfRange 0 0).
Proof.
  intros Hmax. unfold lanczos_init. rewrite Hmax.
  destruct (Normalize pinit_state) as [x nrm]. reflexivity.
Qed.

Lemma lanczos_init_ok (k0 : Krylov) :
  init = Returned k0 ->
  ok k0 /\ k_m k0 = 0%nat /\ k_energy0 k0 = alpha0 /\ k_last k0 = w0 /\
  k_bases k0 !! 0%nat = Some (Some v0) /\ k_a k0 !! 0%nat = Some alpha0.
Proof.
  destruct (decide (max_iterations params = 0)%nat) as [H0|Hpos].
  { rewrite (lanczos_init_fault H0). discriminate. }
  rewrite lanczos_init_run by lia. intros [= <-]. simpl.
  assert (Hl : forall A (x : A), (0 < length (replicate (max_iterations params) x))%nat)
    by (intros; rewrite length_replicate; lia).
  split_and!; try done.
  - unfold krylov_ok. simpl. rewrite !length_insert, !length_replicate.
    split_and!; try done; [lia|].
    intros j Hj. replace j with 0%nat by lia. exists v0.
    apply list_lookup_insert_eq, Hl.
  - apply list_lookup_insert_eq, Hl.
  - apply list_lookup_insert_eq, Hl.
Qed.

(** ** One pass *)

Lemma lanczos_residual_run (k : Krylov) :
  ok k -> exists g eta, residual k = Returned (g, eta).
Proof.
  intros (Hb & Ha & _ & HN & Hm & Hbs). unfold lanczos_residual.
  destruct (lookup_lt_is_Some_2 (k_a k) (k_m k) ltac:(lia)) as [am1 Ham1].
  destruct (lookup_lt_is_Some_2 (k_N k) (k_m k) ltac:(lia)) as [Nm1 HNm1].
  destruct (Hbs (k_m k) ltac:(lia)) as [bm1 Hbm1].
  replace (k_m k + 1 - 1)%nat with (k_m k) by lia.
  destruct (Nat.eqb_spec (k_m k + 1) 1) as [H1|H1].
  - rewrite (vec_get_run _ _ _ Ham1). simpl.
    rewrite (basis_run _ _ _ Hbm1). simpl.
    destruct (Normalize _) as [g eta]. by exists g, eta.
  - destruct (Hbs (k_m k + 1 - 2)%nat ltac:(lia)) as [bm2 Hbm2].
    rewrite (vec_get_run _ _ _ Ham1). simpl.
    rewrite (vec_get_run _ _ _ HNm1). simpl.
    rewrite (basis_run _ _ _ Hbm1). simpl.
    rewrite (basis_run _ _ _ Hbm2). simpl.
    destruct (Normalize _) as [g eta]. by exists g, eta.
Qed.

(** At [m == 1] the residual is [w_0 - alpha_0 b_0]. *)
Lemma lanczos_residual_first (k0 : Krylov) :
  init = Returned k0 -> residual k0 = Returned (Normalize gamma1).
Proof.
  intros Hinit. apply lanczos_init_ok in Hinit as (_ & Hm & HE & Hl & Hb & Ha).
  unfold lanczos_residual. rewrite Hm. simpl.
  rewrite (vec_get_run _ _ _ Ha). simpl.
  rewrite (basis_run _ _ _ Hb). simpl. by rewrite Hl.
Qed.

(** The breakdown branch at [m == 1]. *)
Lemma lanczos_extend_breakdown_first (k : Krylov) g eta :
  ok k -> k_m k = 0%nat -> residual k = Returned (g, eta) ->
  (eta =? 0)%float = true ->
  exists b0, k_bases k !! 0%nat = Some (Some b0) /\
    extend k = Returned (Breakdown (MkLanczosRes 1 (k_energy0 k) b0)).
Proof.
  intros Hok Hm Hres Heta. destruct Hok as (_ & _ & _ & _ & _ & Hbs).
  destruct (Hbs 0%nat ltac:(lia)) as [b0 Hb0]. exists b0. split; [done|].
  unfold lanczos_extend. rewrite Hres. simpl. rewrite Heta, Hm. simpl.
  by rewrite (basis_run _ _ _ Hb0).
Qed.

(** The breakdown branch at [m > 1]. *)
Lemma lanczos_extend_breakdown_later (k : Krylov) g eta :
  ok k -> (0 < k_m k)%nat -> residual k = Returned (g, eta) ->
  (eta =? 0)%float = true ->
  let m := (k_m k + 1)%nat in
  exists bs b0, first_bases m (k_bases k) = Returned bs /\
    length bs = m /\ bs !! 0%nat = Some b0 /\
    extend k = Returned (Breakdown (MkLanczosRes m (k_energy0 k)
      (LinearCombineN m (TridiagGsSolver (k_a k) (k_b k) m JobV).2 bs
                      0%float (zero_like b0)))).
Proof.
  intros Hok Hm Hres Heta m.
  destruct (first_bases_run k m Hok ltac:(lia)) as (bs & Hfb & Hlen & Hbs).
  destruct (lookup_lt_is_Some_2 bs 0 ltac:(lia)) as [b0 Hb0].
  exists bs, b0. split_and!; try done.
  unfold lanczos_extend. rewrite Hres. simpl. rewrite Heta.
  fold m. destruct (Nat.eqb_spec m 1) as [H1|H1]; [lia|].
  destruct (TridiagGsSolver _ _ m JobV) as [eigval eigvec]. simpl.
  rewrite (basis_run _ _ b0) by (apply (Hbs 0%nat), Hb0). simpl.
  rewrite Hfb. reflexivity.
Qed.

(** The other branch stores at index [m]: it faults exactly when [m] is
    not below the allocated size. *)
Lemma lanczos_extend_store (k : Krylov) g eta :
  ok k -> residual k = Returned (g, eta) -> (eta =? 0)%float = false ->
  if decide (k_m k + 1 < max_iterations params)%nat
  then exists ke, extend k = Returned (Extended ke) /\ ok ke /\
         k_m ke = (k_m k + 1)%nat /\ k_energy0 ke = k_energy0 k
  else extend k = Faulted (OutOfRange (k_m k + 1) (max_iterations params)).
Proof.
  intros (Hb & Ha & Hbb & HN & Hm & Hbs) Hres Heta.
  unfold lanczos_extend. rewrite Hres. simpl. rewrite Heta.
  destruct (decide _) as [Hlt|Hge].
  - rewrite vec_set_run by lia. simpl.
    rewrite vec_set_run by lia. simpl.
    rewrite vec_set_run by lia. simpl.
    rewrite (basis_run _ _ g) by (apply list_lookup_insert_eq; lia). simpl.
    rewrite vec_set_run by lia. simpl.
    eexists. split; [reflexivity|]. split_and!; try done.
    unfold krylov_ok. simpl. rewrite !length_insert.
    split_and!; try done.
    intros j Hj. destruct (decide (j = k_m k + 1)%nat) as [->|Hne].
    + exists g. apply list_lookup_insert_eq. lia.
    + rewrite list_lookup_insert_ne by lia. apply Hbs. lia.
  - rewrite vec_set_fault by lia. simpl. by rewrite HN.
Qed.

(** The end of the pass never faults. *)
Lemma lanczos_test_run (ke : Krylov) :
  ok ke ->
  let m := k_m ke in
  let E_new := (TridiagGsSolver (k_a ke) (k_b ke) (m + 1) JobN).1 in
  let c := (TridiagGsSolver (k_a ke) (k_b ke) (m + 1) JobV).2 in
  exists bs b0, first_bases (m + 1) (k_bases ke) = Returned bs /\
    length bs = (m + 1)%nat /\ bs !! 0%nat = Some b0 /\
    test ke =
      if stop_test pinit_state params (k_energy0 ke) E_new m
      then Returned (Finished (MkLanczosRes (m + 1) E_new
             (LinearCombineN (m + 1) c bs 0%float (zero_like b0))))
      else Returned (Continue (MkKrylov m (k_bases ke) (k_a ke) (k_b ke)
                                 (k_N ke) (k_last ke) E_new)).
Proof.
  intros Hok m E_new c.
  destruct (first_bases_run ke (m + 1) Hok ltac:(lia)) as (bs & Hfb & Hlen & Hbs).
  destruct (lookup_lt_is_Some_2 bs 0 ltac:(lia)) as [b0 Hb0].
  exists bs, b0. split_and!; try done.
  unfold lanczos_test. subst E_new c. fold m.
  destruct (TridiagGsSolver _ _ (m + 1) JobN) as [eigval ev]. simpl.
  destruct (stop_test _ _ _ _ _); [|reflexivity].
  destruct (TridiagGsSolver _ _ (m + 1) JobV) as [eigval' eigvec]. simpl.
  rewrite (basis_run _ _ b0) by (apply (Hbs 0%nat), Hb0). simpl.
  rewrite Hfb. reflexivity.
Qed.

Lemma lanczos_test_Continue_ok (ke k' : Krylov) :
  ok ke -> test ke = Returned (Continue k') ->
  ok k' /\ k_m k' = k_m ke /\
  stop_test pinit_state params (k_energy0 ke)
    (TridiagGsSolver (k_a ke) (k_b ke) (k_m ke + 1) JobN).1 (k_m ke) = false.
Proof.
  intros Hok Ht. destruct (lanczos_test_run ke Hok) as (bs & b0 & _ & _ & _ & Hrun).
  rewrite Hrun in Ht. destruct (stop_test _ _ _ _ _); [discriminate|].
  injection Ht as <-. split_and!; done.
Qed.

Lemma lanczos_extend_Extended_ok (k ke : Krylov) :
  ok k -> extend k = Returned (Extended ke) ->
  ok ke /\ k_m ke = (k_m k + 1)%nat /\ k_energy0 ke = k_energy0 k.
Proof.
  intros Hok He.
  destruct (lanczos_residual_run k Hok) as (g & eta & Hres).
  pose proof (lanczos_extend_store k g eta Hok Hres) as Hst.
  destruct (eta =? 0)%float eqn:Heta.
  - exfalso. destruct (decide (k_m k = 0)%nat) as [Hm|Hm].
    + destruct (lanczos_extend_breakdown_first k g eta Hok Hm Hres Heta)
        as (b0 & _ & Hrun). congruence.
    + destruct (lanczos_extend_breakdown_later k g eta Hok ltac:(lia) Hres Heta)
        as (bs & b0 & _ & _ & _ & Hrun). congruence.
  - specialize (Hst eq_refl). destruct (decide _).
    + destruct Hst as (ke' & He' & Hok' & Hm' & HE'). rewrite He' in He.
      by injection He as <-.
    + rewrite Hst in He. discriminate.
Qed.

Lemma lanczos_iter_Continue_ok (k k' : Krylov) :
  ok k -> iter k = Returned (Continue k') ->
  ok k' /\ k_m k' = (k_m k + 1)%nat /\
  (k_m k' + 1 < max_iterations params)%nat.
Proof.
  intros Hok Hit. apply lanczos_iter_Continue in Hit as (ke & He & Ht).
  destruct (lanczos_extend_Extended_ok k ke Hok He) as (Hoke & Hmke & _).
  destruct (lanczos_test_Continue_ok ke k' Hoke Ht) as (Hok' & Hm' & Hstop).
  split_and!; try done; [congruence|].
  unfold stop_test in Hstop. apply orb_false_elim in Hstop as [_ Hstop].
  apply Nat.eqb_neq in Hstop. rewrite Hm'.
  destruct Hoke as (_ & _ & _ & _ & Hlt & _). lia.
Qed.

Lemma after_iters_ok (n : nat) (k0 k : Krylov) :
  init = Returned k0 -> after n k0 = Some k -> ok k /\ k_m k = n.
Proof.
  intros Hinit. apply lanczos_init_ok in Hinit as (Hok0 & Hm0 & _).
  revert k. induction n as [|n IH]; intros k; simpl.
  - by intros [= <-].
  - destruct (after n k0) as [k1|]; [|discriminate].
    destruct (IH k1 eq_refl) as [Hok1 Hm1].
    destruct (iter k1) as [[k'|r]|f] eqn:Hit; try discriminate.
    intros [= <-].
    destruct (lanczos_iter_Continue_ok k1 k' Hok1 Hit) as (Hok' & Hm' & _).
    split; [done|lia].
Qed.

(** C1. Whenever the loop reaches its convergence test (pass [m], after
    [m - 1] passes that all continued, the residual not being zero and
    [a[m]] stored), it stops exactly when [E - E_new < error] (one-sided,
    no absolute value), or [m] equals the element count of the initial
    state, or [m == max_iterations - 1].  When it stops, the solver returns
    [iters = m + 1], [gs_eng = E_new] and [gs_vec] the combination of the
    [m + 1] stored basis vectors with the eigenvector of the
    [(m+1) x (m+1)] problem solved once more with ['V']; otherwise the next
    pass starts with [E = E_new]. *)
Theorem LanczosSolver_convergence_stop (n : nat) (k0 k ke : Krylov) :
  init = Returned k0 ->
  after n k0 = Some k ->
  extend k = Returned (Extended ke) ->
  let m := k_m ke in
  let E := k_energy0 k in
  let E_new := (TridiagGsSolver (k_a ke) (k_b ke) (m + 1) JobN).1 in
  let c := (TridiagGsSolver (k_a ke) (k_b ke) (m + 1) JobV).2 in
  m = (n + 1)%nat /\
  exists bs b0,
    first_bases (m + 1) (k_bases ke) = Returned bs /\
    length bs = (m + 1)%nat /\ bs !! 0%nat = Some b0 /\
    if (E - E_new <? error params)%float
       || Nat.eqb m (ten_size pinit_state)
       || Nat.eqb m (max_iterations params - 1)
    then solver = Returned (MkLanczosRes (m + 1) E_new
                    (LinearCombineN (m + 1) c bs 0%float (zero_like b0)))
    else after (n + 1) k0 =
           Some (MkKrylov m (k_bases ke) (k_a ke) (k_b ke) (k_N ke)
                          (k_last ke) E_new).
Proof.
  intros Hinit Haft He m E E_new c.
  destruct (after_iters_ok n k0 k Hinit Haft) as [Hok Hm].
  destruct (lanczos_extend_Extended_ok k ke Hok He) as (Hoke & Hmke & HE).
  split; [subst m; lia|].
  destruct (lanczos_test_run ke Hoke) as (bs & b0 & Hfb & Hlen & Hb0 & Hrun).
  exists bs, b0. split_and!; try done.
  fold m E_new c in Hrun. rewrite HE in Hrun. fold E in Hrun.
  unfold stop_test, eff_ham_eff_dim in Hrun.
  assert (Hit : iter k = test ke).
  { unfold lanczos_iter. by rewrite He. }
  destruct (_ || _ || _).
  - unfold LanczosSolver. rewrite Hinit. simpl.
    rewrite (lanczos_loop_after n k0 k Haft), lanczos_loop_step, Hit, Hrun.
    reflexivity.
  - replace (n + 1)%nat with (S n) by lia. simpl.
    rewrite Haft, Hit, Hrun. reflexivity.
Qed.



Lemma lanczos_iter_breakdown (k : Krylov) (r : LanczosRes) :
  extend k = Returned (Breakdown r) -> iter k = Returned (Finished r).
Proof. intros He. unfold lanczos_iter. by rewrite He. Qed.

(** C4. With room for at least one basis vector: if the first residual
    [w_0 - alpha_0 b_0] has norm exactly zero, the solver returns at once
    with [iters = 1], [gs_eng = alpha_0 = <b_0|H b_0>] and [gs_vec] a
    copy of the normalised initial state [b_0]; if the residual of a later
    pass [m > 1] has norm zero, the solver returns [iters = m] and [gs_vec]
    the combination of the [m] stored basis vectors with the eigenvector of
    the [m x m] tridiagonal problem. *)
Theorem LanczosSolver_breakdown :
  (1 <= max_iterations params)%nat ->
  (((Normalize gamma1).2 =? 0)%float = true ->
   solver = Returned (MkLanczosRes 1 alpha0 v0)) /\
  (forall (n : nat) (k0 k : Krylov) (g : Ten) (eta : float),
     (1 <= n)%nat ->
     init = Returned k0 -> after n k0 = Some k ->
     residual k = Returned (g, eta) -> (eta =? 0)%float = true ->
     let m := (n + 1)%nat in
     exists bs b0,
       first_bases m (k_bases k) = Returned bs /\
       length bs = m /\ bs !! 0%nat = Some b0 /\
       solver = Returned (MkLanczosRes m (k_energy0 k)
         (LinearCombineN m (TridiagGsSolver (k_a k) (k_b k) m JobV).2 bs
                         0%float (zero_like b0)))).
Proof.
  intros Hmax. split.
  - intros Heta. pose proof (lanczos_init_run Hmax) as Hinit.
    destruct (lanczos_init_ok _ Hinit) as (Hok & Hm & HE & _ & Hb & _).
    pose proof (lanczos_residual_first _ Hinit) as Hres.
    destruct (Normalize gamma1) as [g eta] eqn:Hn. simpl in Heta.
    destruct (lanczos_extend_breakdown_first _ g eta Hok Hm Hres Heta)
      as (b0 & Hb0 & Hrun).
    unfold LanczosSolver. rewrite Hinit. simpl.
    rewrite lanczos_loop_step, (lanczos_iter_breakdown _ _ Hrun).
    rewrite Hb in Hb0. injection Hb0 as <-. by rewrite HE.
  - intros n k0 k g eta Hn Hinit Haft Hres Heta m.
    destruct (after_iters_ok n k0 k Hinit Haft) as [Hok Hm].
    destruct (lanczos_extend_breakdown_later k g eta Hok ltac:(lia) Hres Heta)
      as (bs & b0 & Hfb & Hlen & Hb0 & Hrun).
    rewrite Hm in Hfb, Hlen, Hrun. fold m in Hfb, Hlen, Hrun.
    exists bs, b0. split_and!; try done.
    unfold LanczosSolver. rewrite Hinit. simpl.
    by rewrite (lanczos_loop_after n k0 k Haft), lanczos_loop_step,
      (lanczos_iter_breakdown _ _ Hrun).
Qed.

(** ** The iteration cap *)

Lemma lanczos_loop_within_cap (d : nat) (k : Krylov) :
  ok k -> (k_m k + 1 < max_iterations params)%nat ->
  (max_iterations params - k_m k <= d)%nat ->
  exists r, loop k = Returned r /\ (iters r <= max_iterations params)%nat.
Proof.
  revert k. induction d as [|d IH]; intros k Hok Hm Hd; [lia|].
  rewrite lanczos_loop_step.
  destruct (lanczos_residual_run k Hok) as (g & eta & Hres).
  destruct (eta =? 0)%float eqn:Heta.
  - destruct (decide (k_m k = 0)%nat) as [Hm0|Hm0].
    + destruct (lanczos_extend_breakdown_first k g eta Hok Hm0 Hres Heta)
        as (b0 & _ & Hrun).
      rewrite (lanczos_iter_breakdown _ _ Hrun). eexists. split; [done|]. simpl. lia.
    + destruct (lanczos_extend_breakdown_later k g eta Hok ltac:(lia) Hres Heta)
        as (bs & b0 & _ & _ & _ & Hrun).
      rewrite (lanczos_iter_breakdown _ _ Hrun). eexists. split; [done|]. simpl. lia.
  - pose proof (lanczos_extend_store k g eta Hok Hres Heta) as Hst.
    rewrite decide_True in Hst by lia.
    destruct Hst as (ke & He & Hoke & Hmke & _).
    destruct (lanczos_test_run ke Hoke) as (bs & b0 & _ & _ & _ & Hrun).
    assert (Hit : iter k = test ke) by (unfold lanczos_iter; by rewrite He).
    rewrite Hit. destruct (test ke) as [[k'|r]|f] eqn:Ht.
    + destruct (lanczos_iter_Continue_ok k k' Hok Hit) as (Hok' & Hm' & Hlt').
      apply IH; [done|done|lia].
    + destruct (stop_test _ _ _ _ _); [|discriminate].
      injection Hrun as ->. eexists. split; [done|]. simpl. lia.
    + destruct (stop_test _ _ _ _ _); discriminate.
Qed.

(** With [max_iterations >= 2] the solver returns, reports at most
    [max_iterations] iterations and never leaves the allocated arrays. *)
Lemma LanczosSolver_within_cap :
  (2 <= max_iterations params)%nat ->
  exists r, solver = Returned r /\ (iters r <= max_iterations params)%nat.
Proof.
  intros Hmax. pose proof (lanczos_init_run ltac:(lia)) as Hinit.
  destruct (lanczos_init_ok _ Hinit) as (Hok & Hm & _).
  unfold LanczosSolver. rewrite Hinit. simpl.
  apply (lanczos_loop_within_cap (max_iterations params)); [done|lia|lia].
Qed.

(** With [max_iterations = 1] and a first residual that is not zero, the
    first pass stores [N[1]], [bases[1]] and [a[1]] past the end of arrays
    of size 1. *)
Lemma LanczosSolver_overrun_cap_1 :
  max_iterations params = 1%nat ->
  ((Normalize gamma1).2 =? 0)%float = false ->
  solver = Faulted (OutOfRange 1 1).
Proof.
  intros Hmax Heta. pose proof (lanczos_init_run ltac:(lia)) as Hinit.
  destruct (lanczos_init_ok _ Hinit) as (Hok & Hm & _).
  pose proof (lanczos_residual_first _ Hinit) as Hres.
  destruct (Normalize gamma1) as [g eta] eqn:Hn. simpl in Heta.
  pose proof (lanczos_extend_store _ g eta Hok Hres Heta) as Hst.
  rewrite decide_False in Hst by (rewrite Hm; lia).
  unfold LanczosSolver. rewrite Hinit. simpl.
  rewrite lanczos_loop_step. unfold lanczos_iter. rewrite Hst. simpl.
  by rewrite Hmax.
Qed.

Lemma lanczos_iter_Continue_dim (k k' : Krylov) :
  ok k -> iter k = Returned (Continue k') ->
  k_m k' <> eff_ham_eff_dim pinit_state.
Proof.
  intros Hok Hit. apply lanczos_iter_Continue in Hit as (ke & He & Ht).
  destruct (lanczos_extend_Extended_ok k ke Hok He) as (Hoke & Hmke & _).
  destruct (lanczos_test_Continue_ok ke k' Hoke Ht) as (Hok' & Hm' & Hstop).
  unfold stop_test in Hstop. apply orb_false_elim in Hstop as [Hstop _].
  apply orb_false_elim in Hstop as [_ Hstop].
  apply Nat.eqb_neq in Hstop. congruence.
Qed.

Lemma lanczos_loop_bounds (d : nat) (k : Krylov) :
  ok k -> (k_m k + 1 < max_iterations params)%nat ->
  (max_iterations params - k_m k <= d)%nat ->
  exists r, loop k = Returned r /\
    (k_m k + 1 <= iters r <= max_iterations params)%nat /\
    ((k_m k < eff_ham_eff_dim pinit_state)%nat ->
     (iters r <= eff_ham_eff_dim pinit_state + 1)%nat).
Proof.
  revert k. induction d as [|d IH]; intros k Hok Hm Hd; [lia|].
  rewrite lanczos_loop_step.
  destruct (lanczos_residual_run k Hok) as (g & eta & Hres).
  destruct (eta =? 0)%float eqn:Heta.
  - destruct (decide (k_m k = 0)%nat) as [Hm0|Hm0].
    + destruct (lanczos_extend_breakdown_first k g eta Hok Hm0 Hres Heta)
        as (b0 & _ & Hrun).
      rewrite (lanczos_iter_breakdown _ _ Hrun). eexists. split; [done|].
      simpl. lia.
    + destruct (lanczos_extend_breakdown_later k g eta Hok ltac:(lia) Hres Heta)
        as (bs & b0 & _ & _ & _ & Hrun).
      rewrite (lanczos_iter_breakdown _ _ Hrun). eexists. split; [done|].
      simpl. lia.
  - pose proof (lanczos_extend_store k g eta Hok Hres Heta) as Hst.
    rewrite decide_True in Hst by lia.
    destruct Hst as (ke & He & Hoke & Hmke & _).
    destruct (lanczos_test_run ke Hoke) as (bs & b0 & _ & _ & _ & Hrun).
    assert (Hit : iter k = test ke) by (unfold lanczos_iter; by rewrite He).
    rewrite Hit. destruct (test ke) as [[k'|r]|f] eqn:Ht.
    + destruct (lanczos_iter_Continue_ok k k' Hok Hit) as (Hok' & Hm' & Hlt').
      pose proof (lanczos_iter_Continue_dim k k' Hok Hit) as Hdim.
      destruct (IH k' Hok' Hlt' ltac:(lia)) as (r & Hr & Hb & He').
      exists r. split; [done|]. split; [lia|]. intros Hlt. apply He'. lia.
    + destruct (stop_test _ _ _ _ _); [|discriminate].
      injection Hrun as ->. eexists. split; [done|]. simpl. lia.
    + destruct (stop_test _ _ _ _ _); discriminate.
Qed.

(** X17. With room for two basis vectors or more, the solver returns, and the
    number of iterations it reports is at least 1, at most
    [max_iterations], and at most the size of the initial state plus 1
    when the initial state has an element. *)
Theorem LanczosSolver_iteration_bounds :
  (2 <= max_iterations params)%nat ->
  exists r,
    LanczosSolver eff_ham pinit_state eff_ham_mul_state params = Returned r /\
    (1 <= iters r <= max_iterations params)%nat /\
    ((1 <= eff_ham_eff_dim pinit_state)%nat ->
     (iters r <= eff_ham_eff_dim pinit_state + 1)%nat).
Proof.
  intros Hmax. pose proof (lanczos_init_run ltac:(lia)) as Hinit.
  destruct (lanczos_init_ok _ Hinit) as (Hok & Hm & _).
  unfold LanczosSolver. rewrite Hinit. simpl.
  destruct (lanczos_loop_bounds (max_iterations params) _ Hok) as (r & Hr & Hb & He);
    [lia..|].
  exists r. split; [done|]. split; [lia|]. intros Hd. apply He. lia.
Qed.

(** X18. With [max_iterations = 0] the solver stores the initial state past the
    end of an empty array, before the Hamiltonian is applied once. *)
Theorem LanczosSolver_zero_cap :
  max_iterations params = 0%nat ->
  LanczosSolver eff_ham pinit_state eff_ham_mul_state params
  = Faulted (OutOfRange 0 0).
Proof.
  intros Hmax. unfold LanczosSolver. by rewrite (lanczos_init_fault Hmax).
Qed.

End Facts.
End LanczosFacts.

(* ===================================================================== *)
(** * lanczos_dmrg_solver_impl.h : one bond of the executor                *)
(* ===================================================================== *)

Module DmrgFacts.
Import Mps Lanczos Dmrg.
Local Open Scope exec_scope.

Section Facts.
Context `{TL : TensorLib} `{CS : Consts}.
Implicit Types (ex : DMRGExecutor) (W : SparMat Ten).

(** ** The effective-Hamiltonian assembler *)

Lemma for_from_terms ex0 (body : nat -> E unit)
    (f : nat -> list EffectiveHamiltonianTerm) count :
  forall i ts,
  (forall j ts', (i <= j < i + count)%nat ->
     body j (with_terms ts' ex0) = Some (tt, with_terms (ts' ++ f j) ex0)) ->
  for_from i count body (with_terms ts ex0)
  = Some (tt, with_terms (ts ++ (seq i count ≫= f)) ex0).
Proof.
  induction count as [|count IH]; intros i ts Hbody; simpl.
  - by rewrite app_nil_r.
  - unfold ebind at 1. rewrite Hbody by lia.
    rewrite IH by (intros; apply Hbody; lia).
    by rewrite <- app_assoc.
Qed.

Lemma IsNull_run W x y ex :
  (CalcOffset W x y < length (indexes W))%nat ->
  IsNull W x y ex = Some (is_null W x y, ex).
Proof.
  intros Hlt. unfold IsNull, is_null, ebind.
  destruct (lookup_lt_is_Some_2 _ _ Hlt) as [idx Hidx]. rewrite Hidx. simpl.
  unfold eret. do 2 f_equal.
  destruct (Z.eqb_spec idx (-1)) as [->|Hne].
  - by rewrite bool_decide_eq_true_2.
  - rewrite bool_decide_eq_false_2; [done|]. congruence.
Qed.

Lemma CalcOffset_lt W x y :
  (x < rows W)%nat -> (y < cols W)%nat ->
  length (indexes W) = (rows W * cols W)%nat ->
  (CalcOffset W x y < length (indexes W))%nat.
Proof. unfold CalcOffset. intros Hx Hy ->. nia. Qed.

Lemma r_block_index_small (N r : nat) :
  (r < N)%nat -> Z.of_nat N < 2 ^ 64 -> r_block_index N r = (N - 1 - r)%nat.
Proof.
  intros Hr HN. unfold r_block_index, wrap64.
  rewrite (Z.mod_small (Z.of_nat N - 1)) by lia.
  rewrite Z.mod_small by lia. lia.
Qed.

(** A sorted enumeration of sorted blocks is sorted. *)
Lemma StronglySorted_bind {A B} (RA : relation A) (R : relation B)
    (f : A -> list B) (l : list A) :
  StronglySorted RA l ->
  (forall x, x ∈ l -> StronglySorted R (f x)) ->
  (forall x y a b, RA x y -> a ∈ f x -> b ∈ f y -> R a b) ->
  StronglySorted R (l ≫= f).
Proof.
  intros Hl Hf HR. induction Hl as [|x l Hl IH Hx]; [constructor|].
  rewrite bind_cons. apply StronglySorted_app.
  split_and!.
  - intros a b Ha [y [Hb Hy]]%list_elem_of_bind.
    rewrite Forall_forall in Hx. eapply HR; [apply Hx, Hy|done..].
  - apply Hf. by left.
  - apply IH. intros y Hy. apply Hf. by right.
Qed.

Lemma StronglySorted_seq (i n : nat) : StronglySorted lt (seq i n).
Proof.
  revert i. induction n as [|n IH]; intros i; simpl; constructor; [apply IH|].
  apply Forall_forall. intros j Hj%elem_of_seq. lia.
Qed.

Lemma triples_elem W1 W2 (i j k : nat) :
  (i, j, k) ∈ triples W1 W2 <->
  (i < rows W1)%nat /\ (j < cols W1)%nat /\ (k < cols W2)%nat /\
  is_null W1 i j = false /\ is_null W2 j k = false.
Proof.
  unfold triples. rewrite list_elem_of_bind. split.
  - intros (i' & (j' & (k' & Hin & Hk)%list_elem_of_bind & Hj)%list_elem_of_bind & Hi).
    apply elem_of_seq in Hi, Hj, Hk.
    destruct (is_null W1 i' j') eqn:Hn1, (is_null W2 j' k') eqn:Hn2; simpl in Hin;
      try (by apply elem_of_nil in Hin).
    apply list_elem_of_singleton in Hin. injection Hin as -> -> ->.
    split_and!; (done || lia).
  - intros (Hi & Hj & Hk & Hn1 & Hn2). exists i. split; [|apply elem_of_seq; lia].
    apply list_elem_of_bind. exists j. split; [|apply elem_of_seq; lia].
    apply list_elem_of_bind. exists k. split; [|apply elem_of_seq; lia].
    rewrite Hn1, Hn2. simpl. by apply list_elem_of_singleton.
Qed.

Lemma triples_sorted W1 W2 : StronglySorted lex_lt (triples W1 W2).
Proof.
  unfold triples.
  apply (StronglySorted_bind lt); [apply StronglySorted_seq| |].
  - intros i _. apply (StronglySorted_bind lt); [apply StronglySorted_seq| |].
    + intros j _. apply (StronglySorted_bind lt); [apply StronglySorted_seq| |].
      * intros k _. destruct (_ && _); repeat constructor.
      * intros k k' a b Hlt Ha Hb.
        destruct (negb (is_null W1 i j) && negb (is_null W2 j k));
          [|by apply elem_of_nil in Ha].
        destruct (negb (is_null W1 i j) && negb (is_null W2 j k'));
          [|by apply elem_of_nil in Hb].
        apply list_elem_of_singleton in Ha, Hb. subst. simpl. lia.
    + intros j j' a b Hlt (k & Ha & _)%list_elem_of_bind (k' & Hb & _)%list_elem_of_bind.
      destruct (negb (is_null W1 i j) && negb (is_null W2 j k));
        [|by apply elem_of_nil in Ha].
      destruct (negb (is_null W1 i j') && negb (is_null W2 j' k'));
        [|by apply elem_of_nil in Hb].
      apply list_elem_of_singleton in Ha, Hb. subst. simpl. lia.
  - intros i i' a b Hlt
      (j & (k & Ha & _)%list_elem_of_bind & _)%list_elem_of_bind
      (j' & (k' & Hb & _)%list_elem_of_bind & _)%list_elem_of_bind.
    destruct (negb (is_null W1 i j) && negb (is_null W2 j k));
      [|by apply elem_of_nil in Ha].
    destruct (negb (is_null W1 i' j') && negb (is_null W2 j' k'));
      [|by apply elem_of_nil in Hb].
    apply list_elem_of_singleton in Ha, Hb. subst. simpl. lia.
Qed.

Lemma fmap_list_bind {A B C} (g : B -> C) (f : A -> list B) (l : list A) :
  g <$> (l ≫= f) = l ≫= (fun x => g <$> f x).
Proof.
  induction l as [|x l IH]; [done|]. rewrite !bind_cons, fmap_app. by rewrite IH.
Qed.

(** C2. At the bond [(l, r)] with consistent sizes (the left group has one
    tensor per row of [W[l]], the right group one per column of [W[r]],
    and the columns of [W[l]] are the rows of [W[r]]): the assembler
    discards the old terms and emits exactly the tuples
    [(L[l][i], W[l](i,j), W[r](j,k), R[N-1-r][k])] of the index triples
    [(i, j, k)], [i < D_l], [j < D_{l+1}], [k < D_{r+1}], at which neither
    [W[l].IsNull(i,j)] nor [W[r].IsNull(j,k)] holds, in lexicographic order
    of [(i, j, k)]; nothing else in the executor changes. *)
Theorem SetEffectiveHamiltonianTerms_emits ex Wl Wr (lopg ropg : list Ten) :
  (r_site_ ex < N_ ex)%nat -> Z.of_nat (N_ ex) < 2 ^ 64 ->
  mat_repr_mpo_ ex !! l_site_ ex = Some Wl ->
  mat_repr_mpo_ ex !! r_site_ ex = Some Wr ->
  lopg_vec_ ex !! l_site_ ex = Some lopg -> length lopg = rows Wl ->
  ropg_vec_ ex !! (N_ ex - 1 - r_site_ ex)%nat = Some ropg ->
  length ropg = cols Wr ->
  cols Wl = rows Wr ->
  length (indexes Wl) = (rows Wl * cols Wl)%nat ->
  length (indexes Wr) = (rows Wr * cols Wr)%nat ->
  let emit := fun '(i, j, k) =>
    term_at (N_ ex) (l_site_ ex) (r_site_ ex) i j k in
  SetEffectiveHamiltonianTerms_ ex
    = Some (tt, with_terms (emit <$> triples Wl Wr) ex) /\
  (forall i j k,
     emit (i, j, k) ∈ emit <$> triples Wl Wr <->
     (i < rows Wl)%nat /\ (j < cols Wl)%nat /\ (k < cols Wr)%nat /\
     is_null Wl i j = false /\ is_null Wr j k = false) /\
  StronglySorted lex_lt (triples Wl Wr).
Proof.
  intros Hr HN HWl HWr Hlopg Hlen Hropg Hrlen Hcr Hil Hir emit.
  split_and!.
  - unfold SetEffectiveHamiltonianTerms_.
    unfold ebind at 1, eget. unfold ebind at 1, eput.
    rewrite Hlopg. unfold ebind at 1, must at 1, eret at 1.
    unfold for_range.
    rewrite (for_from_terms ex _
      (fun i => seq 0 (cols Wl) ≫= fun j => seq 0 (cols Wr) ≫= fun k =>
         if negb (is_null Wl i j) && negb (is_null Wr j k)
         then [emit (i, j, k)] else [])).
    { simpl. f_equal. f_equal. f_equal. rewrite Hlen. unfold triples.
      rewrite fmap_list_bind. apply list_bind_ext; [|done]. intros i.
      rewrite fmap_list_bind. apply list_bind_ext; [|done]. intros j.
      rewrite fmap_list_bind. apply list_bind_ext; [|done]. intros k.
      by destruct (_ && _). }
    intros i ts Hi. rewrite ?HWl, ?HWr. unfold ebind at 1, must at 1, eret at 1.
    apply for_from_terms. intros j ts' Hj.
    unfold ebind at 1, must at 1, eret at 1.
    apply for_from_terms. intros k ts'' Hk.
    unfold ebind at 1, must at 1, eret at 1.
    unfold ebind at 1. rewrite IsNull_run by (apply CalcOffset_lt; lia).
    destruct (is_null Wl i j) eqn:Hn1; simpl.
    { unfold eret. by rewrite app_nil_r. }
    unfold ebind at 1, must at 1, eret at 1.
    unfold ebind at 1. rewrite IsNull_run by (apply CalcOffset_lt; lia).
    destruct (is_null Wr j k) eqn:Hn2; simpl.
    { unfold eret. by rewrite app_nil_r. }
    rewrite (r_block_index_small _ _ Hr HN), Hropg.
    unfold ebind at 1, must at 1, eret at 1.
    destruct (lookup_lt_is_Some_2 ropg k ltac:(lia)) as [t Ht]. rewrite Ht.
    reflexivity.
  - intros i j k. rewrite <- triples_elem. split.
    + intros Hin. apply list_elem_of_fmap_1 in Hin as ([[i' j'] k'] & Heq & Hin).
      subst emit. cbv beta iota delta [term_at] in Heq.
      injection Heq as -> _ -> _ -> _. exact Hin.
    + intros Hin. by apply list_elem_of_fmap_2.
  - apply triples_sorted.
Qed.

(** ** The two-site update *)

#[local] Hint Resolve MpsFacts.wf_touch MpsFacts.wf_with_raw
  MpsFacts.wf_with_cano : mps.

Ltac eside :=
  solve [ simpl; eauto 40 with mps
        | simpl; rewrite ?length_insert; lia
        | simpl;
          repeat first
            [ rewrite list_lookup_insert_eq by (rewrite ?length_insert; lia)
            | rewrite list_lookup_insert_ne by congruence ];
          first [reflexivity | eassumption] ].
Ltac cano_solve :=
  simpl; rewrite ?list_lookup_insert, ?length_insert;
  repeat case_decide; first [done | lia | naive_solver lia].
Ltac enorm :=
  cbn [with_world with_lopg with_ropg with_cout with_terms
       sweep_params N_ mps_ mat_repr_mpo_ e0_ lopg_vec_ ropg_vec_
       left_boundary_ right_boundary_ dir_ l_site_ r_site_
       hamiltonian_terms_ disk_ cout_ fst snd].
Tactic Notation "erun" open_constr(L) :=
  unfold ebind at 1; rewrite L; [enorm | try eside ..].

Lemma mps_read_run ex idx t :
  wf (mps_ ex) -> raw_data_ (mps_ ex) !! idx = Some (Some t) ->
  mps_read idx ex = Some (t, with_world (touch idx (mps_ ex), disk_ ex) ex).
Proof.
  intros Hwf Ht. unfold mps_read, on_mps, Mps.bind.
  rewrite (MpsFacts.op_bracket_run _ _ _ t Hwf Ht).
  by rewrite (MpsFacts.deref_run _ _ _ t).
Qed.

Lemma mps_assign_run ex idx t t' :
  wf (mps_ ex) -> raw_data_ (mps_ ex) !! idx = Some (Some t) ->
  mps_assign idx t' ex
  = Some (tt, with_world (with_raw idx (Some t') (touch idx (mps_ ex)), disk_ ex) ex).
Proof.
  intros Hwf Ht. unfold mps_assign, on_mps, Mps.bind.
  rewrite (MpsFacts.op_bracket_run _ _ _ t Hwf Ht).
  unfold ref_assign, Mps.bind. rewrite (MpsFacts.deref_run _ _ _ t) by done.
  rewrite MpsFacts.set_raw_run; [done|]. simpl. eapply lookup_lt_Some, Ht.
Qed.

(** C3. In every two-site update at the bond [(l, r)] the optimised
    two-site state is split by the truncating SVD with left dimension
    count 2, [trunc_err], [Dmin], [Dmax] and the divergence of [MPS[l]].
    Moving right, [MPS[l]] becomes [U] and [MPS[r]] becomes [S Vt]: the
    singular values are absorbed at [r], and the site left behind, [l],
    holds the factor with the property of [U] (left-isometric), so the
    canonical center is at [r].  Moving left, [MPS[l]] becomes [U S] and
    [MPS[r]] becomes [Vt]: the singular values are absorbed at [l], and
    [r] holds the factor with the property of [Vt], so the canonical
    center is at [l].  No other site tensor is replaced. *)
Theorem TwoSiteUpdate__splits ex (tl tr : Ten)
    (terms : list (Ten * Ten * Ten * Ten)) :
  wf (mps_ ex) ->
  l_site_ ex <> r_site_ ex ->
  raw_data_ (mps_ ex) !! l_site_ ex = Some (Some tl) ->
  raw_data_ (mps_ ex) !! r_site_ ex = Some (Some tr) ->
  mapM (deref_term ex) (hamiltonian_terms_ ex) = Some terms ->
  (2 <= max_iterations (lancz_params (sweep_params ex)))%nat ->
  block_ready ex ->
  exists res ex',
    LanczosSolver terms (Contract tl tr [[2%nat]; [0%nat]])
      eff_ham_terms_mul_two_site_state (lancz_params (sweep_params ex))
    = Returned res /\
    TwoSiteUpdate_ ex = Some (gs_eng res, ex') /\
    let '(u, s, vt, _, _) :=
      SVDTrunc (gs_vec res) 2 (Div tl) (trunc_err (sweep_params ex))
               (Dmin (sweep_params ex)) (Dmax (sweep_params ex)) in
    raw_data_ (mps_ ex') =
      (if Ascii.eqb (dir_ ex) "r"
       then <[r_site_ ex := Some (ContractDT s vt [[1%nat]; [0%nat]])]>
              (<[l_site_ ex := Some u]> (raw_data_ (mps_ ex)))
       else <[r_site_ ex := Some vt]>
              (<[l_site_ ex := Some (ContractTD u s [[2%nat]; [0%nat]])]>
                 (raw_data_ (mps_ ex)))) /\
    (if Ascii.eqb (dir_ ex) "r"
     then raw_data_ (mps_ ex') !! l_site_ ex = Some (Some u) /\
          raw_data_ (mps_ ex') !! r_site_ ex
          = Some (Some (ContractDT s vt [[1%nat]; [0%nat]]))
     else raw_data_ (mps_ ex') !! l_site_ ex
          = Some (Some (ContractTD u s [[2%nat]; [0%nat]])) /\
          raw_data_ (mps_ ex') !! r_site_ ex = Some (Some vt)) /\
    (forall PL PR, SVDTrunc_gives PL PR ->
       exists a, raw_data_ (mps_ ex')
                   !! (if Ascii.eqb (dir_ ex) "r" then l_site_ ex else r_site_ ex)
                 = Some (Some a) /\
                 (if Ascii.eqb (dir_ ex) "r" then PL a else PR a)) /\
    (forall j, j <> l_site_ ex -> j <> r_site_ ex ->
       raw_data_ (mps_ ex') !! j = raw_data_ (mps_ ex) !! j).
Proof.
  intros Hwf Hlr Hl Hr Hterms Hmax Hready.
  destruct (LanczosFacts.LanczosSolver_within_cap terms
              (Contract tl tr [[2%nat]; [0%nat]])
              eff_ham_terms_mul_two_site_state
              (lancz_params (sweep_params ex)) Hmax) as (res & Hres & _).
  exists res.
  assert (Hll : (l_site_ ex < length (raw_data_ (mps_ ex)))%nat)
    by (eapply lookup_lt_Some, Hl).
  assert (Hrl : (r_site_ ex < length (raw_data_ (mps_ ex)))%nat)
    by (eapply lookup_lt_Some, Hr).
  assert (Hcl : (l_site_ ex < length (tens_cano_type_ (mps_ ex)))%nat)
    by (rewrite (proj1 Hwf); done).
  assert (Hcr : (r_site_ ex < length (tens_cano_type_ (mps_ ex)))%nat)
    by (rewrite (proj1 Hwf); done).
  unfold TwoSiteUpdate_.
  unfold ebind at 1, eget at 1.
  erun (mps_read_run _ _ tl).
  erun (mps_read_run _ _ tr).
  unfold ebind at 1.
  rewrite Hterms. unfold must at 1, eret at 1.
  unfold ebind at 1. rewrite Hres. unfold eret at 1.
  erun (mps_read_run _ _ tl).
  destruct (SVDTrunc _ _ _ _ _ _) as [[[[u s'] vt] err] D] eqn:Hsvd.
  destruct Hready as [(Hd & [lopg Hlopg] & [W HW] & Hlen)
                     |(Hd & [ropg Hropg] & [W HW] & Hlen)]; rewrite Hd.
  - change (Ascii.eqb "r" "r") with true. cbv iota.
    unfold ebind at 1.
    erun (mps_assign_run _ _ tl).
    erun (mps_assign_run _ _ tr).
    unfold ebind at 1, eget at 1. enorm.
    rewrite Hlopg. unfold ebind at 1, must at 1, eret at 1.
    erun (mps_read_run _ _ u).
    rewrite HW. unfold ebind at 1, must at 1, eret at 1.
    unfold ebind at 1, eget at 1. enorm.
    rewrite decide_True by done.
    eexists. split; [reflexivity|]. split; [reflexivity|]. enorm.
    assert (Hu : <[r_site_ ex := Some (ContractDT s' vt [[1%nat]; [0%nat]])]>
                   (<[l_site_ ex := Some u]> (raw_data_ (mps_ ex))) !! l_site_ ex
                 = Some (Some u)).
    { rewrite list_lookup_insert_ne by congruence.
      by rewrite list_lookup_insert_eq. }
    split_and!.
    + reflexivity.
    + exact Hu.
    + simpl. rewrite list_lookup_insert_eq; [done|]. by rewrite length_insert.
    + intros PL PR Hg. exists u. split; [exact Hu|].
      pose proof (proj1 (Hg (gs_vec res) 2%nat (Div tl)
                    (trunc_err (sweep_params ex)) (Dmin (sweep_params ex))
                    (Dmax (sweep_params ex)))) as HPL.
      by rewrite Hsvd in HPL.
    + intros j Hj1 Hj2. simpl. by rewrite !list_lookup_insert_ne by done.
  - change (Ascii.eqb "l" "r") with false. change (Ascii.eqb "l" "l") with true.
    cbv iota.
    unfold ebind at 1.
    erun (mps_assign_run _ _ tl).
    erun (mps_assign_run _ _ tr).
    unfold ebind at 1, eget at 1. enorm.
    rewrite Hropg. unfold ebind at 1, must at 1, eret at 1.
    erun (mps_read_run _ _ vt).
    rewrite HW. unfold ebind at 1, must at 1, eret at 1.
    unfold ebind at 1, eget at 1. enorm.
    rewrite decide_True by done.
    eexists. split; [reflexivity|]. split; [reflexivity|]. enorm.
    assert (Hv : <[r_site_ ex := Some vt]>
                   (<[l_site_ ex := Some (ContractTD u s' [[2%nat]; [0%nat]])]>
                      (raw_data_ (mps_ ex))) !! r_site_ ex
                 = Some (Some vt)).
    { rewrite list_lookup_insert_eq; [done|]. by rewrite length_insert. }
    split_and!.
    + reflexivity.
    + simpl. rewrite list_lookup_insert_ne by congruence.
      by rewrite list_lookup_insert_eq.
    + exact Hv.
    + intros PL PR Hg. exists vt. split; [exact Hv|].
      pose proof (proj2 (Hg (gs_vec res) 2%nat (Div tl)
                    (trunc_err (sweep_params ex)) (Dmin (sweep_params ex))
                    (Dmax (sweep_params ex)))) as HPR.
      by rewrite Hsvd in HPR.
    + intros j Hj1 Hj2. simpl. by rewrite !list_lookup_insert_ne by done.
Qed.

(** ** More on the assembler and on the two-site update *)

Lemma SetEffectiveHamiltonianTerms__run ex Wl Wr (lopg ropg : list Ten) :
  (r_site_ ex < N_ ex)%nat -> Z.of_nat (N_ ex) < 2 ^ 64 ->
  mat_repr_mpo_ ex !! l_site_ ex = Some Wl ->
  mat_repr_mpo_ ex !! r_site_ ex = Some Wr ->
  lopg_vec_ ex !! l_site_ ex = Some lopg -> length lopg = rows Wl ->
  ropg_vec_ ex !! (N_ ex - 1 - r_site_ ex)%nat = Some ropg ->
  length ropg = cols Wr ->
  cols Wl = rows Wr ->
  length (indexes Wl) = (rows Wl * cols Wl)%nat ->
  length (indexes Wr) = (rows Wr * cols Wr)%nat ->
  SetEffectiveHamiltonianTerms_ ex
  = Some (tt, with_terms
                ((fun '(i, j, k) => term_at (N_ ex) (l_site_ ex) (r_site_ ex) i j k)
                   <$> triples Wl Wr) ex).
Proof.
  intros Hr HN HWl HWr Hlopg Hlen Hropg Hrlen Hcr Hil Hir.
  set (emit := fun '(i, j, k) => term_at (N_ ex) (l_site_ ex) (r_site_ ex) i j k).
  unfold SetEffectiveHamiltonianTerms_.
  unfold ebind at 1, eget. unfold ebind at 1, eput.
  rewrite Hlopg. unfold ebind at 1, must at 1, eret at 1.
  unfold for_range.
  rewrite (for_from_terms ex _
    (fun i => seq 0 (cols Wl) ≫= fun j => seq 0 (cols Wr) ≫= fun k =>
       if negb (is_null Wl i j) && negb (is_null Wr j k)
       then [emit (i, j, k)] else [])).
  { simpl. f_equal. f_equal. f_equal. rewrite Hlen. unfold triples.
    rewrite fmap_list_bind. apply list_bind_ext; [|done]. intros i.
    rewrite fmap_list_bind. apply list_bind_ext; [|done]. intros j.
    rewrite fmap_list_bind. apply list_bind_ext; [|done]. intros k.
    by destruct (_ && _). }
  intros i ts Hi. rewrite ?HWl, ?HWr. unfold ebind at 1, must at 1, eret at 1.
  apply for_from_terms. intros j ts' Hj.
  unfold ebind at 1, must at 1, eret at 1.
  apply for_from_terms. intros k ts'' Hk.
  unfold ebind at 1, must at 1, eret at 1.
  unfold ebind at 1. rewrite IsNull_run by (apply CalcOffset_lt; lia).
  destruct (is_null Wl i j) eqn:Hn1; simpl.
  { unfold eret. by rewrite app_nil_r. }
  unfold ebind at 1, must at 1, eret at 1.
  unfold ebind at 1. rewrite IsNull_run by (apply CalcOffset_lt; lia).
  destruct (is_null Wr j k) eqn:Hn2; simpl.
  { unfold eret. by rewrite app_nil_r. }
  rewrite (r_block_index_small _ _ Hr HN), Hropg.
  unfold ebind at 1, must at 1, eret at 1.
  destruct (lookup_lt_is_Some_2 ropg k ltac:(lia)) as [t Ht]. rewrite Ht.
  reflexivity.
Qed.

Lemma triples_length (Wl Wr : SparMat Ten) :
  (length (triples Wl Wr) <= rows Wl * (cols Wl * cols Wr))%nat.
Proof.
  unfold triples.
  assert (Hb : forall A B (f : A -> list B) (l : list A) n,
            (forall x, length (f x) <= n)%nat ->
            (length (l ≫= f) <= length l * n)%nat).
  { intros A B f l n Hf. induction l as [|x l IH]; [simpl; lia|].
    rewrite bind_cons, length_app. specialize (Hf x).
    change (length (x :: l) * n)%nat with (n + length l * n)%nat. lia. }
  etrans; [apply (Hb _ _ _ _ (cols Wl * cols Wr)%nat)|by rewrite length_seq].
  intros i. etrans; [apply (Hb _ _ _ _ (cols Wr))|by rewrite length_seq].
  intros j. etrans; [apply (Hb _ _ _ _ 1%nat)|rewrite length_seq; lia].
  intros k. destruct (_ && _); simpl; lia.
Qed.

(** X19. The assembler starts from an empty list each time: called again on
    what it left, it leaves the same; it emits at most
    [D_l * D_(l+1) * D_(r+1)] terms; and of the executor it changes the
    term list only. *)
Theorem SetEffectiveHamiltonianTerms__idempotent ex Wl Wr (lopg ropg : list Ten) :
  (r_site_ ex < N_ ex)%nat -> Z.of_nat (N_ ex) < 2 ^ 64 ->
  mat_repr_mpo_ ex !! l_site_ ex = Some Wl ->
  mat_repr_mpo_ ex !! r_site_ ex = Some Wr ->
  lopg_vec_ ex !! l_site_ ex = Some lopg -> length lopg = rows Wl ->
  ropg_vec_ ex !! (N_ ex - 1 - r_site_ ex)%nat = Some ropg ->
  length ropg = cols Wr ->
  cols Wl = rows Wr ->
  length (indexes Wl) = (rows Wl * cols Wl)%nat ->
  length (indexes Wr) = (rows Wr * cols Wr)%nat ->
  exists ex', SetEffectiveHamiltonianTerms_ ex = Some (tt, ex') /\
    SetEffectiveHamiltonianTerms_ ex' = Some (tt, ex') /\
    ex' = with_terms (hamiltonian_terms_ ex') ex /\
    (length (hamiltonian_terms_ ex') <= rows Wl * (cols Wl * cols Wr))%nat.
Proof.
  intros Hr HN HWl HWr Hlopg Hlen Hropg Hrlen Hcr Hil Hir.
  eexists. split; [by eapply SetEffectiveHamiltonianTerms__run|].
  split_and!.
  - by erewrite (SetEffectiveHamiltonianTerms__run (with_terms _ ex)).
  - reflexivity.
  - simpl. rewrite length_fmap. apply triples_length.
Qed.

Lemma emitted_terms_deref ex Wl Wr (lopg ropg : list Ten) :
  (r_site_ ex < N_ ex)%nat ->
  mat_repr_mpo_ ex !! l_site_ ex = Some Wl ->
  mat_repr_mpo_ ex !! r_site_ ex = Some Wr ->
  lopg_vec_ ex !! l_site_ ex = Some lopg -> length lopg = rows Wl ->
  ropg_vec_ ex !! (N_ ex - 1 - r_site_ ex)%nat = Some ropg ->
  length ropg = cols Wr ->
  cols Wl = rows Wr ->
  length (indexes Wl) = (rows Wl * cols Wl)%nat ->
  length (indexes Wr) = (rows Wr * cols Wr)%nat ->
  (forall W off idx, W = Wl \/ W = Wr -> indexes W !! off = Some idx ->
     idx <> -1 -> 0 <= idx < Z.of_nat (length (data W))) ->
  is_Some (mapM (deref_term (with_terms
            ((fun '(i, j, k) => term_at (N_ ex) (l_site_ ex) (r_site_ ex) i j k)
               <$> triples Wl Wr) ex))
            ((fun '(i, j, k) => term_at (N_ ex) (l_site_ ex) (r_site_ ex) i j k)
               <$> triples Wl Wr)).
Proof.
  intros Hr HWl HWr Hlopg Hlen Hropg Hrlen Hcr Hil Hir Hdata.
  apply mapM_is_Some. apply Forall_fmap. apply Forall_forall.
  intros [[i j] k] Hin. apply triples_elem in Hin as (Hi & Hj & Hk & Hn1 & Hn2).
  assert (Hptr : forall W (x y : nat) s, (W = Wl \/ W = Wr) ->
            mat_repr_mpo_ ex !! s = Some W ->
            (x < rows W)%nat -> (y < cols W)%nat ->
            length (indexes W) = (rows W * cols W)%nat ->
            is_null W x y = false ->
            is_Some (deref_ptr (with_terms
               ((fun '(i, j, k) => term_at (N_ ex) (l_site_ ex) (r_site_ ex) i j k)
                  <$> triples Wl Wr) ex) (MpoPtr s x y))).
  { intros W x y s HW Hs Hx Hy Hlen' Hnn. simpl. rewrite Hs. simpl.
    destruct (lookup_lt_is_Some_2 (indexes W) (CalcOffset W x y)) as [idx Hidx];
      [apply CalcOffset_lt; lia|].
    rewrite Hidx. simpl. unfold is_null in Hnn.
    apply bool_decide_eq_false in Hnn.
    destruct (Z.eqb_spec idx (-1)) as [->|Hne]; [by rewrite Hidx in Hnn|].
    apply lookup_lt_is_Some_2. specialize (Hdata W _ _ HW Hidx Hne). lia. }
  destruct (Hptr Wl i j (l_site_ ex)) as [t1 Ht1]; try done; [by left|].
  destruct (Hptr Wr j k (r_site_ ex)) as [t2 Ht2]; try done; [by right|lia|].
  destruct (lookup_lt_is_Some_2 lopg i ltac:(lia)) as [t0 Ht0].
  destruct (lookup_lt_is_Some_2 ropg k ltac:(lia)) as [t3 Ht3].
  set (ex' := with_terms _ ex) in *.
  assert (H0 : deref_ptr ex' (LopPtr (l_site_ ex) i) = Some t0)
    by (simpl; rewrite Hlopg; exact Ht0).
  assert (H3 : deref_ptr ex' (RopPtr (N_ ex - 1 - r_site_ ex) k) = Some t3)
    by (simpl; rewrite Hropg; exact Ht3).
  unfold deref_term, term_at. cbv beta iota delta [compose].
  cbn [term0 term1 term2 term3].
  rewrite H0. cbn [mbind option_bind]. rewrite Ht1. cbn [mbind option_bind].
  rewrite Ht2. cbn [mbind option_bind]. rewrite H3. cbn [mbind option_bind].
  by eexists.
Qed.

(** X20. Every pointer that the assembler stores can be dereferenced, provided
    the non-null entries of the two MPO matrices point into their data:
    the terms it leaves are ready for the solver. *)
Theorem SetEffectiveHamiltonianTerms__dereferenceable ex Wl Wr
    (lopg ropg : list Ten) :
  (r_site_ ex < N_ ex)%nat -> Z.of_nat (N_ ex) < 2 ^ 64 ->
  mat_repr_mpo_ ex !! l_site_ ex = Some Wl ->
  mat_repr_mpo_ ex !! r_site_ ex = Some Wr ->
  lopg_vec_ ex !! l_site_ ex = Some lopg -> length lopg = rows Wl ->
  ropg_vec_ ex !! (N_ ex - 1 - r_site_ ex)%nat = Some ropg ->
  length ropg = cols Wr ->
  cols Wl = rows Wr ->
  length (indexes Wl) = (rows Wl * cols Wl)%nat ->
  length (indexes Wr) = (rows Wr * cols Wr)%nat ->
  (forall W off idx, W = Wl \/ W = Wr -> indexes W !! off = Some idx ->
     idx <> -1 -> 0 <= idx < Z.of_nat (length (data W))) ->
  exists ex' ts, SetEffectiveHamiltonianTerms_ ex = Some (tt, ex') /\
    mapM (deref_term ex') (hamiltonian_terms_ ex') = Some ts /\
    length ts = length (triples Wl Wr).
Proof.
  intros Hr HN HWl HWr Hlopg Hlen Hropg Hrlen Hcr Hil Hir Hdata.
  eexists.
  destruct (emitted_terms_deref ex Wl Wr lopg ropg Hr HWl HWr Hlopg Hlen
              Hropg Hrlen Hcr Hil Hir Hdata) as [ts Hts].
  exists ts.
  split; [by eapply SetEffectiveHamiltonianTerms__run|].
  split; [exact Hts|].
  apply length_mapM in Hts. by rewrite <- Hts, length_fmap.
Qed.


(** The whole effect of a two-site update, member by member. *)
Lemma TwoSiteUpdate__run ex (tl tr : Ten)
    (terms : list (Ten * Ten * Ten * Ten)) :
  wf (mps_ ex) ->
  l_site_ ex <> r_site_ ex ->
  raw_data_ (mps_ ex) !! l_site_ ex = Some (Some tl) ->
  raw_data_ (mps_ ex) !! r_site_ ex = Some (Some tr) ->
  mapM (deref_term ex) (hamiltonian_terms_ ex) = Some terms ->
  (2 <= max_iterations (lancz_params (sweep_params ex)))%nat ->
  block_ready ex ->
  exists e ex' a b ln,
    TwoSiteUpdate_ ex = Some (e, ex') /\
    (sweep_params ex' = sweep_params ex /\ N_ ex' = N_ ex /\
     mat_repr_mpo_ ex' = mat_repr_mpo_ ex /\
     left_boundary_ ex' = left_boundary_ ex /\
     right_boundary_ ex' = right_boundary_ ex) /\
    (dir_ ex' = dir_ ex /\ l_site_ ex' = l_site_ ex /\ r_site_ ex' = r_site_ ex) /\
    e0_ ex' = e0_ ex /\ disk_ ex' = disk_ ex /\
    cout_ ex' = cout_ ex ++ [ln] /\
    rep_l_site ln = l_site_ ex /\ rep_r_site ln = r_site_ ex /\ rep_E0 ln = e /\
    wf (mps_ ex') /\ size (mps_ ex') = size (mps_ ex) /\
    raw_data_ (mps_ ex')
    = <[r_site_ ex := Some b]> (<[l_site_ ex := Some a]> (raw_data_ (mps_ ex))) /\
    (dir_ ex = "r"%char ->
     ropg_vec_ ex' = ropg_vec_ ex /\
     exists lopg W, lopg_vec_ ex !! l_site_ ex = Some lopg /\
       mat_repr_mpo_ ex !! l_site_ ex = Some W /\
       lopg_vec_ ex'
       = <[(l_site_ ex + 1)%nat := UpdateLeftBlockOps lopg a W]> (lopg_vec_ ex)) /\
    (dir_ ex = "l"%char ->
     lopg_vec_ ex' = lopg_vec_ ex /\
     exists ropg W,
       ropg_vec_ ex !! r_block_index (N_ ex) (r_site_ ex) = Some ropg /\
       mat_repr_mpo_ ex !! r_site_ ex = Some W /\
       ropg_vec_ ex'
       = <[(r_block_index (N_ ex) (r_site_ ex) + 1)%nat
             := UpdateRightBlockOps ropg b W]> (ropg_vec_ ex)).
Proof.
  intros Hwf Hlr Hl Hr Hterms Hmax Hready.
  destruct (LanczosFacts.LanczosSolver_within_cap terms
              (Contract tl tr [[2%nat]; [0%nat]])
              eff_ham_terms_mul_two_site_state
              (lancz_params (sweep_params ex)) Hmax) as (res & Hres & Hit).
  exists (gs_eng res).
  assert (Hll : (l_site_ ex < length (raw_data_ (mps_ ex)))%nat)
    by (eapply lookup_lt_Some, Hl).
  assert (Hrl : (r_site_ ex < length (raw_data_ (mps_ ex)))%nat)
    by (eapply lookup_lt_Some, Hr).
  assert (Hcl : (l_site_ ex < length (tens_cano_type_ (mps_ ex)))%nat)
    by (rewrite (proj1 Hwf); done).
  assert (Hcr : (r_site_ ex < length (tens_cano_type_ (mps_ ex)))%nat)
    by (rewrite (proj1 Hwf); done).
  unfold TwoSiteUpdate_.
  unfold ebind at 1, eget at 1.
  erun (mps_read_run _ _ tl).
  erun (mps_read_run _ _ tr).
  unfold ebind at 1.
  rewrite Hterms. unfold must at 1, eret at 1.
  unfold ebind at 1. rewrite Hres. unfold eret at 1.
  erun (mps_read_run _ _ tl).
  destruct (SVDTrunc _ _ _ _ _ _) as [[[[u s'] vt] err] D].
  destruct Hready as [(Hd & [lopg Hlopg] & [W HW] & Hlen)
                     |(Hd & [ropg Hropg] & [W HW] & Hlen)]; rewrite Hd.
  - change (Ascii.eqb "r" "r") with true. cbv iota.
    unfold ebind at 1.
    erun (mps_assign_run _ _ tl).
    erun (mps_assign_run _ _ tr).
    unfold ebind at 1, eget at 1. enorm.
    rewrite Hlopg. unfold ebind at 1, must at 1, eret at 1.
    erun (mps_read_run _ _ u).
    rewrite HW. unfold ebind at 1, must at 1, eret at 1.
    unfold ebind at 1, eget at 1. enorm.
    rewrite decide_True by done.
    eexists _, u, (ContractDT s' vt [[1%nat]; [0%nat]]), _.
    split; [reflexivity|]. enorm.
    split_and!; try reflexivity; try exact Hd.
    + eauto 40 with mps.
    + unfold size. simpl. by rewrite !length_insert.
    + intros _. split; [reflexivity|]. by exists lopg, W.
    + intros Hd'. discriminate Hd'.
  - change (Ascii.eqb "l" "r") with false. change (Ascii.eqb "l" "l") with true.
    cbv iota.
    unfold ebind at 1.
    erun (mps_assign_run _ _ tl).
    erun (mps_assign_run _ _ tr).
    unfold ebind at 1, eget at 1. enorm.
    rewrite Hropg. unfold ebind at 1, must at 1, eret at 1.
    erun (mps_read_run _ _ vt).
    rewrite HW. unfold ebind at 1, must at 1, eret at 1.
    unfold ebind at 1, eget at 1. enorm.
    rewrite decide_True by done.
    eexists _, (ContractTD u s' [[2%nat]; [0%nat]]), vt, _.
    split; [reflexivity|]. enorm.
    split_and!; try reflexivity; try exact Hd.
    + eauto 40 with mps.
    + unfold size. simpl. by rewrite !length_insert.
    + intros Hd'. discriminate Hd'.
    + intros _. split; [reflexivity|]. by exists ropg, W.
Qed.

End Facts.
End DmrgFacts.

(* ===================================================================== *)
(** * The sweep                                                           *)
(* ===================================================================== *)

Module SweepFacts.
Import Mps Lanczos Dmrg Sweep.
Local Open Scope exec_scope.

Section Facts.
Context `{TL : TensorLib} `{CS : Consts} `{IO : !OperatorIO} `{IN : !ExecutorInit}.
Implicit Types (ex : DMRGExecutor) (W : SparMat Ten).

Ltac snorm :=
  cbn [with_world with_lopg with_ropg with_cout with_terms with_e0 with_dir
       with_sites with_files with_group group_at
       sweep_params N_ mps_ mat_repr_mpo_ e0_ lopg_vec_ ropg_vec_
       left_boundary_ right_boundary_ dir_ l_site_ r_site_
       hamiltonian_terms_ disk_ cout_ fst snd files dirs
       raw_data_ center_ tens_cano_type_ with_raw].
Ltac snorm_in H :=
  cbn [with_world with_lopg with_ropg with_cout with_terms with_e0 with_dir
       with_sites with_files with_group group_at
       sweep_params N_ mps_ mat_repr_mpo_ e0_ lopg_vec_ ropg_vec_
       left_boundary_ right_boundary_ dir_ l_site_ r_site_
       hamiltonian_terms_ disk_ cout_ fst snd files dirs
       raw_data_ center_ tens_cano_type_ with_raw] in H.
Ltac sstep := unfold ebind at 1, eget at 1; snorm.
Tactic Notation "srun" open_constr(L) :=
  unfold ebind at 1; rewrite L; [snorm | try solve [snorm; eauto] ..].

(** ** [size_t] arithmetic and file names *)

Lemma size_sub_small (a b : nat) :
  (b <= a)%nat -> Z.of_nat a < 2 ^ 64 -> size_sub a b = (a - b)%nat.
Proof.
  intros Hb Ha. unfold size_sub, wrap64. rewrite Z.mod_small by lia. lia.
Qed.

Lemma size_add_small (a b : nat) :
  Z.of_nat a + Z.of_nat b < 2 ^ 64 -> size_add a b = (a + b)%nat.
Proof.
  intros Ha. unfold size_add, wrap64. rewrite Z.mod_small by lia. lia.
Qed.

Lemma string_app_cancel_l (q a b x y : string) :
  (q +:+ a) +:+ x = (q +:+ b) +:+ y -> a +:+ x = b +:+ y.
Proof.
  induction q as [|c q IH]; simpl; [done|]. intros H. injection H as H. auto.
Qed.

(** The groups of the two sides, and of different block lengths, are kept
    in different files. *)
Lemma GenOpGroupName_inj (o1 o2 : string) (p1 p2 : nat) (tp : string) :
  (o1 = "l" \/ o1 = "r") -> (o2 = "l" \/ o2 = "r") ->
  GenOpGroupName o1 p1 tp = GenOpGroupName o2 p2 tp -> o1 = o2 /\ p1 = p2.
Proof.
  unfold GenOpGroupName. intros H1 H2 H.
  apply MpsFacts.string_app_inj_r, MpsFacts.string_app_inj_r in H.
  apply string_app_cancel_l in H.
  destruct H1 as [-> | ->], H2 as [-> | ->]; cbn [String.append] in H;
    try discriminate H; injection H as H; (split; [done|]);
    by apply (inj pretty).
Qed.

(** ** The primitives *)

Lemma group_set_run ex r g g0 :
  group_at ex r = Some g0 -> group_set r g ex = Some (tt, with_group r g ex).
Proof. intros H. unfold group_set. sstep. by rewrite H. Qed.

Lemma group_get_run ex r g : group_at ex r = Some g -> group_get r ex = Some (g, ex).
Proof. intros H. unfold group_get. sstep. by rewrite H. Qed.

Lemma group_at_with_group ex r g g0 :
  group_at ex r = Some g0 -> group_at (with_group r g ex) r = Some g.
Proof.
  destruct r as [p|p]; simpl; intros H; apply list_lookup_insert_eq;
    eapply lookup_lt_Some, H.
Qed.

Lemma on_mps_LoadTen ex idx file blob :
  (idx < size (mps_ ex))%nat -> files (disk_ ex) !! file = Some blob ->
  on_mps (LoadTen idx file) ex
  = Some (tt, with_world (with_raw idx (Some (ten_read blob)) (mps_ ex), disk_ ex) ex).
Proof.
  intros Hi Hf. unfold on_mps. by rewrite (MpsFacts.LoadTen_run _ _ _ _ blob).
Qed.

Lemma on_mps_DumpTen ex idx file t :
  raw_data_ (mps_ ex) !! idx = Some (Some t) ->
  on_mps (DumpTen idx file true) ex
  = Some (tt, with_world (with_raw idx None (mps_ ex),
                          MkDisk (dirs (disk_ ex))
                                 (<[file := ten_write t]> (files (disk_ ex)))) ex).
Proof.
  intros Ht. unfold on_mps. by rewrite (MpsFacts.DumpTen_run _ _ _ _ _ t).
Qed.

Lemma ReadOperatorGroup_run ex op site r tp g0 blob :
  group_at ex r = Some g0 ->
  files (disk_ ex) !! GenOpGroupName op site tp = Some blob ->
  ReadOperatorGroup op site r tp ex
  = Some (tt, with_group r (group_read (length g0) blob) ex).
Proof.
  intros Hg Hf. unfold ReadOperatorGroup.
  srun (group_get_run _ _ g0). sstep. rewrite Hf.
  unfold ebind at 1, must at 1, eret at 1.
  by rewrite (group_set_run _ _ _ g0).
Qed.

Lemma ReadAndRemoveOperatorGroup_run ex op site r tp g0 blob :
  group_at ex r = Some g0 ->
  files (disk_ ex) !! GenOpGroupName op site tp = Some blob ->
  ReadAndRemoveOperatorGroup op site r tp ex
  = Some (tt, with_files (delete (GenOpGroupName op site tp) (files (disk_ ex)))
                (with_group r (group_read (length g0) blob) ex)).
Proof.
  intros Hg Hf. unfold ReadAndRemoveOperatorGroup.
  srun (ReadOperatorGroup_run _ _ _ _ _ g0 blob). sstep.
  by destruct r.
Qed.

Lemma WriteOperatorGroup_run ex op site r tp g :
  group_at ex r = Some g ->
  WriteOperatorGroup op site r tp ex
  = Some (tt, with_files (<[GenOpGroupName op site tp := group_write g]>
                            (files (disk_ ex))) ex).
Proof.
  intros Hg. unfold WriteOperatorGroup.
  srun (group_get_run _ _ g). sstep. reflexivity.
Qed.

(** ** What the steps keep *)

Lemma same_ctl_refl ex : same_ctl ex ex.
Proof. by unfold same_ctl. Qed.

Lemma same_ctl_trans ex1 ex2 ex3 :
  same_ctl ex1 ex2 -> same_ctl ex2 ex3 -> same_ctl ex1 ex3.
Proof. unfold same_ctl. intuition congruence. Qed.

Lemma same_bond_trans ex1 ex2 ex3 :
  same_bond ex1 ex2 -> same_bond ex2 ex3 -> same_bond ex1 ex3.
Proof. unfold same_bond. intuition congruence. Qed.

Lemma static_ok_frame ex ex' :
  static_ok ex -> same_ctl ex ex' ->
  wf (mps_ ex') -> size (mps_ ex') = N_ ex ->
  length (lopg_vec_ ex') = N_ ex -> length (ropg_vec_ ex') = N_ ex ->
  static_ok ex'.
Proof.
  intros (Hmpo & HN & Hb & _ & _ & _ & _ & Hmax & Hnames)
         (Hp & HN' & HW & Hlb & Hrb) Hwf Hsz Hlo Hro.
  unfold static_ok, mpo_ok. rewrite Hp, HN', HW, Hlb, Hrb.
  split; [exact Hmpo|]. repeat (split; [assumption|]). assumption.
Qed.

Lemma mpo_lookup ex s :
  static_ok ex -> (s < N_ ex)%nat -> exists W, mat_repr_mpo_ ex !! s = Some W.
Proof.
  intros ((Hlen & _) & _) Hs. apply lookup_lt_is_Some_2. by rewrite Hlen.
Qed.

(** ** Loading the working set of a bond *)

Lemma LoadRelatedTensSweep__right ex i :
  collaborators_ok -> at_right ex i ->
  (left_boundary_ ex <= i)%nat -> (i + 1 < right_boundary_ ex)%nat ->
  dir_ ex = "r"%char -> l_site_ ex = i -> r_site_ ex = (i + 1)%nat ->
  exists ex1, LoadRelatedTensSweep_ ex = Some (tt, ex1) /\
    same_ctl ex ex1 /\ same_bond ex ex1 /\
    cout_ ex1 = cout_ ex /\ e0_ ex1 = e0_ ex /\
    static_ok ex1 /\ bond_loaded ex1 /\
    files (disk_ ex1)
    = delete (GenOpGroupName "r" (N_ ex - 1 - (i + 1)) (temp_path (sweep_params ex)))
             (files (disk_ ex)).
Proof.
  intros (Hrt & _ & _) (Hst & Hdisk & [t Ht] & Hmem) Hlb Hrb Hd Hl Hr.
  pose proof Hst as (Hmpo & HN & Hb & Hwf & Hsz & Hlo & Hro & Hmax & Hnames).
  destruct (mpo_lookup ex i Hst ltac:(lia)) as [Wl HWl].
  destruct (mpo_lookup ex (i + 1) Hst ltac:(lia)) as [Wr HWr].
  destruct (lookup_lt_is_Some_2 (lopg_vec_ ex) i ltac:(lia)) as [gl0 Hgl0].
  destruct (lookup_lt_is_Some_2 (ropg_vec_ ex) (N_ ex - 1 - (i + 1)) ltac:(lia))
    as [gr0 Hgr0].
  destruct (proj2 (proj2 Hdisk) (i + 1)%nat Wr ltac:(lia) HWr) as (gr & Hgr & Hgrlen).
  unfold LoadRelatedTensSweep_. sstep. rewrite Hd, Hl, Hr.
  change (Ascii.eqb "r" "r") with true. cbv iota.
  rewrite (DmrgFacts.r_block_index_small (N_ ex) (i + 1)) by lia.
  destruct (Nat.eqb_spec i (left_boundary_ ex)) as [Heq|Hne].
  - destruct (proj1 Hdisk i ltac:(lia)) as [blob Hblob].
    destruct (proj1 (proj2 Hdisk) i Wl ltac:(lia) HWl) as (gl & Hgl & Hgllen).
    srun (on_mps_LoadTen _ _ _ blob); [|lia].
    rewrite HWl. unfold ebind at 1, must at 1, eret at 1.
    srun (group_set_run _ _ _ gl0).
    srun (ReadOperatorGroup_run _ _ _ _ _ (replicate (rows Wl) default_ten)
            (group_write gl)).
    2:{ snorm. apply list_lookup_insert_eq. eapply lookup_lt_Some, Hgl0. }
    rewrite length_replicate, <- Hgllen, Hrt, list_insert_insert_eq.
    rewrite HWr. unfold ebind at 1, must at 1, eret at 1.
    srun (group_set_run _ _ _ gr0).
    rewrite (ReadAndRemoveOperatorGroup_run _ _ _ _ _
               (replicate (cols Wr) default_ten) (group_write gr)).
    2:{ snorm. apply list_lookup_insert_eq. eapply lookup_lt_Some, Hgr0. }
    2:{ snorm. exact Hgr. }
    snorm. rewrite length_replicate, <- Hgrlen, Hrt, list_insert_insert_eq.
    eexists. split; [reflexivity|]. snorm.
    assert (Hwf' : wf (with_raw i (Some (ten_read blob)) (mps_ ex)))
      by (by apply MpsFacts.wf_with_raw).
    split_and!; try done.
    + eapply static_ok_frame; [exact Hst|done|..]; snorm;
        rewrite ?length_insert; try done.
      unfold size. simpl. by rewrite length_insert.
    + unfold bond_loaded. snorm. rewrite Hl, Hr. split_and!; [done|lia|..].
      * eexists. apply list_lookup_insert_eq. unfold size in Hsz. lia.
      * exists t. rewrite list_lookup_insert_ne by lia.
        rewrite <- Ht. f_equal. lia.
      * exists gl, Wl. split_and!; [|done|done].
        apply list_lookup_insert_eq. lia.
      * exists gr, Wr. split_and!; [|done|done].
        apply list_lookup_insert_eq. lia.
  - destruct (proj1 Hdisk (i + 1)%nat ltac:(lia)) as [blob Hblob].
    destruct (Hmem ltac:(lia)) as (gl & Wl' & Hgl & HWl' & Hgllen).
    rewrite HWl in HWl'. injection HWl' as <-.
    srun (on_mps_LoadTen _ _ _ blob); [|lia].
    rewrite HWr. unfold ebind at 1, must at 1, eret at 1.
    srun (group_set_run _ _ _ gr0).
    rewrite (ReadAndRemoveOperatorGroup_run _ _ _ _ _
               (replicate (cols Wr) default_ten) (group_write gr)).
    2:{ snorm. apply list_lookup_insert_eq. eapply lookup_lt_Some, Hgr0. }
    2:{ snorm. exact Hgr. }
    snorm. rewrite length_replicate, <- Hgrlen, Hrt, list_insert_insert_eq.
    eexists. split; [reflexivity|]. snorm.
    assert (Hwf' : wf (with_raw (i + 1) (Some (ten_read blob)) (mps_ ex)))
      by (by apply MpsFacts.wf_with_raw).
    split_and!; try done.
    + eapply static_ok_frame; [exact Hst|done|..]; snorm;
        rewrite ?length_insert; try done.
      unfold size. simpl. by rewrite length_insert.
    + unfold bond_loaded. snorm. rewrite Hl, Hr. split_and!; [done|lia|..].
      * exists t. rewrite list_lookup_insert_ne by lia.
        rewrite <- Ht. f_equal. lia.
      * eexists. apply list_lookup_insert_eq. unfold size in Hsz. lia.
      * exists gl, Wl. by split_and!.
      * exists gr, Wr. split_and!; [|done|done].
        apply list_lookup_insert_eq. lia.
Qed.

Lemma LoadRelatedTensSweep__left ex j :
  collaborators_ok -> at_left ex j ->
  (left_boundary_ ex + 2 <= j)%nat -> (j <= right_boundary_ ex)%nat ->
  dir_ ex = "l"%char -> l_site_ ex = (j - 1)%nat -> r_site_ ex = j ->
  exists ex1, LoadRelatedTensSweep_ ex = Some (tt, ex1) /\
    same_ctl ex ex1 /\ same_bond ex ex1 /\
    cout_ ex1 = cout_ ex /\ e0_ ex1 = e0_ ex /\
    static_ok ex1 /\ bond_loaded ex1 /\
    files (disk_ ex1)
    = delete (GenOpGroupName "l" (j - 1) (temp_path (sweep_params ex)))
             (files (disk_ ex)).
Proof.
  intros (Hrt & _ & _) (Hst & Hdisk & [t Ht] & Hmem) Hlb Hrb Hd Hl Hr.
  pose proof Hst as (Hmpo & HN & Hb & Hwf & Hsz & Hlo & Hro & Hmax & Hnames).
  destruct (mpo_lookup ex (j - 1) Hst ltac:(lia)) as [Wl HWl].
  destruct (mpo_lookup ex j Hst ltac:(lia)) as [Wr HWr].
  destruct (lookup_lt_is_Some_2 (lopg_vec_ ex) (j - 1) ltac:(lia)) as [gl0 Hgl0].
  destruct (lookup_lt_is_Some_2 (ropg_vec_ ex) (N_ ex - 1 - j) ltac:(lia))
    as [gr0 Hgr0].
  destruct (proj1 (proj2 Hdisk) (j - 1)%nat Wl ltac:(lia) HWl) as (gl & Hgl & Hgllen).
  unfold LoadRelatedTensSweep_. sstep. rewrite Hd, Hl, Hr.
  change (Ascii.eqb "l" "r") with false. change (Ascii.eqb "l" "l") with true.
  cbv iota.
  rewrite (DmrgFacts.r_block_index_small (N_ ex) j) by lia.
  destruct (Nat.eqb_spec j (right_boundary_ ex)) as [Heq|Hne].
  - destruct (proj1 Hdisk j ltac:(lia)) as [blob Hblob].
    destruct (proj2 (proj2 Hdisk) j Wr ltac:(lia) HWr) as (gr & Hgr & Hgrlen).
    srun (on_mps_LoadTen _ _ _ blob); [|lia].
    rewrite HWr. unfold ebind at 1, must at 1, eret at 1.
    srun (group_set_run _ _ _ gr0).
    srun (ReadOperatorGroup_run _ _ _ _ _ (replicate (cols Wr) default_ten)
            (group_write gr)).
    2:{ snorm. apply list_lookup_insert_eq. eapply lookup_lt_Some, Hgr0. }
    rewrite length_replicate, <- Hgrlen, Hrt, list_insert_insert_eq.
    rewrite HWl. unfold ebind at 1, must at 1, eret at 1.
    srun (group_set_run _ _ _ gl0).
    rewrite (ReadAndRemoveOperatorGroup_run _ _ _ _ _
               (replicate (rows Wl) default_ten) (group_write gl)).
    2:{ snorm. apply list_lookup_insert_eq. eapply lookup_lt_Some, Hgl0. }
    2:{ snorm. exact Hgl. }
    snorm. rewrite length_replicate, <- Hgllen, Hrt, list_insert_insert_eq.
    eexists. split; [reflexivity|]. snorm.
    assert (Hwf' : wf (with_raw j (Some (ten_read blob)) (mps_ ex)))
      by (by apply MpsFacts.wf_with_raw).
    split_and!; try done.
    + eapply static_ok_frame; [exact Hst|done|..]; snorm;
        rewrite ?length_insert; try done.
      unfold size. simpl. by rewrite length_insert.
    + unfold bond_loaded. snorm. rewrite Hl, Hr. split_and!; [lia|lia|..].
      * exists t. rewrite list_lookup_insert_ne by lia.
        rewrite <- Ht. f_equal. lia.
      * eexists. apply list_lookup_insert_eq. unfold size in Hsz. lia.
      * exists gl, Wl. split_and!; [|done|done].
        apply list_lookup_insert_eq. lia.
      * exists gr, Wr. split_and!; [|done|done].
        apply list_lookup_insert_eq. lia.
  - destruct (proj1 Hdisk (j - 1)%nat ltac:(lia)) as [blob Hblob].
    destruct (Hmem ltac:(lia)) as (gr & Wr' & Hgr & HWr' & Hgrlen).
    rewrite HWr in HWr'. injection HWr' as <-.
    srun (on_mps_LoadTen _ _ _ blob); [|lia].
    rewrite HWl. unfold ebind at 1, must at 1, eret at 1.
    srun (group_set_run _ _ _ gl0).
    rewrite (ReadAndRemoveOperatorGroup_run _ _ _ _ _
               (replicate (rows Wl) default_ten) (group_write gl)).
    2:{ snorm. apply list_lookup_insert_eq. eapply lookup_lt_Some, Hgl0. }
    2:{ snorm. exact Hgl. }
    snorm. rewrite length_replicate, <- Hgllen, Hrt, list_insert_insert_eq.
    eexists. split; [reflexivity|]. snorm.
    assert (Hwf' : wf (with_raw (j - 1) (Some (ten_read blob)) (mps_ ex)))
      by (by apply MpsFacts.wf_with_raw).
    split_and!; try done.
    + eapply static_ok_frame; [exact Hst|done|..]; snorm;
        rewrite ?length_insert; try done.
      unfold size. simpl. by rewrite length_insert.
    + unfold bond_loaded. snorm. rewrite Hl, Hr. split_and!; [lia|lia|..].
      * eexists. apply list_lookup_insert_eq. unfold size in Hsz. lia.
      * exists t. rewrite list_lookup_insert_ne by lia.
        rewrite <- Ht. f_equal. lia.
      * exists gl, Wl. split_and!; [|done|done].
        apply list_lookup_insert_eq. lia.
      * exists gr, Wr. by split_and!.
Qed.

(** ** The update of a loaded bond *)

Lemma update_loaded ex :
  static_ok ex -> bond_loaded ex ->
  (forall g a W, length (UpdateLeftBlockOps g a W) = cols W) ->
  (forall g a W, length (UpdateRightBlockOps g a W) = rows W) ->
  (dir_ ex = "r"%char \/ dir_ ex = "l"%char) ->
  exists e ex' ln,
    (SetEffectiveHamiltonianTerms_;;; TwoSiteUpdate_) ex = Some (e, ex') /\
    same_ctl ex ex' /\ same_bond ex ex' /\
    e0_ ex' = e0_ ex /\ disk_ ex' = disk_ ex /\
    cout_ ex' = cout_ ex ++ [ln] /\
    bond_of ln = (l_site_ ex, r_site_ ex) /\ rep_E0 ln = e /\
    static_ok ex' /\
    (exists a, raw_data_ (mps_ ex') !! l_site_ ex = Some (Some a)) /\
    (exists b, raw_data_ (mps_ ex') !! r_site_ ex = Some (Some b)) /\
    (dir_ ex = "r"%char ->
     ropg_vec_ ex' = ropg_vec_ ex /\
     exists g W', lopg_vec_ ex' = <[r_site_ ex := g]> (lopg_vec_ ex) /\
       mat_repr_mpo_ ex !! r_site_ ex = Some W' /\ length g = rows W') /\
    (dir_ ex = "l"%char ->
     lopg_vec_ ex' = lopg_vec_ ex /\
     exists g W',
       ropg_vec_ ex' = <[(N_ ex - 1 - l_site_ ex)%nat := g]> (ropg_vec_ ex) /\
       mat_repr_mpo_ ex !! l_site_ ex = Some W' /\ length g = cols W').
Proof.
  intros Hst (Hrl & HrN & [tl Htl] & [tr Htr] & (gl & Wl & Hgl & HWl & Hgllen)
              & (gr & Wr & Hgr & HWr & Hgrlen)) HgrowL HgrowR Hdir.
  pose proof Hst as ((Hmlen & Hmw & Hmc) & HN & Hb & Hwf & Hsz & Hlo & Hro
                     & Hmax & Hnames).
  destruct (Hmw _ _ HWl) as [Hil Hdl]. destruct (Hmw _ _ HWr) as [Hir Hdr].
  assert (Hcr : cols Wl = rows Wr).
  { apply (Hmc (l_site_ ex)); [done|]. by rewrite <- Nat.add_1_r, <- Hrl. }
  pose proof (DmrgFacts.SetEffectiveHamiltonianTerms__run ex Wl Wr gl gr
                HrN HN HWl HWr Hgl Hgllen Hgr Hgrlen Hcr Hil Hir) as Hset.
  destruct (DmrgFacts.emitted_terms_deref ex Wl Wr gl gr
              HrN HWl HWr Hgl Hgllen Hgr Hgrlen Hcr Hil Hir) as [ts Hts].
  { intros W off idx [-> | ->]; [apply Hdl|apply Hdr]. }
  set (ex2 := with_terms _ ex) in *.
  assert (Hready : block_ready ex2).
  { unfold block_ready, ex2. snorm.
    destruct Hdir as [Hd|Hd]; [left|right]; (split; [exact Hd|]).
    - split; [by eexists|]. split; [by eexists|]. lia.
    - rewrite (DmrgFacts.r_block_index_small _ _ HrN HN).
      split; [by eexists|]. split; [by eexists|]. lia. }
  destruct (DmrgFacts.TwoSiteUpdate__run ex2 tl tr ts Hwf ltac:(simpl; lia)
              Htl Htr Hts Hmax Hready)
    as (e & ex' & a & b & ln & Hrun & Hctl & Hbond & He0 & Hdk & Hcout
        & Hlnl & Hlnr & HlnE & Hwf' & Hsz' & Hraw & HR & HL).
  exists e, ex', ln.
  assert (Hlen' : length (raw_data_ (mps_ ex)) = N_ ex) by exact Hsz.
  assert (Hlo' : length (lopg_vec_ ex') = N_ ex /\ length (ropg_vec_ ex') = N_ ex).
  { destruct Hdir as [Hd|Hd].
    - destruct (HR Hd) as (-> & lopg & W & _ & _ & ->).
      by rewrite length_insert.
    - destruct (HL Hd) as (-> & ropg & W & _ & _ & ->).
      by rewrite length_insert. }
  split_and!.
  - unfold ebind. by rewrite Hset.
  - exact Hctl.
  - exact Hbond.
  - exact He0.
  - exact Hdk.
  - exact Hcout.
  - unfold bond_of. by rewrite Hlnl, Hlnr.
  - exact HlnE.
  - apply (static_ok_frame ex); try done; [|by apply Hlo'|by apply Hlo'].
    by rewrite Hsz'.
  - exists a. rewrite Hraw. change (l_site_ ex2) with (l_site_ ex).
    change (r_site_ ex2) with (r_site_ ex).
    rewrite list_lookup_insert_ne by lia. apply list_lookup_insert_eq.
    change (mps_ ex2) with (mps_ ex). eapply lookup_lt_Some, Htl.
  - exists b. rewrite Hraw. apply list_lookup_insert_eq.
    rewrite length_insert. change (mps_ ex2) with (mps_ ex).
    change (r_site_ ex2) with (r_site_ ex). eapply lookup_lt_Some, Htr.
  - intros Hd. destruct (HR Hd) as (Hro' & lopg & W & Hlopg & HW & Hlv).
    split; [exact Hro'|].
    change (lopg_vec_ ex2) with (lopg_vec_ ex) in *.
    change (l_site_ ex2) with (l_site_ ex) in *.
    change (mat_repr_mpo_ ex2) with (mat_repr_mpo_ ex) in *.
    rewrite HWl in HW. injection HW as <-.
    exists (UpdateLeftBlockOps lopg a Wl), Wr. rewrite Hrl.
    split_and!; [exact Hlv| by rewrite <- Hrl |].
    by rewrite HgrowL.
  - intros Hd. destruct (HL Hd) as (Hlo'' & ropg & W & Hropg & HW & Hrv).
    split; [exact Hlo''|].
    change (ropg_vec_ ex2) with (ropg_vec_ ex) in *.
    change (r_site_ ex2) with (r_site_ ex) in *.
    change (N_ ex2) with (N_ ex) in *.
    change (mat_repr_mpo_ ex2) with (mat_repr_mpo_ ex) in *.
    rewrite HWr in HW. injection HW as <-.
    rewrite (DmrgFacts.r_block_index_small _ _ HrN HN) in Hrv.
    exists (UpdateRightBlockOps ropg b Wr), Wl.
    replace (N_ ex - 1 - l_site_ ex)%nat with (N_ ex - 1 - r_site_ ex + 1)%nat
      by lia.
    split_and!; [exact Hrv|done|].
    by rewrite HgrowR.
Qed.

(** ** Paging out after the update *)

Lemma DumpRelatedTensSweep__right ex a g :
  static_ok ex -> dir_ ex = "r"%char ->
  (r_site_ ex = l_site_ ex + 1)%nat -> (r_site_ ex < N_ ex)%nat ->
  raw_data_ (mps_ ex) !! l_site_ ex = Some (Some a) ->
  lopg_vec_ ex !! r_site_ ex = Some g ->
  exists ex5, DumpRelatedTensSweep_ ex = Some (tt, ex5) /\
    same_ctl ex ex5 /\ same_bond ex ex5 /\
    cout_ ex5 = cout_ ex /\ e0_ ex5 = e0_ ex /\ static_ok ex5 /\
    raw_data_ (mps_ ex5) = <[l_site_ ex := None]> (raw_data_ (mps_ ex)) /\
    lopg_vec_ ex5 = <[l_site_ ex := []]> (lopg_vec_ ex) /\
    ropg_vec_ ex5 = <[(N_ ex - 1 - r_site_ ex)%nat := []]> (ropg_vec_ ex) /\
    files (disk_ ex5)
    = <[GenOpGroupName "l" (r_site_ ex) (temp_path (sweep_params ex))
          := group_write g]>
        (<[GenMPSTenName (mps_path (sweep_params ex)) (l_site_ ex) := ten_write a]>
           (files (disk_ ex))).
Proof.
  intros Hst Hd Hrl HrN Ha Hg.
  pose proof Hst as (Hmpo & HN & Hb & Hwf & Hsz & Hlo & Hro & Hmax & Hnames).
  destruct (lookup_lt_is_Some_2 (lopg_vec_ ex) (l_site_ ex) ltac:(lia)) as [gl0 Hgl0].
  destruct (lookup_lt_is_Some_2 (ropg_vec_ ex) (N_ ex - 1 - r_site_ ex) ltac:(lia))
    as [gr0 Hgr0].
  unfold DumpRelatedTensSweep_. sstep.
  rewrite (DmrgFacts.r_block_index_small _ _ HrN HN).
  srun (group_set_run _ _ _ gl0).
  srun (group_set_run _ _ _ gr0).
  rewrite Hd. change (Ascii.eqb "r" "r") with true. cbv iota.
  srun (on_mps_DumpTen _ _ _ a).
  rewrite (WriteOperatorGroup_run _ _ _ _ _ g).
  2:{ snorm. rewrite list_lookup_insert_ne by lia. exact Hg. }
  snorm. eexists. split; [reflexivity|]. snorm.
  split_and!; try done.
  eapply static_ok_frame; [exact Hst|done|..]; snorm; rewrite ?length_insert;
    try done.
  - by apply MpsFacts.wf_with_raw.
  - unfold size. simpl. by rewrite length_insert.
Qed.

Lemma DumpRelatedTensSweep__left ex b g :
  static_ok ex -> dir_ ex = "l"%char ->
  (r_site_ ex = l_site_ ex + 1)%nat -> (r_site_ ex < N_ ex)%nat ->
  raw_data_ (mps_ ex) !! r_site_ ex = Some (Some b) ->
  ropg_vec_ ex !! (N_ ex - 1 - l_site_ ex)%nat = Some g ->
  exists ex5, DumpRelatedTensSweep_ ex = Some (tt, ex5) /\
    same_ctl ex ex5 /\ same_bond ex ex5 /\
    cout_ ex5 = cout_ ex /\ e0_ ex5 = e0_ ex /\ static_ok ex5 /\
    raw_data_ (mps_ ex5) = <[r_site_ ex := None]> (raw_data_ (mps_ ex)) /\
    lopg_vec_ ex5 = <[l_site_ ex := []]> (lopg_vec_ ex) /\
    ropg_vec_ ex5 = <[(N_ ex - 1 - r_site_ ex)%nat := []]> (ropg_vec_ ex) /\
    files (disk_ ex5)
    = <[GenOpGroupName "r" (N_ ex - 1 - l_site_ ex) (temp_path (sweep_params ex))
          := group_write g]>
        (<[GenMPSTenName (mps_path (sweep_params ex)) (r_site_ ex) := ten_write b]>
           (files (disk_ ex))).
Proof.
  intros Hst Hd Hrl HrN Hb' Hg.
  pose proof Hst as (Hmpo & HN & Hb & Hwf & Hsz & Hlo & Hro & Hmax & Hnames).
  destruct (lookup_lt_is_Some_2 (lopg_vec_ ex) (l_site_ ex) ltac:(lia)) as [gl0 Hgl0].
  destruct (lookup_lt_is_Some_2 (ropg_vec_ ex) (N_ ex - 1 - r_site_ ex) ltac:(lia))
    as [gr0 Hgr0].
  unfold DumpRelatedTensSweep_. sstep.
  rewrite (DmrgFacts.r_block_index_small _ _ HrN HN).
  rewrite (DmrgFacts.r_block_index_small (N_ ex) (l_site_ ex)) by lia.
  srun (group_set_run _ _ _ gl0).
  srun (group_set_run _ _ _ gr0).
  rewrite Hd. change (Ascii.eqb "l" "r") with false.
  change (Ascii.eqb "l" "l") with true. cbv iota.
  srun (on_mps_DumpTen _ _ _ b).
  rewrite (WriteOperatorGroup_run _ _ _ _ _ g).
  2:{ snorm. rewrite list_lookup_insert_ne by lia. exact Hg. }
  snorm. eexists. split; [reflexivity|]. snorm.
  split_and!; try done.
  eapply static_ok_frame; [exact Hst|done|..]; snorm; rewrite ?length_insert;
    try done.
  - by apply MpsFacts.wf_with_raw.
  - unfold size. simpl. by rewrite length_insert.
Qed.

(** ** One bond *)

Lemma bond_update_split ex :
  bond_update ex
  = match LoadRelatedTensSweep_ ex with
    | Some (_, ex1) =>
        match (SetEffectiveHamiltonianTerms_;;; TwoSiteUpdate_) ex1 with
        | Some (e, ex3) => DumpRelatedTensSweep_ (with_e0 (Some e) ex3)
        | None => None
        end
    | None => None
    end.
Proof.
  unfold bond_update, ebind. destruct (LoadRelatedTensSweep_ ex) as [[[] ex1]|]; [|done].
  destruct (SetEffectiveHamiltonianTerms_ ex1) as [[[] ex2]|]; [|done].
  by destruct (TwoSiteUpdate_ ex2) as [[e ex3]|].
Qed.

Lemma bond_update_right ex i :
  collaborators_ok -> at_right ex i ->
  (left_boundary_ ex <= i)%nat -> (i + 1 < right_boundary_ ex)%nat ->
  dir_ ex = "r"%char -> l_site_ ex = i -> r_site_ ex = (i + 1)%nat ->
  exists e ex' ln, bond_update ex = Some (tt, ex') /\
    same_ctl ex ex' /\ same_bond ex ex' /\
    cout_ ex' = cout_ ex ++ [ln] /\ bond_of ln = (i, (i + 1)%nat) /\
    rep_E0 ln = e /\ e0_ ex' = Some e /\
    at_right ex' (i + 1).
Proof.
  intros Hco Hat Hlb Hrb Hd Hl Hr.
  pose proof Hat as (Hst & Hdisk & _ & _).
  pose proof Hst as (Hmpo & HN & Hb & Hwf & Hsz & Hlo & Hro & Hmax & Hnames).
  destruct (LoadRelatedTensSweep__right ex i Hco Hat Hlb Hrb Hd Hl Hr)
    as (ex1 & Hrun1 & Hc1 & Hb1 & Hco1 & He1 & Hst1 & Hld1 & Hf1).
  pose proof Hb1 as (Hd1 & Hl1 & Hr1).
  destruct (update_loaded ex1 Hst1 Hld1 (proj1 (proj2 Hco)) (proj2 (proj2 Hco)))
    as (e & ex3 & ln & Hrun3 & Hc3 & Hb3 & He3 & Hdk3 & Hco3 & Hln & HlnE & Hst3
        & [a Ha] & [b Hb'] & HR & _).
  { left. congruence. }
  pose proof Hb3 as (Hd3 & Hl3 & Hr3).
  destruct (HR ltac:(congruence)) as (Hro3 & g & W' & Hlo3 & HW' & Hglen).
  destruct (DumpRelatedTensSweep__right (with_e0 (Some e) ex3) a g)
    as (ex5 & Hrun5 & Hc5 & Hb5 & Hco5 & He5 & Hst5 & Hraw5 & Hlo5 & Hro5 & Hf5);
    snorm; try congruence.
  { exact Hst3. }
  { destruct Hc3 as (? & HN3 & _). destruct Hc1 as (? & HN1 & _). lia. }
  { rewrite Hlo3, Hr3. apply list_lookup_insert_eq.
    destruct Hst1 as (_ & _ & _ & _ & _ & Hlo1 & _).
    destruct Hc1 as (? & HN1 & _). lia. }
  exists e, ex5, ln.
  assert (Hctl : same_ctl ex ex5).
  { eapply same_ctl_trans; [exact Hc1|].
    eapply same_ctl_trans; [exact Hc3|exact Hc5]. }
  assert (Hbond : same_bond ex ex5).
  { eapply same_bond_trans; [exact Hb1|].
    eapply same_bond_trans; [exact Hb3|exact Hb5]. }
  pose proof Hctl as (Hp5 & HN5 & HW5 & Hlb5 & Hrb5).
  pose proof Hc1 as (Hp1 & HN1 & HW1 & _ & _).
  pose proof Hc3 as (Hp3 & HN3 & HW3 & _ & _).
  snorm_in Hf5. snorm_in Hraw5. snorm_in Hlo5. snorm_in Hro5.
  snorm_in Hco5. snorm_in He5.
  rewrite Hl3, Hl1, Hl in Hf5, Hraw5, Hlo5.
  rewrite Hr3, Hr1, Hr, Hp3, Hp1, Hdk3, Hf1 in Hf5.
  rewrite Hr1, Hr in Hlo3, Hb', HW'. rewrite HW1 in HW'.
  split_and!.
  - rewrite bond_update_split, Hrun1, Hrun3. exact Hrun5.
  - exact Hctl.
  - exact Hbond.
  - rewrite Hco5, Hco3. by rewrite Hco1.
  - rewrite Hln. by rewrite Hl1, Hr1, Hl, Hr.
  - exact HlnE.
  - exact He5.
  - unfold at_right. split; [exact Hst5|]. split_and!.
    + unfold disk_ok, group_on_disk. rewrite Hp5, HN5, HW5, Hlb5, Hrb5, Hf5.
      split_and!.
      * intros j Hj. rewrite lookup_insert_ne by apply Hnames.
        destruct (decide (j = i)) as [->|Hji]; [by rewrite lookup_insert_eq|].
        rewrite lookup_insert_ne
          by (intros Hx; apply MpsFacts.GenMPSTenName_inj in Hx; lia).
        rewrite lookup_delete_ne by apply Hnames.
        by apply (proj1 Hdisk).
      * intros p W Hp HW.
        destruct (decide (p = i + 1)%nat) as [->|Hpi].
        -- exists g. rewrite lookup_insert_eq. split; [done|]. congruence.
        -- rewrite lookup_insert_ne
             by (intros Hx; apply GenOpGroupName_inj in Hx; [lia|auto..]).
           rewrite lookup_insert_ne by (intros Hx; symmetry in Hx; by apply Hnames in Hx).
           rewrite lookup_delete_ne
             by (intros Hx; apply GenOpGroupName_inj in Hx; [|auto..];
                 destruct Hx as [Hx _]; discriminate Hx).
           apply (proj1 (proj2 Hdisk)); [lia|done].
      * intros s' W Hs HW.
        rewrite lookup_insert_ne
          by (intros Hx; apply GenOpGroupName_inj in Hx; [|auto..];
              destruct Hx as [Hx _]; discriminate Hx).
        rewrite lookup_insert_ne by (intros Hx; symmetry in Hx; by apply Hnames in Hx).
        rewrite lookup_delete_ne
          by (intros Hx; apply GenOpGroupName_inj in Hx; [lia|auto..]).
        apply (proj2 (proj2 Hdisk)); [lia|done].
    + exists b. rewrite Hlb5, Hraw5. rewrite list_lookup_insert_ne by lia.
      rewrite <- Hb'. f_equal. lia.
    + intros _. exists g, W'. rewrite Hlo5, Hlo3, HW5.
      split_and!; [|done|done].
      rewrite list_lookup_insert_ne by lia. apply list_lookup_insert_eq.
      destruct Hst1 as (_ & _ & _ & _ & _ & Hlo1 & _). lia.
Qed.

Lemma bond_update_left ex j :
  collaborators_ok -> at_left ex j ->
  (left_boundary_ ex + 2 <= j)%nat -> (j <= right_boundary_ ex)%nat ->
  dir_ ex = "l"%char -> l_site_ ex = (j - 1)%nat -> r_site_ ex = j ->
  exists e ex' ln, bond_update ex = Some (tt, ex') /\
    same_ctl ex ex' /\ same_bond ex ex' /\
    cout_ ex' = cout_ ex ++ [ln] /\ bond_of ln = ((j - 1)%nat, j) /\
    rep_E0 ln = e /\ e0_ ex' = Some e /\
    at_left ex' (j - 1).
Proof.
  intros Hco Hat Hlb Hrb Hd Hl Hr.
  pose proof Hat as (Hst & Hdisk & _ & _).
  pose proof Hst as (Hmpo & HN & Hb & Hwf & Hsz & Hlo & Hro & Hmax & Hnames).
  destruct (LoadRelatedTensSweep__left ex j Hco Hat Hlb Hrb Hd Hl Hr)
    as (ex1 & Hrun1 & Hc1 & Hb1 & Hco1 & He1 & Hst1 & Hld1 & Hf1).
  pose proof Hb1 as (Hd1 & Hl1 & Hr1).
  destruct (update_loaded ex1 Hst1 Hld1 (proj1 (proj2 Hco)) (proj2 (proj2 Hco)))
    as (e & ex3 & ln & Hrun3 & Hc3 & Hb3 & He3 & Hdk3 & Hco3 & Hln & HlnE & Hst3
        & [a Ha] & [b Hb'] & _ & HL).
  { right. congruence. }
  pose proof Hb3 as (Hd3 & Hl3 & Hr3).
  pose proof Hc1 as (Hp1 & HN1 & HW1 & _ & _).
  pose proof Hc3 as (Hp3 & HN3 & HW3 & _ & _).
  destruct (HL ltac:(congruence)) as (Hlo3 & g & W' & Hro3 & HW' & Hglen).
  destruct (DumpRelatedTensSweep__left (with_e0 (Some e) ex3) b g)
    as (ex5 & Hrun5 & Hc5 & Hb5 & Hco5 & He5 & Hst5 & Hraw5 & Hlo5 & Hro5 & Hf5);
    snorm; try congruence.
  { exact Hst3. }
  { lia. }
  { lia. }
  { rewrite Hro3, HN3, Hl3. apply list_lookup_insert_eq.
    destruct Hst1 as (_ & _ & _ & _ & _ & _ & Hro1 & _). lia. }
  exists e, ex5, ln.
  assert (Hctl : same_ctl ex ex5).
  { eapply same_ctl_trans; [exact Hc1|].
    eapply same_ctl_trans; [exact Hc3|exact Hc5]. }
  assert (Hbond : same_bond ex ex5).
  { eapply same_bond_trans; [exact Hb1|].
    eapply same_bond_trans; [exact Hb3|exact Hb5]. }
  pose proof Hctl as (Hp5 & HN5 & HW5 & Hlb5 & Hrb5).
  snorm_in Hf5. snorm_in Hraw5. snorm_in Hlo5. snorm_in Hro5.
  snorm_in Hco5. snorm_in He5.
  rewrite Hr3, Hr1, Hr in Hf5, Hraw5, Hro5.
  rewrite Hl3, Hl1, Hl, HN3, HN1, Hp3, Hp1, Hdk3, Hf1 in Hf5.
  rewrite HN3, HN1 in Hro5.
  rewrite Hl1, Hl in Hro3, Ha, HW'. rewrite HW1, HN1 in *.
  split_and!.
  - rewrite bond_update_split, Hrun1, Hrun3. exact Hrun5.
  - exact Hctl.
  - exact Hbond.
  - rewrite Hco5, Hco3. by rewrite Hco1.
  - rewrite Hln. by rewrite Hl1, Hr1, Hl, Hr.
  - exact HlnE.
  - exact He5.
  - unfold at_left. split; [exact Hst5|]. split_and!.
    + unfold disk_ok, group_on_disk. rewrite Hp5, HN5, HW5, Hlb5, Hrb5, Hf5.
      split_and!.
      * intros j' Hj. rewrite lookup_insert_ne by apply Hnames.
        destruct (decide (j' = j)) as [->|Hji]; [by rewrite lookup_insert_eq|].
        rewrite lookup_insert_ne
          by (intros Hx; apply MpsFacts.GenMPSTenName_inj in Hx; lia).
        rewrite lookup_delete_ne by apply Hnames.
        by apply (proj1 Hdisk).
      * intros p W Hp HW.
        rewrite lookup_insert_ne
          by (intros Hx; apply GenOpGroupName_inj in Hx; [|auto..];
              destruct Hx as [Hx _]; discriminate Hx).
        rewrite lookup_insert_ne by (intros Hx; symmetry in Hx; by apply Hnames in Hx).
        rewrite lookup_delete_ne
          by (intros Hx; apply GenOpGroupName_inj in Hx; [lia|auto..]).
        apply (proj1 (proj2 Hdisk)); [lia|done].
      * intros s' W Hs HW.
        destruct (decide (s' = j - 1)%nat) as [->|Hsj].
        -- exists g. rewrite lookup_insert_eq. split; [done|]. congruence.
        -- rewrite lookup_insert_ne
             by (intros Hx; apply GenOpGroupName_inj in Hx; [lia|auto..]).
           rewrite lookup_insert_ne
             by (intros Hx; symmetry in Hx; by apply Hnames in Hx).
           rewrite lookup_delete_ne
             by (intros Hx; apply GenOpGroupName_inj in Hx; [|auto..];
                 destruct Hx as [Hx _]; discriminate Hx).
           apply (proj2 (proj2 Hdisk)); [lia|done].
    + exists a. rewrite Hrb5, Hraw5. rewrite list_lookup_insert_ne by lia.
      rewrite <- Ha. f_equal. lia.
    + intros _. exists g, W'. rewrite HN5, Hro5, Hro3, HW5.
      split_and!; [|done|done].
      rewrite list_lookup_insert_ne by lia. apply list_lookup_insert_eq.
      destruct Hst1 as (_ & _ & _ & _ & _ & _ & Hro1 & _). lia.
Qed.

(** ** The two passes *)

Lemma at_right_sites ex i l r : at_right ex i -> at_right (with_sites l r ex) i.
Proof. exact (fun H => H). Qed.

Lemma at_left_sites ex j l r : at_left ex j -> at_left (with_sites l r ex) j.
Proof. exact (fun H => H). Qed.

Lemma right_pass_run (n : nat) : forall i ex,
  collaborators_ok -> at_right ex i -> dir_ ex = "r"%char ->
  (left_boundary_ ex <= i)%nat -> (i + n + 1 = right_boundary_ ex)%nat ->
  exists ex' new,
    for_from i n (fun i =>
      (ex <- eget;; eput (with_sites i (i + 1) ex));;; bond_update) ex
    = Some (tt, ex') /\
    same_ctl ex ex' /\ dir_ ex' = "r"%char /\
    cout_ ex' = cout_ ex ++ new /\
    bond_of <$> new = (fun i => (i, i + 1)%nat) <$> seq i n /\
    at_right ex' (i + n) /\
    (new = [] -> e0_ ex' = e0_ ex) /\
    (forall ln, last new = Some ln -> e0_ ex' = Some (rep_E0 ln)).
Proof.
  induction n as [|n IH]; intros i ex Hco Hat Hd Hlb Hrb.
  - exists ex, []. simpl. rewrite app_nil_r, Nat.add_0_r.
    split_and!; try done; apply same_ctl_refl.
  - destruct (bond_update_right (with_sites i (i + 1) ex) i Hco
                (at_right_sites _ _ _ _ Hat) Hlb ltac:(simpl; lia) Hd
                eq_refl eq_refl)
      as (e & ex1 & ln & Hrun & Hc1 & (Hd1 & _ & _) & Hco1 & Hln & HlnE & He1 & Hat1).
    pose proof Hc1 as (_ & _ & _ & Hlb1 & Hrb1). snorm_in Hlb1. snorm_in Hrb1.
    rewrite Nat.add_1_r in Hat1.
    destruct (IH (S i) ex1 Hco Hat1) as
      (ex' & new & Hrun' & Hc' & Hd' & Hco' & Hb' & Hat' & Hnil & Hlast);
      [by rewrite Hd1|lia|lia|].
    exists ex', (ln :: new). split_and!.
    + cbn [for_from]. unfold ebind at 1. unfold ebind at 1, eget at 1, eput at 1.
      unfold ebind at 1. rewrite Hrun. exact Hrun'.
    + eapply same_ctl_trans; [exact Hc1|exact Hc'].
    + exact Hd'.
    + rewrite Hco', Hco1. snorm. by rewrite <- app_assoc.
    + by rewrite fmap_cons, Hb', Hln.
    + replace (i + S n)%nat with (S i + n)%nat by lia. exact Hat'.
    + discriminate.
    + intros ln'. destruct new as [|x new'].
      * simpl. intros [= <-]. rewrite Hnil by done. by rewrite He1, HlnE.
      * intros Hl. apply Hlast. exact Hl.
Qed.

Lemma left_pass_run (n : nat) : forall j ex,
  collaborators_ok -> at_left ex j -> dir_ ex = "l"%char ->
  (j <= right_boundary_ ex)%nat -> (j = left_boundary_ ex + 1 + n)%nat ->
  exists ex' new,
    for_down j n (fun i =>
      (ex <- eget;; eput (with_sites (i - 1) i ex));;; bond_update) ex
    = Some (tt, ex') /\
    same_ctl ex ex' /\ dir_ ex' = "l"%char /\
    cout_ ex' = cout_ ex ++ new /\
    bond_of <$> new = (fun i => (i - 1, i)%nat) <$> reverse (seq (j + 1 - n) n) /\
    at_left ex' (j - n) /\
    (new = [] -> e0_ ex' = e0_ ex) /\
    (forall ln, last new = Some ln -> e0_ ex' = Some (rep_E0 ln)) /\
    (n <> 0%nat ->
     l_site_ ex' = (j - n)%nat /\ r_site_ ex' = (j - n + 1)%nat).
Proof.
  induction n as [|n IH]; intros j ex Hco Hat Hd Hrb Hlb.
  - exists ex, []. simpl. rewrite app_nil_r, Nat.sub_0_r.
    split_and!; try done; apply same_ctl_refl.
  - destruct (bond_update_left (with_sites (j - 1) j ex) j Hco
                (at_left_sites _ _ _ _ Hat) ltac:(simpl; lia) Hrb Hd
                eq_refl eq_refl)
      as (e & ex1 & ln & Hrun & Hc1 & (Hd1 & Hl1 & Hr1) & Hco1 & Hln & HlnE
          & He1 & Hat1).
    pose proof Hc1 as (_ & _ & _ & Hlb1 & Hrb1). snorm_in Hlb1. snorm_in Hrb1.
    snorm_in Hl1. snorm_in Hr1.
    destruct (IH (j - 1)%nat ex1 Hco Hat1) as
      (ex' & new & Hrun' & Hc' & Hd' & Hco' & Hb' & Hat' & Hnil & Hlast & Hsites);
      [by rewrite Hd1|lia|lia|].
    exists ex', (ln :: new). split_and!.
    + cbn [for_down]. unfold ebind at 1. unfold ebind at 1, eget at 1, eput at 1.
      unfold ebind at 1. rewrite Hrun. exact Hrun'.
    + eapply same_ctl_trans; [exact Hc1|exact Hc'].
    + exact Hd'.
    + rewrite Hco', Hco1. snorm. by rewrite <- app_assoc.
    + rewrite fmap_cons, Hb', Hln.
      replace (j + 1 - S n)%nat with (j - 1 + 1 - n)%nat by lia.
      rewrite seq_S, reverse_snoc, fmap_cons. do 2 f_equal; lia.
    + replace (j - S n)%nat with (j - 1 - n)%nat by lia. exact Hat'.
    + discriminate.
    + intros ln'. destruct new as [|x new'].
      * simpl. intros [= <-]. rewrite Hnil by done. by rewrite He1, HlnE.
      * intros Hl. apply Hlast. exact Hl.
    + intros _. destruct n as [|n].
      * cbn [for_down] in Hrun'. injection Hrun' as <-. lia.
      * destruct (Hsites ltac:(done)) as [-> ->]. lia.
Qed.

(** ** One sweep, and all of them *)

Lemma at_right_end ex :
  at_right ex (right_boundary_ ex - 1) -> at_left ex (right_boundary_ ex).
Proof.
  intros (Hst & Hdisk & [t Ht] & _).
  pose proof Hst as (_ & _ & Hb & _).
  split; [exact Hst|]. split_and!.
  - by replace (right_boundary_ ex) with (right_boundary_ ex - 1 + 1)%nat at 1 by lia.
  - exists t. rewrite <- Ht. f_equal. lia.
  - lia.
Qed.

Lemma at_left_end ex :
  at_left ex (left_boundary_ ex + 1) -> at_right ex (left_boundary_ ex).
Proof.
  intros (Hst & Hdisk & [t Ht] & _).
  pose proof Hst as (_ & _ & Hb & _).
  split; [exact Hst|]. split_and!.
  - exact Hdisk.
  - exists t. rewrite <- Ht. f_equal. lia.
  - lia.
Qed.

Lemma DMRGSweep__run ex :
  collaborators_ok -> sweep_ready ex ->
  exists e ex' new,
    DMRGSweep_ ex = Some (e, ex') /\
    same_ctl ex ex' /\
    cout_ ex' = cout_ ex ++ new /\
    bond_of <$> new = sweep_bonds (left_boundary_ ex) (right_boundary_ ex) /\
    last (rep_E0 <$> new) = Some e /\
    e0_ ex' = Some e /\
    sweep_ready ex' /\
    dir_ ex' = "l"%char /\
    l_site_ ex' = (left_boundary_ ex + 1)%nat /\
    r_site_ ex' = (left_boundary_ ex + 2)%nat.
Proof.
  intros Hco Hat. unfold sweep_ready in Hat.
  pose proof Hat as ((_ & HN & Hb & _) & _).
  destruct (right_pass_run (right_boundary_ ex - 1 - left_boundary_ ex)
              (left_boundary_ ex) (with_dir "r" ex) Hco Hat eq_refl
              (le_n _) ltac:(simpl; lia))
    as (ex1 & new1 & Hrun1 & Hc1 & Hd1 & Hco1 & Hb1 & Hat1 & _ & _).
  pose proof Hc1 as (_ & _ & _ & Hlb1 & Hrb1). snorm_in Hlb1. snorm_in Hrb1.
  snorm_in Hat1. snorm_in Hco1.
  replace (left_boundary_ ex + (right_boundary_ ex - 1 - left_boundary_ ex))%nat
    with (right_boundary_ ex1 - 1)%nat in Hat1 by lia.
  apply at_right_end in Hat1.
  destruct (left_pass_run (right_boundary_ ex - (left_boundary_ ex + 1))
              (right_boundary_ ex1) (with_dir "l" ex1) Hco Hat1 eq_refl
              (le_n _) ltac:(simpl; lia))
    as (ex2 & new2 & Hrun2 & Hc2 & Hd2 & Hco2 & Hb2 & Hat2 & _ & Hlast2 & Hsites).
  pose proof Hc2 as (_ & _ & _ & Hlb2 & Hrb2). snorm_in Hlb2. snorm_in Hrb2.
  snorm_in Hat2. snorm_in Hco2.
  replace (right_boundary_ ex1 - (right_boundary_ ex - (left_boundary_ ex + 1)))%nat
    with (left_boundary_ ex2 + 1)%nat in Hat2 by lia.
  apply at_left_end in Hat2.
  assert (Hne : exists ln, last new2 = Some ln).
  { destruct new2 as [|x new2 _] using rev_ind.
    - apply (f_equal length) in Hb2.
      rewrite !length_fmap, length_reverse, length_seq in Hb2. simpl in Hb2. lia.
    - exists x. by rewrite last_snoc. }
  destruct Hne as [ln Hln].
  exists (rep_E0 ln), ex2, (new1 ++ new2).
  split_and!.
  - unfold DMRGSweep_.
    unfold ebind at 1. unfold ebind at 1, eget at 1, eput at 1.
    sstep. rewrite (size_sub_small _ 1) by lia.
    unfold ebind at 1. rewrite Hrun1.
    unfold ebind at 1. unfold ebind at 1, eget at 1, eput at 1.
    sstep. rewrite Hlb1, Hrb1, (size_add_small _ 1) by lia.
    rewrite Hrb1 in Hrun2.
    unfold ebind at 1. rewrite Hrun2. sstep.
    by rewrite (Hlast2 ln Hln).
  - eapply same_ctl_trans; [exact Hc1|exact Hc2].
  - rewrite Hco2, Hco1. by rewrite app_assoc.
  - rewrite fmap_app, Hb1, Hb2. unfold sweep_bonds. rewrite Hrb1.
    do 3 f_equal. f_equal; lia.
  - rewrite fmap_app, last_app, fmap_last, Hln. reflexivity.
  - by apply Hlast2.
  - exact Hat2.
  - exact Hd2.
  - destruct (Hsites ltac:(lia)) as [-> _]. lia.
  - destruct (Hsites ltac:(lia)) as [_ ->]. lia.
Qed.

Lemma sweep_loop_run (n : nat) : forall ex,
  collaborators_ok -> sweep_ready ex ->
  exists ex' new,
    sweep_loop n ex = Some (tt, ex') /\
    same_ctl ex ex' /\
    cout_ ex' = cout_ ex ++ new /\
    bond_of <$> new
    = concat (replicate n (sweep_bonds (left_boundary_ ex) (right_boundary_ ex))) /\
    (new = [] -> e0_ ex' = e0_ ex) /\
    (forall ln, last new = Some ln -> e0_ ex' = Some (rep_E0 ln)) /\
    sweep_ready ex' /\
    (n <> 0%nat ->
     dir_ ex' = "l"%char /\
     l_site_ ex' = (left_boundary_ ex + 1)%nat /\
     r_site_ ex' = (left_boundary_ ex + 2)%nat).
Proof.
  induction n as [|n IH]; intros ex Hco Hready.
  - exists ex, []. simpl. rewrite app_nil_r.
    split_and!; try done; apply same_ctl_refl.
  - destruct (DMRGSweep__run ex Hco Hready)
      as (e & ex1 & new1 & Hrun1 & Hc1 & Hco1 & Hb1 & Hl1 & He1 & Hr1 & Hd1
          & Hls1 & Hrs1).
    pose proof Hc1 as (_ & _ & _ & Hlb1 & Hrb1).
    destruct (IH (with_e0 (Some e) ex1) Hco Hr1)
      as (ex' & new & Hrun' & Hc' & Hco' & Hb' & Hnil & Hlast & Hr' & Hfin).
    snorm_in Hco'. snorm_in Hb'. snorm_in Hnil. snorm_in Hfin.
    exists ex', (new1 ++ new). split_and!.
    + cbn [sweep_loop]. unfold ebind at 1. rewrite Hrun1.
      unfold ebind at 1. unfold ebind at 1, eget at 1, eput at 1. exact Hrun'.
    + eapply same_ctl_trans; [exact Hc1|exact Hc'].
    + rewrite Hco', Hco1. by rewrite app_assoc.
    + rewrite fmap_app, Hb1, Hb', Hlb1, Hrb1. reflexivity.
    + intros [-> ->]%app_eq_nil. simpl in Hl1. discriminate Hl1.
    + intros ln. destruct new as [|x new' _] using rev_ind.
      * rewrite app_nil_r. intros Hln. rewrite Hnil by done.
        rewrite fmap_last, Hln in Hl1. simpl in Hl1. congruence.
      * rewrite app_assoc, last_snoc. intros [= <-]. apply Hlast.
        by rewrite last_snoc.
    + exact Hr'.
    + intros _. destruct n as [|n].
      * cbn [sweep_loop] in Hrun'. injection Hrun' as <-. by snorm.
      * rewrite <- Hlb1. by apply Hfin.
Qed.

(** ** [Execute] *)

Lemma Execute_run ex ex0 :
  collaborators_ok ->
  size (mps_ ex) = length (mat_repr_mpo_ ex) ->
  DMRGInit_ ex = Some (tt, ex0) ->
  init_ready ex0 ->
  exists ex' new,
    Execute ex = Some (tt, ex') /\
    same_ctl ex0 ex' /\
    cout_ ex' = cout_ ex0 ++ new /\
    bond_of <$> new
    = concat (replicate (sweeps (sweep_params ex0))
                (sweep_bonds (left_boundary_ ex0) (right_boundary_ ex0))) /\
    (new = [] -> e0_ ex' = e0_ ex0) /\
    (forall ln, last new = Some ln -> e0_ ex' = Some (rep_E0 ln)) /\
    (sweeps (sweep_params ex0) <> 0%nat ->
     dir_ ex' = "l"%char /\
     l_site_ ex' = (left_boundary_ ex0 + 1)%nat /\
     r_site_ ex' = (left_boundary_ ex0 + 2)%nat) /\
    raw_data_ (mps_ ex') !! (left_boundary_ ex0 + 1)%nat = Some None /\
    is_Some (files (disk_ ex')
               !! GenMPSTenName (mps_path (sweep_params ex0))
                                (left_boundary_ ex0 + 1)).
Proof.
  intros Hco Hsz Hinit (Hst & Hdisk).
  pose proof Hst as (Hmpo & HN & Hb & Hwf & Hsz0 & Hlo & Hro & Hmax & Hnames).
  destruct (proj1 Hdisk (left_boundary_ ex0 + 1)%nat ltac:(lia)) as [blob Hblob].
  set (ex1 := with_world
                (with_raw (left_boundary_ ex0 + 1) (Some (ten_read blob)) (mps_ ex0),
                 disk_ ex0) ex0).
  assert (Hready : sweep_ready ex1).
  { unfold sweep_ready, at_right, ex1. snorm. split_and!.
    - apply (static_ok_frame ex0); [exact Hst|by unfold same_ctl|..];
        snorm; try done.
      + by apply MpsFacts.wf_with_raw.
      + unfold size. simpl. by rewrite length_insert.
    - exact Hdisk.
    - eexists. replace (left_boundary_ ex0 `max` (left_boundary_ ex0 + 1))%nat
        with (left_boundary_ ex0 + 1)%nat by lia.
      apply list_lookup_insert_eq. unfold size in Hsz0. lia.
    - lia. }
  destruct (sweep_loop_run (sweeps (sweep_params ex0)) ex1 Hco Hready)
    as (ex2 & new & Hrun2 & Hc2 & Hco2 & Hb2 & Hnil & Hlast & Hready2 & Hfin).
  pose proof Hc2 as (Hp2 & HN2 & HW2 & Hlb2 & Hrb2).
  unfold ex1 in Hp2, HN2, HW2, Hlb2, Hrb2, Hco2, Hb2, Hnil, Hfin.
  snorm_in Hp2. snorm_in HN2. snorm_in HW2. snorm_in Hlb2. snorm_in Hrb2.
  snorm_in Hco2. snorm_in Hb2. snorm_in Hnil. snorm_in Hfin.
  pose proof Hready2 as (Hst2 & _ & [t Ht] & _).
  replace (left_boundary_ ex2 `max` (left_boundary_ ex2 + 1))%nat
    with (left_boundary_ ex0 + 1)%nat in Ht by lia.
  eexists _, new. split_and!.
  - unfold Execute. sstep. rewrite Hsz, Nat.eqb_refl.
    unfold ebind at 1, eret at 1. unfold ebind at 1. rewrite Hinit. sstep.
    rewrite (size_add_small _ 1) by lia.
    srun (on_mps_LoadTen _ _ _ blob); [|lia]. sstep.
    fold ex1. unfold ebind at 1. rewrite Hrun2. sstep.
    rewrite Hlb2, Hp2, (size_add_small _ 1) by lia.
    rewrite (on_mps_DumpTen _ _ _ t) by exact Ht. reflexivity.
  - exact Hc2.
  - exact Hco2.
  - exact Hb2.
  - exact Hnil.
  - exact Hlast.
  - exact Hfin.
  - snorm. apply list_lookup_insert_eq. eapply lookup_lt_Some, Ht.
  - snorm. rewrite lookup_insert_eq. by eexists.
Qed.

(** A sweep between boundaries that leave no bond runs no update. *)
Lemma DMRGSweep__no_bond ex e :
  (1 <= right_boundary_ ex <= left_boundary_ ex + 1)%nat ->
  Z.of_nat (left_boundary_ ex) + 1 < 2 ^ 64 ->
  e0_ ex = Some e ->
  DMRGSweep_ ex = Some (e, with_dir "l" ex).
Proof.
  intros Hb Hlb He. unfold DMRGSweep_.
  unfold ebind at 1. unfold ebind at 1, eget at 1, eput at 1.
  sstep. rewrite (size_sub_small _ 1) by lia.
  replace (right_boundary_ ex - 1 - left_boundary_ ex)%nat with 0%nat by lia.
  cbn [for_from]. unfold ebind at 1, eret at 1.
  unfold ebind at 1. unfold ebind at 1, eget at 1, eput at 1.
  sstep. rewrite (size_add_small _ 1) by lia.
  replace (right_boundary_ ex - (left_boundary_ ex + 1))%nat with 0%nat by lia.
  cbn [for_down]. unfold ebind at 1, eret at 1. sstep.
  by rewrite He.
Qed.



(** C5. Every sweep runs the two-site update at the bonds [(i, i + 1)],
    [i] from the left boundary up to the right boundary less two, then at
    the bonds [(i - 1, i)], [i] from the right boundary down to the left
    boundary plus two, and returns the energy of the last of them; between
    boundaries that leave no bond it runs no update.  [Execute] runs the
    sweep [sweeps] times, and the energy that [GetEnergy] returns afterwards
    is the energy of the last update.  This is stated of the executor as
    [DMRGInit_] is to leave it ([init_ready]), for collaborators that read
    a group back as written and grow a group to the size that the MPO asks
    for, and for a sweep count below the largest [size_t]; every update is
    the run of [TwoSiteUpdate_] on the bond that [LoadRelatedTensSweep_]
    has brought into memory, and the line it prints is its record. *)
Theorem DMRG_sweep_order ex ex0 :
  collaborators_ok ->
  size (mps_ ex) = length (mat_repr_mpo_ ex) ->
  DMRGInit_ ex = Some (tt, ex0) ->
  init_ready ex0 ->
  Z.of_nat (sweeps (sweep_params ex0)) < 2 ^ 64 - 1 ->
  (forall st, sweep_ready st ->
     exists e st' new,
       DMRGSweep_ st = Some (e, st') /\
       cout_ st' = cout_ st ++ new /\
       bond_of <$> new
       = ((fun i => (i, i + 1)%nat)
            <$> seq (left_boundary_ st)
                    (right_boundary_ st - 1 - left_boundary_ st)) ++
         ((fun i => (i - 1, i)%nat)
            <$> reverse (seq (left_boundary_ st + 2)
                             (right_boundary_ st - left_boundary_ st - 1))) /\
       last (rep_E0 <$> new) = Some e /\
       e0_ st' = Some e /\
       sweep_ready st' /\ same_ctl st st') /\
  (forall st e,
     (1 <= right_boundary_ st <= left_boundary_ st + 1)%nat ->
     Z.of_nat (left_boundary_ st) + 1 < 2 ^ 64 ->
     e0_ st = Some e ->
     DMRGSweep_ st = Some (e, with_dir "l" st)) /\
  exists ex' new,
    Execute ex = Some (tt, ex') /\
    cout_ ex' = cout_ ex0 ++ new /\
    bond_of <$> new
    = concat (replicate (sweeps (sweep_params ex0))
                (sweep_bonds (left_boundary_ ex0) (right_boundary_ ex0))) /\
    (forall ln, last new = Some ln -> GetEnergy ex' = Some (rep_E0 ln, ex')).
Proof.
  intros Hco Hsz Hinit Hready _. split_and!.
  - intros st Hst.
    destruct (DMRGSweep__run st Hco Hst)
      as (e & st' & new & Hrun & Hc & Hcout & Hb & Hl & He & Hr & _).
    exists e, st', new. by split_and!.
  - intros st e. apply DMRGSweep__no_bond.
  - destruct (Execute_run ex ex0 Hco Hsz Hinit Hready)
      as (ex' & new & Hrun & _ & Hcout & Hb & _ & Hlast & _).
    exists ex', new. split_and!; try done.
    intros ln Hln. unfold GetEnergy. sstep. by rewrite (Hlast ln Hln).
Qed.


(** X23. With [sweeps = 0], [Execute] runs no update and prints no update
    line, and [e0_] is as [DMRGInit_] left it: [GetEnergy] returns that
    value, and has none to return when [e0_] was never assigned (the
    constructor does not initialise it). *)
Theorem Execute_no_sweep ex ex0 :
  collaborators_ok ->
  size (mps_ ex) = length (mat_repr_mpo_ ex) ->
  DMRGInit_ ex = Some (tt, ex0) ->
  init_ready ex0 ->
  sweeps (sweep_params ex0) = 0%nat ->
  exists ex',
    Execute ex = Some (tt, ex') /\
    cout_ ex' = cout_ ex0 /\
    e0_ ex' = e0_ ex0 /\
    GetEnergy ex' = match e0_ ex0 with
                    | Some e => Some (e, ex')
                    | None => None
                    end.
Proof.
  intros Hco Hsz Hinit Hready Hn.
  destruct (Execute_run ex ex0 Hco Hsz Hinit Hready)
    as (ex' & new & Hrun & _ & Hcout & Hb & Hnil & _).
  rewrite Hn in Hb. cbn [replicate concat] in Hb.
  apply fmap_nil_inv in Hb. subst new. rewrite app_nil_r in Hcout.
  exists ex'. split_and!; try done; [by apply Hnil|].
  unfold GetEnergy. sstep. rewrite (Hnil eq_refl). by destruct (e0_ ex0).
Qed.

End Facts.
End SweepFacts.

(* ===================================================================== *)
(** * The statements at concrete inputs                                    *)
(* ===================================================================== *)

Module Examples.
Import Mps Lanczos Dmrg Sweep Instance.

#[local] Existing Instance toy_lib.
#[local] Existing Instance toy_consts.
#[local] Existing Instance toy_io.
#[local] Existing Instance toy_init.

Lemma toy_mps_wf : wf toy_mps.
Proof. split; [reflexivity | vm_compute; reflexivity]. Defined.

Lemma toy_mps_resident : resident toy_mps.
Proof.
  intros i Hi. destruct i as [|[|[|i]]];
    [eexists; reflexivity .. | vm_compute in Hi; lia].
Defined.

Lemma centered_mps_wf : wf centered_mps.
Proof. split; [reflexivity | vm_compute; reflexivity]. Defined.

(** The accessors at site 0 of a three-site MPS centered at site 1, whose
    site 0 is marked [LEFT] and whose site 2 is marked [RIGHT]: the
    non-const accessors mark site 0 [NONE] and drop the center, keep the
    mark of site 2 and the tensors; the const accessors change nothing. *)
Lemma element_access_frame_witness :
  wf centered_mps /\ (0 < size centered_mps)%nat /\
  center_ centered_mps = 1 /\
  tens_cano_type_ centered_mps = [LEFT; NONE; RIGHT] /\
  (exists m1, op_bracket 0 (centered_mps, toy_disk) = Some (0%nat, (m1, toy_disk)) /\
     center_ m1 = kUncentralizedCenterIdx /\
     tens_cano_type_ m1 !! 0%nat = Some NONE /\
     tens_cano_type_ m1 !! 2%nat = Some RIGHT /\
     raw_data_ m1 = raw_data_ centered_mps) /\
  (exists m2, op_paren 0 (centered_mps, toy_disk) = Some (0%nat, (m2, toy_disk)) /\
     center_ m2 = kUncentralizedCenterIdx /\
     tens_cano_type_ m2 !! 0%nat = Some NONE /\
     tens_cano_type_ m2 !! 2%nat = Some RIGHT /\
     raw_data_ m2 = raw_data_ centered_mps) /\
  op_bracket_const 0 (centered_mps, toy_disk) = Some (0%nat, (centered_mps, toy_disk)) /\
  op_paren_const 0 (centered_mps, toy_disk) = Some (0%nat, (centered_mps, toy_disk)).
Proof.
  assert (Hsz : (0 < size centered_mps)%nat) by (vm_compute; lia).
  split; [exact centered_mps_wf|]. split; [exact Hsz|].
  split; [reflexivity|]. split; [reflexivity|].
  destruct (MpsFacts.element_access_frame centered_mps toy_disk 0
              centered_mps_wf Hsz)
    as ((m1 & H1 & (Hc1 & Hn1 & Ho1) & _ & _ & Hr1 & _)
        & (m2 & H2 & (Hc2 & Hn2 & Ho2) & Hr2) & H3 & H4).
  split_and!.
  - exists m1. split_and!; [exact H1|exact Hc1|exact Hn1| |].
    + rewrite (Ho1 2%nat) by lia. reflexivity.
    + eapply Hr1. reflexivity.
  - exists m2. split_and!; [exact H2|exact Hc2|exact Hn2| |exact Hr2].
    rewrite (Ho2 2%nat) by lia. reflexivity.
  - exact H3.
  - exact H4.
Defined.

(** Centralising a three-site MPS at its middle site. *)
Lemma Centralize_idempotent_witness :
  wf toy_mps /\ resident toy_mps /\ Z.of_nat (size toy_mps) <= 2 ^ 31 /\
  0 <= 1 < Z.of_nat (size toy_mps) /\
  exists m1, Centralize 1 (toy_mps, toy_disk) = Some (tt, (m1, toy_disk)) /\
    Centralize 1 (m1, toy_disk) = Some (tt, (m1, toy_disk)).
Proof.
  assert (Ht : 0 <= 1 < Z.of_nat (size toy_mps)) by (vm_compute; split; congruence).
  assert (Hint : Z.of_nat (size toy_mps) <= 2 ^ 31) by (vm_compute; congruence).
  split; [exact toy_mps_wf|]. split; [exact toy_mps_resident|].
  split; [exact Hint|]. split; [exact Ht|].
  destruct (MpsFacts.Centralize_idempotent toy_mps toy_disk 1
              toy_mps_wf toy_mps_resident Hint Ht) as (m1 & H1 & _ & _ & _ & H2 & _).
  exists m1. split; [exact H1|exact H2].
Defined.

(** The scenario of the unit test [TestTenVec.TestIO] on the container as
    modelled: three tensors are assigned through [tenvec[i]] on a freshly
    sized container and dumped, the second with release; after releasing
    the other two the container holds no tensor; loading the three files
    into permuted slots gives the tensors in that permuted order. *)
Example TestTenVec_TestIO :
  let ten0 : @Ten toy_lib := [1; 2]%float in
  let ten1 : @Ten toy_lib := [3; 4]%float in
  let ten2 : @Ten toy_lib := [5; 6]%float in
  exists m d m',
    (r0 <- op_bracket 0;; ref_assign r0 ten0;;;
     r1 <- op_bracket 1;; ref_assign r1 ten1;;;
     r2 <- op_bracket 2;; ref_assign r2 ten2;;;
     DumpTen 0 "ten0.gqten" false;;;
     DumpTen 1 "ten1.gqten" true;;;
     DumpTen 2 "ten2.gqten" false;;;
     dealloc 0;;; dealloc 2)%mps (@MPS_new toy_lib 3, toy_disk) = Some (tt, (m, d)) /\
    raw_data_ m = [None; None; None] /\
    (LoadTen 0 "ten2.gqten";;;
     LoadTen 1 "ten0.gqten";;;
     LoadTen 2 "ten1.gqten")%mps (m, d) = Some (tt, (m', d)) /\
    raw_data_ m' = [Some ten2; Some ten0; Some ten1].
Proof.
  eexists _, _, _. split; [vm_compute; reflexivity|].
  split; [reflexivity|]. split; [vm_compute; reflexivity|reflexivity].
Qed.

(** Dumping and loading a three-site MPS with the identity serialiser. *)
Lemma Dump_Load_roundtrip_witness :
  (forall t : @Ten toy_lib, ten_read (ten_write t) = t) /\ resident toy_mps /\
  exists m1 d1 m2,
    Dump (CS:=toy_consts) "mps" false (toy_mps, toy_disk) = Some (tt, (m1, d1)) /\
    Load (CS:=toy_consts) "mps" (m1, d1) = Some (tt, (m2, d1)) /\
    raw_data_ m2 = raw_data_ toy_mps.
Proof.
  assert (Hser : forall t : @Ten toy_lib, ten_read (ten_write t) = t)
    by (intros t; reflexivity).
  split; [exact Hser|]. split; [exact toy_mps_resident|].
  destruct (MpsFacts.Dump_Load_roundtrip (CS:=toy_consts) "mps" false
              toy_mps toy_disk Hser toy_mps_resident)
    as (m1 & d1 & m2 & H1 & _ & _ & H2 & H3).
  exists m1, d1, m2. split; [exact H1|]. split; [exact H2|exact H3].
Defined.

(** The first pass on [H_flip] reaches the convergence test and goes on. *)
Lemma LanczosSolver_convergence_stop_witness :
  lanczos_init H_flip e1 matvec params_5 = Returned flip_k0 /\
  after_iters H_flip e1 matvec params_5 0 flip_k0 = Some flip_k0 /\
  lanczos_extend H_flip e1 matvec flip_k0 = Returned (Extended flip_ke) /\
  k_m flip_ke = (0 + 1)%nat.
Proof.
  assert (H1 : lanczos_init H_flip e1 matvec params_5 = Returned flip_k0)
    by (vm_compute; reflexivity).
  assert (H2 : after_iters H_flip e1 matvec params_5 0 flip_k0 = Some flip_k0)
    by reflexivity.
  assert (H3 : lanczos_extend H_flip e1 matvec flip_k0 = Returned (Extended flip_ke))
    by (vm_compute; reflexivity).
  split; [exact H1|]. split; [exact H2|]. split; [exact H3|].
  exact (proj1 (LanczosFacts.LanczosSolver_convergence_stop (TL:=toy_lib)
                  H_flip e1 matvec params_5 0 flip_k0 flip_k0 flip_ke H1 H2 H3)).
Defined.

(** [e1] is an eigenvector of [H_diag]: breakdown in the first pass; on
    [H_flip] the residual vanishes in the second pass. *)
Lemma LanczosSolver_breakdown_witness :
  (1 <= max_iterations params_5)%nat /\
  LanczosSolver H_diag e1 matvec params_5
  = Returned (MkLanczosRes 1 (alpha0 H_diag e1 matvec) (v0 e1)) /\
  exists r, LanczosSolver H_flip e1 matvec params_5 = Returned r /\
            iters r = 2%nat.
Proof.
  assert (Hmax : (1 <= max_iterations params_5)%nat) by (vm_compute; lia).
  split; [exact Hmax|]. split.
  - apply (LanczosFacts.LanczosSolver_breakdown (TL:=toy_lib)
             H_diag e1 matvec params_5 Hmax).
    vm_compute. reflexivity.
  - destruct (proj2 (LanczosFacts.LanczosSolver_breakdown (TL:=toy_lib)
                       H_flip e1 matvec params_5 Hmax)
                1%nat flip_k0 flip_k1 _ _ (le_n 1)
                ltac:(vm_compute; reflexivity) ltac:(vm_compute; reflexivity)
                ltac:(vm_compute; reflexivity) ltac:(vm_compute; reflexivity))
      as (bs & b0 & _ & _ & _ & Hs).
    eexists. split; [exact Hs|reflexivity].
Defined.

(** On [H_flip] with room for a single basis vector the first pass
    stores past the end of the arrays. *)
Lemma LanczosSolver_overrun_cap_1_witness :
  max_iterations params_1 = 1%nat /\
  LanczosSolver H_flip e1 matvec params_1 = Faulted (OutOfRange 1 1).
Proof.
  split; [reflexivity|].
  apply (LanczosFacts.LanczosSolver_overrun_cap_1 (TL:=toy_lib));
    [reflexivity | vm_compute; reflexivity].
Defined.

(** C6 (failing input). With [max_iterations = 1], [H = [[0,1],[1,0]]]
    and the initial state [(1, 0)], whose first residual is [(0, 1)], the
    first pass of [LanczosSolver] writes [N[1]], [bases[1]] and [a[1]]:
    index 1 of arrays of size 1. *)
Theorem LanczosSolver_overruns_at_cap_1 :
  LanczosSolver H_flip e1 matvec params_1 = Faulted (OutOfRange 1 1).
Proof. vm_compute. reflexivity. Qed.

(** The assembler at the only bond of a two-site chain. *)
Lemma SetEffectiveHamiltonianTerms_emits_witness :
  (Dmrg.r_site_ (toy_exec "r") < Dmrg.N_ (toy_exec "r"))%nat /\
  Dmrg.SetEffectiveHamiltonianTerms_ (toy_exec "r")
  = Some (tt, with_terms [term_at 2 0 1 0 0 0] (toy_exec "r")).
Proof.
  assert (Hr : (Dmrg.r_site_ (toy_exec "r") < Dmrg.N_ (toy_exec "r"))%nat)
    by (vm_compute; lia).
  split; [exact Hr|].
  apply (DmrgFacts.SetEffectiveHamiltonianTerms_emits (TL:=toy_lib)
           (toy_exec "r") toy_W0 toy_W1 [[1]%float] [[1]%float] Hr);
    solve [reflexivity | vm_compute; reflexivity].
Defined.

Lemma toy_exec_wf dir : wf (Dmrg.mps_ (toy_exec dir)).
Proof. split; [reflexivity | vm_compute; reflexivity]. Defined.

(** The update of the two-site chain in either direction, with a
    truncating SVD that returns [U = 2 t], [S = 3] and [Vt = 5 t]: moving
    right the sites become [U] and [S Vt], moving left [U S] and [Vt]. *)
Lemma TwoSiteUpdate__splits_witness :
  wf (Dmrg.mps_ (toy_exec "r")) /\
  block_ready (toy_exec "r") /\ block_ready (toy_exec "l") /\
  (exists e ex',
     Dmrg.TwoSiteUpdate_ (toy_exec "r") = Some (e, ex') /\
     raw_data_ (Dmrg.mps_ ex') = [Some [2%float]; Some [15%float]]) /\
  (exists e ex',
     Dmrg.TwoSiteUpdate_ (toy_exec "l") = Some (e, ex') /\
     raw_data_ (Dmrg.mps_ ex') = [Some [6%float]; Some [5%float]]).
Proof.
  assert (Hr : block_ready (toy_exec "r")).
  { left. split; [reflexivity|]. split; [eexists; reflexivity|].
    split; [eexists; reflexivity|]. vm_compute; lia. }
  assert (Hl : block_ready (toy_exec "l")).
  { right. split; [reflexivity|]. split; [eexists; reflexivity|].
    split; [eexists; reflexivity|]. vm_compute; lia. }
  split; [exact (toy_exec_wf "r")|]. split; [exact Hr|]. split; [exact Hl|].
  split.
  - destruct (DmrgFacts.TwoSiteUpdate__splits (TL:=toy_lib) (toy_exec "r")
                [1; 0]%float [1; 0]%float toy_terms (toy_exec_wf "r"))
      as (res & ex' & Hres & Hrun & Hpost);
      [vm_compute; congruence | reflexivity | reflexivity
      | vm_compute; reflexivity | vm_compute; lia | exact Hr |].
    vm_compute in Hres. injection Hres as <-.
    exists 1%float, ex'. split; [exact Hrun|]. exact (proj1 Hpost).
  - destruct (DmrgFacts.TwoSiteUpdate__splits (TL:=toy_lib) (toy_exec "l")
                [1; 0]%float [1; 0]%float toy_terms (toy_exec_wf "l"))
      as (res & ex' & Hres & Hrun & Hpost);
      [vm_compute; congruence | reflexivity | reflexivity
      | vm_compute; reflexivity | vm_compute; lia | exact Hl |].
    vm_compute in Hres. injection Hres as <-.
    exists 1%float, ex'. split; [exact Hrun|]. exact (proj1 Hpost).
Defined.

(** ** The sweep over the chain of four sites *)

Lemma toy_collaborators_ok : collaborators_ok.
Proof.
  split; [reflexivity|].
  split; intros g a W; apply length_replicate.
Defined.

Lemma chain_mpo_ok (n : nat) : mpo_ok (chain_init n).
Proof.
  split; [reflexivity|]. split.
  - intros s W Hs.
    destruct s as [|[|[|[|s]]]]; try discriminate Hs;
      injection Hs as <-; (split; [reflexivity|]);
      intros off idx Hoff Hidx;
      repeat (destruct off as [|off]; [injection Hoff as <-; vm_compute in *; try lia; split; congruence|]);
      discriminate Hoff.
  - intros s W W' Hs Hs'.
    destruct s as [|[|[|[|s]]]]; try discriminate Hs; try discriminate Hs';
      injection Hs as <-; injection Hs' as <-; reflexivity.
Defined.

Lemma chain_init_ready (n : nat) : init_ready (chain_init n).
Proof.
  split.
  - split; [exact (chain_mpo_ok n)|].
    split; [vm_compute; reflexivity|].
    split; [cbn; lia|].
    split; [split; reflexivity|].
    split; [reflexivity|]. split; [reflexivity|]. split; [reflexivity|].
    split; [cbn; lia|].
    intros op_name p i. unfold GenOpGroupName, GenMPSTenName.
    cbn. discriminate.
  - split; [|split].
    + intros j Hj. cbn in Hj.
      destruct j as [|[|[|[|j]]]]; try lia; eexists; vm_compute; reflexivity.
    + intros p W Hp HW. cbn in Hp.
      destruct p as [|p]; [|lia]. injection HW as <-.
      exists [[1%float]]. split; vm_compute; reflexivity.
    + intros s W Hs HW. cbn in Hs.
      destruct s as [|[|[|[|s]]]]; try lia; injection HW as <-.
      * exists [[1%float]; [1%float]]. split; vm_compute; reflexivity.
      * exists [[1%float]; [1%float]]. split; vm_compute; reflexivity.
      * exists [[1%float]]. split; vm_compute; reflexivity.
Defined.

(** Two sweeps over the chain: the bonds 0-1, 1-2, 2-3 to the right and
    1-2 to the left, twice over, and the energy of the last update. *)
Lemma DMRG_sweep_order_witness :
  collaborators_ok /\
  size (Dmrg.mps_ (chain_new 2)) = length (mat_repr_mpo_ (chain_new 2)) /\
  DMRGInit_ (chain_new 2) = Some (tt, chain_init 2) /\
  init_ready (chain_init 2) /\
  exists ex',
    Execute (chain_new 2) = Some (tt, ex') /\
    bond_of <$> cout_ ex'
    = [(0, 1); (1, 2); (2, 3); (1, 2); (0, 1); (1, 2); (2, 3); (1, 2)]%nat /\
    GetEnergy ex' = Some (4%float, ex').
Proof.
  split; [exact toy_collaborators_ok|]. split; [reflexivity|].
  split; [reflexivity|]. split; [exact (chain_init_ready 2)|].
  destruct (SweepFacts.DMRG_sweep_order (IO:=toy_io) (IN:=toy_init)
              (chain_new 2) (chain_init 2)
              toy_collaborators_ok ltac:(reflexivity) ltac:(reflexivity)
              (chain_init_ready 2) ltac:(vm_compute; reflexivity))
    as (_ & _ & ex' & new & Hrun & Hcout & Hb & HE).
  exists ex'. cbn [cout_ chain_init app] in Hcout. rewrite Hcout.
  split; [exact Hrun|]. split; [exact Hb|].
  vm_compute in Hrun. injection Hrun as <-.
  cbn [cout_] in Hcout. subst new. exact (HE _ eq_refl).
Defined.

(** ** Further instances *)

#[local] Existing Instance toy_dten.

(** The first of two occurrences of 5. *)
Lemma ElemInVec_first_occurrence_witness :
  (forall x y, Z.eqb x y = true <-> x = y) /\
  CoefOpAlg.ElemInVec Z.eqb 5 [3; 5; 7; 5] = (true, 1) /\
  [3; 5; 7; 5] !! Z.to_nat 1 = Some 5 /\
  forall j, (j < Z.to_nat 1)%nat -> [3; 5; 7; 5] !! j <> Some 5.
Proof.
  split; [exact Z.eqb_eq|]. split; [reflexivity|].
  exact (proj2 (CoefOpAlgFacts.ElemInVec_first_occurrence Z.eqb 5 [3; 5; 7; 5]
                  Z.eqb_eq)).
Defined.

Lemma toy_op_a_wf : CoefOpAlg.OpRepr_wf toy_op_a.
Proof. split; [reflexivity | apply (bool_decide_unpack _); vm_compute; reflexivity]. Defined.

Lemma toy_op_b_wf : CoefOpAlg.OpRepr_wf toy_op_b.
Proof. split; [reflexivity | apply (bool_decide_unpack _); vm_compute; reflexivity]. Defined.

Lemma toy_op_c_wf : CoefOpAlg.OpRepr_wf toy_op_c.
Proof. split; [reflexivity | apply (bool_decide_unpack _); vm_compute; reflexivity]. Defined.

(** The label 7 is given twice: its two coefficients are merged. *)
Lemma OpRepr_of_lists_merges_witness :
  let cs := [CoefOpAlg.MkCoefRepr [1]; CoefOpAlg.MkCoefRepr [2];
             CoefOpAlg.MkCoefRepr [3]] in
  let o := CoefOpAlg.MkOpRepr
             [CoefOpAlg.MkCoefRepr [1; 3]; CoefOpAlg.MkCoefRepr [2]] [7; 8] in
  CoefOpAlg.OpRepr_of_lists cs [7; 8; 7] = Some o /\
  forall l, CoefOpAlg.OpRepr_terms o !! l =
    if decide (l ∈ [7; 8; 7])
    then Some (CoefOpAlg.MkCoefRepr (CoefOpAlg.gather l [7; 8; 7] cs)) else None.
Proof.
  intros cs o.
  assert (H : CoefOpAlg.OpRepr_of_lists cs [7; 8; 7] = Some o) by reflexivity.
  split; [exact H|].
  exact (CoefOpAlgFacts.OpRepr_of_lists_merges cs [7; 8; 7] o H).
Defined.

(** The same sum written in two orders. *)
Lemma OpRepr_eq_decides_witness :
  CoefOpAlg.OpRepr_wf toy_op_a /\ CoefOpAlg.OpRepr_wf toy_op_b /\
  CoefOpAlg.OpRepr_eq toy_op_a toy_op_b = Some true /\
  exists r, CoefOpAlg.OpRepr_eq toy_op_a toy_op_b = Some r /\
    (r = true <->
     CoefOpAlg.op_label_list_ toy_op_a ≡ₚ CoefOpAlg.op_label_list_ toy_op_b /\
     forall l, CoefOpAlg.coef_agree (CoefOpAlg.OpRepr_terms toy_op_a !! l)
                                    (CoefOpAlg.OpRepr_terms toy_op_b !! l)).
Proof.
  split; [exact toy_op_a_wf|]. split; [exact toy_op_b_wf|].
  split; [reflexivity|].
  exact (CoefOpAlgFacts.OpRepr_eq_decides toy_op_a toy_op_b toy_op_a_wf toy_op_b_wf).
Defined.

(** A sum of two operators that share both labels. *)
Lemma OpRepr_add_terms_witness :
  CoefOpAlg.OpRepr_wf toy_op_a /\ CoefOpAlg.OpRepr_wf toy_op_c /\
  exists o, CoefOpAlg.OpRepr_add toy_op_a toy_op_c = Some o /\
    forall l, CoefOpAlg.OpRepr_terms o !! l =
      match CoefOpAlg.OpRepr_terms toy_op_a !! l,
            CoefOpAlg.OpRepr_terms toy_op_c !! l with
      | Some x, Some y => Some (CoefOpAlg.CoefRepr_add x y)
      | Some x, None => Some x
      | None, Some y => Some y
      | None, None => None
      end.
Proof.
  split; [exact toy_op_a_wf|]. split; [exact toy_op_c_wf|].
  exact (CoefOpAlgFacts.OpRepr_add_terms toy_op_a toy_op_c toy_op_a_wf toy_op_c_wf).
Defined.

(** An operator with a common coefficient. *)
Lemma Separate_then_Multi_witness :
  CoefOpAlg.OpRepr_wf toy_op_c /\
  exists coef base o,
    CoefOpAlg.SeparateCoefAndBase toy_op_c = Some (coef, base) /\
    CoefOpAlg.OpRepr_wf base /\
    CoefOpAlg.CoefReprOpReprIncompleteMulti coef base = CoefOpAlg.Value o /\
    CoefOpAlg.OpRepr_wf o /\ CoefOpAlg.OpRepr_eq o toy_op_c = Some true.
Proof.
  split; [exact toy_op_c_wf|].
  exact (CoefOpAlgFacts.Separate_then_Multi toy_op_c toy_op_c_wf).
Defined.

(** The coefficient 1 times [Op7 + Op8]. *)
Lemma Multi_then_Separate_witness :
  NoDup [7; 8] /\ [7; 8] <> [] /\
  exists base o coef',
    CoefOpAlg.OpRepr_of_labels [7; 8] = Some base /\
    CoefOpAlg.CoefReprOpReprIncompleteMulti (CoefOpAlg.MkCoefRepr [1]) base
    = CoefOpAlg.Value o /\
    CoefOpAlg.SeparateCoefAndBase o = Some (coef', base) /\
    CoefOpAlg.GetOpReprCoef o = Some coef' /\
    CoefOpAlg.CoefRepr_eq coef' (CoefOpAlg.MkCoefRepr [1]) = true.
Proof.
  assert (Hnd : NoDup [7; 8])
    by (apply (bool_decide_unpack _); vm_compute; reflexivity).
  assert (Hne : [7; 8] <> []) by discriminate.
  split; [exact Hnd|]. split; [exact Hne|].
  exact (CoefOpAlgFacts.Multi_then_Separate (CoefOpAlg.MkCoefRepr [1]) [7; 8]
           Hnd Hne).
Defined.

(** A coefficient that is not the identity on an operator that has
    coefficients of its own: the call exits. *)
Lemma Multi_outcome_witness :
  CoefOpAlg.OpRepr_wf toy_op_a /\
  CoefOpAlg.CoefReprOpReprIncompleteMulti (CoefOpAlg.MkCoefRepr [5]) toy_op_a
  = CoefOpAlg.Exit 1 /\
  CoefOpAlg.CoefReprOpReprIncompleteMulti (CoefOpAlg.MkCoefRepr [5]) toy_op_a
  <> CoefOpAlg.Undefined.
Proof.
  split; [exact toy_op_a_wf|]. split; [reflexivity|].
  exact (proj1 (proj2 (proj2 (proj2
           (CoefOpAlgFacts.Multi_outcome (CoefOpAlg.MkCoefRepr [5]) toy_op_a
              toy_op_a_wf))))).
Defined.

Lemma toy_mps4_wf : wf toy_mps4.
Proof. split; [reflexivity | vm_compute; reflexivity]. Defined.

Lemma toy_mps4_resident : resident toy_mps4.
Proof.
  intros i Hi. destruct i as [|[|[|[|i]]]];
    [eexists; reflexivity .. | vm_compute in Hi; lia].
Defined.

(** Centralising at site 1 an MPS whose site 0 is left-canonical and whose
    site 3 is right-canonical. *)
Lemma Centralize_local_witness :
  wf toy_mps4 /\ resident toy_mps4 /\ Z.of_nat (size toy_mps4) <= 2 ^ 31 /\
  0 <= 1 < Z.of_nat (size toy_mps4) /\
  Z.of_nat 1 <= 1 <= Z.of_nat 2 /\
  (forall j, (j < 1)%nat -> tens_cano_type_ toy_mps4 !! j = Some LEFT) /\
  (forall j, (2 < j < size toy_mps4)%nat ->
     tens_cano_type_ toy_mps4 !! j = Some RIGHT) /\
  exists m1, Centralize 1 (toy_mps4, toy_disk) = Some (tt, (m1, toy_disk)) /\
    forall j, (j < 1 \/ 2 < j)%nat -> raw_data_ m1 !! j = raw_data_ toy_mps4 !! j.
Proof.
  assert (Ht : 0 <= 1 < Z.of_nat (size toy_mps4)) by (vm_compute; split; congruence).
  assert (Hint : Z.of_nat (size toy_mps4) <= 2 ^ 31) by (vm_compute; congruence).
  assert (Hpq : Z.of_nat 1 <= 1 <= Z.of_nat 2) by lia.
  assert (HL : forall j, (j < 1)%nat -> tens_cano_type_ toy_mps4 !! j = Some LEFT).
  { intros [|j] Hj; [reflexivity|lia]. }
  assert (HR : forall j, (2 < j < size toy_mps4)%nat ->
                 tens_cano_type_ toy_mps4 !! j = Some RIGHT).
  { intros [|[|[|[|j]]]] Hj; [lia|lia|lia|reflexivity|vm_compute in Hj; lia]. }
  split; [exact toy_mps4_wf|]. split; [exact toy_mps4_resident|].
  split; [exact Hint|]. split; [exact Ht|]. split; [exact Hpq|].
  split; [exact HL|]. split; [exact HR|].
  exact (MpsFacts.Centralize_local toy_mps4 toy_disk 1 1 2
           toy_mps4_wf toy_mps4_resident Hint Ht Hpq HL HR).
Defined.

(** Moving the center of a three-site MPS from site 0 to site 2. *)
Lemma Centralize_recenter_witness :
  wf toy_mps /\ resident toy_mps /\ Z.of_nat (size toy_mps) <= 2 ^ 31 /\
  0 <= 0 < Z.of_nat (size toy_mps) /\ 0 <= 2 < Z.of_nat (size toy_mps) /\
  exists m1 m2,
    Centralize 0 (toy_mps, toy_disk) = Some (tt, (m1, toy_disk)) /\
    Centralize 2 (m1, toy_disk) = Some (tt, (m2, toy_disk)) /\
    center_ m2 = 2.
Proof.
  assert (Ht1 : 0 <= 0 < Z.of_nat (size toy_mps)) by (vm_compute; split; congruence).
  assert (Ht2 : 0 <= 2 < Z.of_nat (size toy_mps)) by (vm_compute; split; congruence).
  assert (Hint : Z.of_nat (size toy_mps) <= 2 ^ 31) by (vm_compute; congruence).
  split; [exact toy_mps_wf|]. split; [exact toy_mps_resident|].
  split; [exact Hint|]. split; [exact Ht1|]. split; [exact Ht2|].
  destruct (MpsFacts.Centralize_recenter toy_mps toy_disk 0 2
              toy_mps_wf toy_mps_resident Hint Ht1 Ht2)
    as (m1 & m2 & H1 & H2 & H3 & _).
  exists m1, m2. split; [exact H1|]. split; [exact H2|exact H3].
Defined.

(** Truncating a three-site MPS: the bonds 0 and 1. *)
Lemma TruncateMPS_run_witness :
  wf toy_mps /\ resident toy_mps /\ Z.of_nat (size toy_mps) <= 2 ^ 31 /\
  (2 <= size toy_mps)%nat /\
  exists out m',
    TruncateMPS 0x1p-30%float 1 8 (toy_mps, toy_disk) = Some (out, (m', toy_disk)) /\
    tl_bond <$> out = seq 0 (size toy_mps - 1).
Proof.
  assert (Hint : Z.of_nat (size toy_mps) <= 2 ^ 31) by (vm_compute; congruence).
  assert (H2 : (2 <= size toy_mps)%nat) by (vm_compute; lia).
  split; [exact toy_mps_wf|]. split; [exact toy_mps_resident|].
  split; [exact Hint|]. split; [exact H2|].
  destruct (MpsFacts.TruncateMPS_run 0x1p-30%float 1 8 toy_mps toy_disk
              toy_mps_wf toy_mps_resident Hint H2)
    as (out & m' & Hrun & Hb & _).
  exists out, m'. split; [exact Hrun|exact Hb].
Defined.

(** Five basis vectors allowed for a state of two elements. *)
Lemma LanczosSolver_iteration_bounds_witness :
  (2 <= max_iterations params_5)%nat /\
  exists r, LanczosSolver H_flip e1 matvec params_5 = Returned r /\
    (1 <= iters r <= max_iterations params_5)%nat /\
    ((1 <= eff_ham_eff_dim e1)%nat -> (iters r <= eff_ham_eff_dim e1 + 1)%nat).
Proof.
  assert (Hmax : (2 <= max_iterations params_5)%nat) by (vm_compute; lia).
  split; [exact Hmax|].
  exact (LanczosFacts.LanczosSolver_iteration_bounds (TL:=toy_lib)
           H_flip e1 matvec params_5 Hmax).
Defined.

(** No basis vector allowed. *)
Lemma LanczosSolver_zero_cap_witness :
  max_iterations params_0 = 0%nat /\
  LanczosSolver H_flip e1 matvec params_0 = Faulted (OutOfRange 0 0).
Proof.
  split; [reflexivity|].
  exact (LanczosFacts.LanczosSolver_zero_cap (TL:=toy_lib)
           H_flip e1 matvec params_0 eq_refl).
Defined.

(** The assembler run twice at the only bond of a two-site chain. *)
Lemma SetEffectiveHamiltonianTerms__idempotent_witness :
  (Dmrg.r_site_ (toy_exec "r") < Dmrg.N_ (toy_exec "r"))%nat /\
  exists ex', Dmrg.SetEffectiveHamiltonianTerms_ (toy_exec "r") = Some (tt, ex') /\
    Dmrg.SetEffectiveHamiltonianTerms_ ex' = Some (tt, ex').
Proof.
  assert (Hr : (Dmrg.r_site_ (toy_exec "r") < Dmrg.N_ (toy_exec "r"))%nat)
    by (vm_compute; lia).
  split; [exact Hr|].
  destruct (DmrgFacts.SetEffectiveHamiltonianTerms__idempotent (TL:=toy_lib)
              (toy_exec "r") toy_W0 toy_W1 [[1]%float] [[1]%float] Hr
              ltac:(vm_compute; reflexivity) eq_refl eq_refl eq_refl eq_refl
              eq_refl eq_refl eq_refl eq_refl eq_refl)
    as (ex' & H1 & H2 & _).
  exists ex'. split; [exact H1|exact H2].
Defined.

Lemma toy_W_in_range (W : SparMat vec) (off : nat) (idx : Z) :
  W = toy_W0 \/ W = toy_W1 -> indexes W !! off = Some idx -> idx <> -1 ->
  0 <= idx < Z.of_nat (length (data W)).
Proof.
  intros [->| ->] Hlk Hne; destruct off as [|[|off]]; simpl in Hlk;
    try discriminate Hlk; injection Hlk as <-;
    solve [vm_compute; split; congruence | congruence].
Defined.

(** The pointers stored at the only bond of a two-site chain. *)
Lemma SetEffectiveHamiltonianTerms__dereferenceable_witness :
  (Dmrg.r_site_ (toy_exec "r") < Dmrg.N_ (toy_exec "r"))%nat /\
  (forall W off idx, W = toy_W0 \/ W = toy_W1 -> indexes W !! off = Some idx ->
     idx <> -1 -> 0 <= idx < Z.of_nat (length (data W))) /\
  exists ex' ts,
    Dmrg.SetEffectiveHamiltonianTerms_ (toy_exec "r") = Some (tt, ex') /\
    mapM (deref_term ex') (Dmrg.hamiltonian_terms_ ex') = Some ts /\
    length ts = length (triples toy_W0 toy_W1).
Proof.
  assert (Hr : (Dmrg.r_site_ (toy_exec "r") < Dmrg.N_ (toy_exec "r"))%nat)
    by (vm_compute; lia).
  split; [exact Hr|]. split; [exact toy_W_in_range|].
  exact (DmrgFacts.SetEffectiveHamiltonianTerms__dereferenceable (TL:=toy_lib)
           (toy_exec "r") toy_W0 toy_W1 [[1]%float] [[1]%float] Hr
           ltac:(vm_compute; reflexivity) eq_refl eq_refl eq_refl eq_refl
           eq_refl eq_refl eq_refl eq_refl eq_refl toy_W_in_range).
Defined.



(** With no sweep to run the executor prints nothing and has no energy to
    return. *)
Lemma Execute_no_sweep_witness :
  collaborators_ok /\
  size (Dmrg.mps_ (chain_new 0)) = length (mat_repr_mpo_ (chain_new 0)) /\
  DMRGInit_ (chain_new 0) = Some (tt, chain_init 0) /\
  init_ready (chain_init 0) /\
  sweeps (sweep_params (chain_init 0)) = 0%nat /\
  exists ex',
    Execute (chain_new 0) = Some (tt, ex') /\
    cout_ ex' = [] /\
    e0_ ex' = None /\
    GetEnergy ex' = None.
Proof.
  split; [exact toy_collaborators_ok|]. split; [reflexivity|].
  split; [reflexivity|]. split; [exact (chain_init_ready 0)|].
  split; [reflexivity|].
  destruct (SweepFacts.Execute_no_sweep (IO:=toy_io) (IN:=toy_init)
              (chain_new 0) (chain_init 0)
              toy_collaborators_ok ltac:(reflexivity) ltac:(reflexivity)
              (chain_init_ready 0) ltac:(reflexivity))
    as (ex' & Hrun & Hcout & He & HE).
  exists ex'. split; [exact Hrun|]. split; [exact Hcout|].
  split; [exact He|]. exact HE.
Defined.

End Examples.
